(** * Rubik's cube game (RubikGame/main.py): move dispatch, collision
    aggregation, rotation execution and shuffle scheduling.

    The class [MyGame] is embedded as a record of its attributes together
    with the part of the Panda3D runtime the methods talk to: the scene
    graph relation "parent of a cubie", the one-shot keystroke hook
    ([accept_once]), the intervals that were started ([Sequence.start]) with
    the steps they still have to play, and the Python heap cell that holds the
    [cubes] copy shared by the two [Func] callbacks of a rotation.  Methods
    are state transformers [MyGame -> MyGame] named as in the source.

    What the engine delivers (keystrokes, collision "in" events, the playing
    of interval steps) is the input alphabet of a small event machine.

    Not modelled: rendering (show/hide, tight bounds, 3D labels), debug
    printing, the geometry behind the collision test, and the change of a
    cubie's local coordinates under [wrtReparentTo].  Engine floats
    (coordinates, angles) are integers here; every constant of the source
    (15, 90, 180) is integral. *)

From Stdlib Require Import ZArith Ascii String.
From stdpp Require Import base strings functions gmap sets list.

Local Open Scope Z_scope.

(** ** Data *)

(** A cubie ([NodePath] of a small cube). *)
Definition Cube := nat.

(** The nine entries of [mapping_sides], in the order of the dict literal. *)
Inductive Side :=
| TOP_SIDE | BOTTOM_SIDE | LEFT_SIDE | RIGHT_SIDE | FRONT_SIDE | BACK_SIDE
| CENTER_VERTICAL_SIDE | CENTER_DOUBLE_SIDE | CENTER_HORIZONTAL_SIDE.

#[global] Instance Side_eq_dec : EqDecision Side.
Proof. solve_decision. Defined.

(** Nodes a cubie can hang under: [self.cube_model], or the collision node of
    a side (the "pivot" of [rotate_side]). *)
Inductive Node := CubeModel | Pivot (s : Side).

#[global] Instance Node_eq_dec : EqDecision Node.
Proof. solve_decision. Defined.

Record Vec3 := mkVec3 { v0 : Z; v1 : Z; v2 : Z }.

#[global] Instance Vec3_eq_dec : EqDecision Vec3.
Proof. solve_decision. Defined.

(** [Vec3 * int] *)
Definition vmul (v : Vec3) (k : Z) : Vec3 :=
  mkVec3 (v0 v * k) (v1 v * k) (v2 v * k).

Definition vneg (v : Vec3) : Vec3 := mkVec3 (- v0 v) (- v1 v) (- v2 v).

Record SideCfg := mkSide { key : string; rotation : Vec3; num : nat }.

Definition mapping_sides (s : Side) : SideCfg :=
  match s with
  | TOP_SIDE => mkSide "t" (mkVec3 (-90) 0 0) 9
  | BOTTOM_SIDE => mkSide "d" (mkVec3 (-90) 0 0) 9
  | LEFT_SIDE => mkSide "l" (mkVec3 0 90 0) 9
  | RIGHT_SIDE => mkSide "r" (mkVec3 0 (-90) 0) 9
  | FRONT_SIDE => mkSide "f" (mkVec3 0 0 90) 9
  | BACK_SIDE => mkSide "b" (mkVec3 0 0 (-90)) 9
  | CENTER_VERTICAL_SIDE => mkSide "v" (mkVec3 (-90) 0 0) 8
  | CENTER_DOUBLE_SIDE => mkSide "c" (mkVec3 0 0 90) 8
  | CENTER_HORIZONTAL_SIDE => mkSide "h" (mkVec3 0 90 0) 8
  end.

(** [self.mapping_sides.values()] iterates in insertion order. *)
Definition sides : list Side :=
  [TOP_SIDE; BOTTOM_SIDE; LEFT_SIDE; RIGHT_SIDE; FRONT_SIDE; BACK_SIDE;
   CENTER_VERTICAL_SIDE; CENTER_DOUBLE_SIDE; CENTER_HORIZONTAL_SIDE].

(** A [CollisionEntry]: the cubie whose collider is the "from" node and the
    side whose collision node is the "into" node. *)
Record CollisionEntry := mkEntry { from_cube : Cube; into_side : Side }.

(** Callbacks wrapped by [Func(...)], with their bound arguments.  The
    [cubes] argument is the address of the copied set. *)
Inductive Callback :=
| rotate_without_anim_cb (name pivot : Side)
| reparent_cubes_cb (pivot : Side) (cubes : nat)
| reset_cb (cubes : nat)
| turn_on_off_anmiate_cb (state : bool)
| force_collisions_cb (k : string)
| turn_of_randomize_cb.

(** Elements of a [Sequence]; durations in milliseconds. *)
Inductive Ival :=
| HprInterval (pivot : Side) (ms : Z) (target : Vec3)
| Wait (ms : Z)
| Func (f : Callback).

(** Calls made by the methods, recorded in the order they happen: the
    engine calls [traverse], [setFluidPos] and the trackball's [setHpr], the
    entry into [rotate_side] and [self.collided_cubes.clear()]. *)
Inductive Call :=
| Traverse (trav : Side)
| SetFluidPos (c : Cube) (p : Vec3)
| TbSetHpr (h : Vec3)
| RotateSide (pivot : Side)
| ClearCollided.

#[global] Instance Call_eq_dec : EqDecision Call.
Proof. solve_decision. Defined.

(** The game: the attributes of [MyGame] ([direction], [animate],
    [randomizing], [collided_cubes], [cubes], the two on-screen texts), the
    scene graph ([parent] and [pos] of the cubies, [hpr] of the pivots,
    [tb_hpr] of the trackball), and the runtime: the Python [heap] of set
    copies, whether the one-shot keystroke hook is [armed], the started
    [intervals] with the steps each has left, the random tape and the
    [trace] of calls. *)
Record MyGame := mkGame {
  direction : Z;
  animate : bool;
  randomizing : bool;
  collided_cubes : gset Cube;
  cubes : gset Cube;
  parent : Cube -> Node;
  pos : Cube -> Vec3;
  hpr : Side -> Vec3;
  tb_hpr : Vec3;
  pressed_button : string;
  info_on_screen : string;
  heap : list (gset Cube);
  armed : bool;
  intervals : list (list Ival);
  rand_tape : nat -> nat;
  rand_pos : nat;
  trace : list Call
}.

Definition set_direction v (g : MyGame) : MyGame :=
  {| direction := v; animate := animate g; randomizing := randomizing g;
     collided_cubes := collided_cubes g; cubes := cubes g;
     parent := parent g; pos := pos g; hpr := hpr g; tb_hpr := tb_hpr g;
     pressed_button := pressed_button g; info_on_screen := info_on_screen g;
     heap := heap g; armed := armed g; intervals := intervals g;
     rand_tape := rand_tape g; rand_pos := rand_pos g; trace := trace g |}.
Definition set_animate v (g : MyGame) : MyGame :=
  {| direction := direction g; animate := v; randomizing := randomizing g;
     collided_cubes := collided_cubes g; cubes := cubes g;
     parent := parent g; pos := pos g; hpr := hpr g; tb_hpr := tb_hpr g;
     pressed_button := pressed_button g; info_on_screen := info_on_screen g;
     heap := heap g; armed := armed g; intervals := intervals g;
     rand_tape := rand_tape g; rand_pos := rand_pos g; trace := trace g |}.
Definition set_randomizing v (g : MyGame) : MyGame :=
  {| direction := direction g; animate := animate g; randomizing := v;
     collided_cubes := collided_cubes g; cubes := cubes g;
     parent := parent g; pos := pos g; hpr := hpr g; tb_hpr := tb_hpr g;
     pressed_button := pressed_button g; info_on_screen := info_on_screen g;
     heap := heap g; armed := armed g; intervals := intervals g;
     rand_tape := rand_tape g; rand_pos := rand_pos g; trace := trace g |}.
Definition set_collided_cubes v (g : MyGame) : MyGame :=
  {| direction := direction g; animate := animate g;
     randomizing := randomizing g; collided_cubes := v; cubes := cubes g;
     parent := parent g; pos := pos g; hpr := hpr g; tb_hpr := tb_hpr g;
     pressed_button := pressed_button g; info_on_screen := info_on_screen g;
     heap := heap g; armed := armed g; intervals := intervals g;
     rand_tape := rand_tape g; rand_pos := rand_pos g; trace := trace g |}.
Definition set_parent v (g : MyGame) : MyGame :=
  {| direction := direction g; animate := animate g;
     randomizing := randomizing g; collided_cubes := collided_cubes g;
     cubes := cubes g; parent := v; pos := pos g; hpr := hpr g;
     tb_hpr := tb_hpr g; pressed_button := pressed_button g;
     info_on_screen := info_on_screen g; heap := heap g; armed := armed g;
     intervals := intervals g; rand_tape := rand_tape g;
     rand_pos := rand_pos g; trace := trace g |}.
Definition set_pos v (g : MyGame) : MyGame :=
  {| direction := direction g; animate := animate g;
     randomizing := randomizing g; collided_cubes := collided_cubes g;
     cubes := cubes g; parent := parent g; pos := v; hpr := hpr g;
     tb_hpr := tb_hpr g; pressed_button := pressed_button g;
     info_on_screen := info_on_screen g; heap := heap g; armed := armed g;
     intervals := intervals g; rand_tape := rand_tape g;
     rand_pos := rand_pos g; trace := trace g |}.
Definition set_hpr v (g : MyGame) : MyGame :=
  {| direction := direction g; animate := animate g;
     randomizing := randomizing g; collided_cubes := collided_cubes g;
     cubes := cubes g; parent := parent g; pos := pos g; hpr := v;
     tb_hpr := tb_hpr g; pressed_button := pressed_button g;
     info_on_screen := info_on_screen g; heap := heap g; armed := armed g;
     intervals := intervals g; rand_tape := rand_tape g;
     rand_pos := rand_pos g; trace := trace g |}.
Definition set_tb_hpr v (g : MyGame) : MyGame :=
  {| direction := direction g; animate := animate g;
     randomizing := randomizing g; collided_cubes := collided_cubes g;
     cubes := cubes g; parent := parent g; pos := pos g; hpr := hpr g;
     tb_hpr := v; pressed_button := pressed_button g;
     info_on_screen := info_on_screen g; heap := heap g; armed := armed g;
     intervals := intervals g; rand_tape := rand_tape g;
     rand_pos := rand_pos g; trace := trace g |}.
Definition set_pressed_button v (g : MyGame) : MyGame :=
  {| direction := direction g; animate := animate g;
     randomizing := randomizing g; collided_cubes := collided_cubes g;
     cubes := cubes g; parent := parent g; pos := pos g; hpr := hpr g;
     tb_hpr := tb_hpr g; pressed_button := v;
     info_on_screen := info_on_screen g; heap := heap g; armed := armed g;
     intervals := intervals g; rand_tape := rand_tape g;
     rand_pos := rand_pos g; trace := trace g |}.
Definition set_info_on_screen v (g : MyGame) : MyGame :=
  {| direction := direction g; animate := animate g;
     randomizing := randomizing g; collided_cubes := collided_cubes g;
     cubes := cubes g; parent := parent g; pos := pos g; hpr := hpr g;
     tb_hpr := tb_hpr g; pressed_button := pressed_button g;
     info_on_screen := v; heap := heap g; armed := armed g;
     intervals := intervals g; rand_tape := rand_tape g;
     rand_pos := rand_pos g; trace := trace g |}.
Definition set_heap v (g : MyGame) : MyGame :=
  {| direction := direction g; animate := animate g;
     randomizing := randomizing g; collided_cubes := collided_cubes g;
     cubes := cubes g; parent := parent g; pos := pos g; hpr := hpr g;
     tb_hpr := tb_hpr g; pressed_button := pressed_button g;
     info_on_screen := info_on_screen g; heap := v; armed := armed g;
     intervals := intervals g; rand_tape := rand_tape g;
     rand_pos := rand_pos g; trace := trace g |}.
Definition set_armed v (g : MyGame) : MyGame :=
  {| direction := direction g; animate := animate g;
     randomizing := randomizing g; collided_cubes := collided_cubes g;
     cubes := cubes g; parent := parent g; pos := pos g; hpr := hpr g;
     tb_hpr := tb_hpr g; pressed_button := pressed_button g;
     info_on_screen := info_on_screen g; heap := heap g; armed := v;
     intervals := intervals g; rand_tape := rand_tape g;
     rand_pos := rand_pos g; trace := trace g |}.
Definition set_intervals v (g : MyGame) : MyGame :=
  {| direction := direction g; animate := animate g;
     randomizing := randomizing g; collided_cubes := collided_cubes g;
     cubes := cubes g; parent := parent g; pos := pos g; hpr := hpr g;
     tb_hpr := tb_hpr g; pressed_button := pressed_button g;
     info_on_screen := info_on_screen g; heap := heap g; armed := armed g;
     intervals := v; rand_tape := rand_tape g; rand_pos := rand_pos g;
     trace := trace g |}.
Definition set_rand_pos v (g : MyGame) : MyGame :=
  {| direction := direction g; animate := animate g;
     randomizing := randomizing g; collided_cubes := collided_cubes g;
     cubes := cubes g; parent := parent g; pos := pos g; hpr := hpr g;
     tb_hpr := tb_hpr g; pressed_button := pressed_button g;
     info_on_screen := info_on_screen g; heap := heap g; armed := armed g;
     intervals := intervals g; rand_tape := rand_tape g; rand_pos := v;
     trace := trace g |}.
Definition set_trace v (g : MyGame) : MyGame :=
  {| direction := direction g; animate := animate g;
     randomizing := randomizing g; collided_cubes := collided_cubes g;
     cubes := cubes g; parent := parent g; pos := pos g; hpr := hpr g;
     tb_hpr := tb_hpr g; pressed_button := pressed_button g;
     info_on_screen := info_on_screen g; heap := heap g; armed := armed g;
     intervals := intervals g; rand_tape := rand_tape g;
     rand_pos := rand_pos g; trace := v |}.

(** ** Strings

    A Python [str] is a sequence of code points.  A [string] here holds its
    UTF-8 form, as the string literals of this file do; the key of a
    keystroke event is one character, of one to four bytes. *)

(** The six payload bits of a continuation byte. *)
Definition continuation (a : ascii) : N := N.land (N_of_ascii a) 63.

(** The code points of a UTF-8 text.  A byte string that is the UTF-8 form of
    no text stands for no [str]; its stray bytes are skipped. *)
Fixpoint code_points (s : string) : list N :=
  match s with
  | EmptyString => []
  | String a s1 =>
      let b := N_of_ascii a in
      if (b <? 128)%N then b :: code_points s1
      else if (b <? 192)%N then code_points s1
      else if (b <? 224)%N then
        match s1 with
        | String a1 s2 =>
            (N.land b 31 * 64 + continuation a1)%N :: code_points s2
        | _ => []
        end
      else if (b <? 240)%N then
        match s1 with
        | String a1 (String a2 s3) =>
            ((N.land b 15 * 64 + continuation a1) * 64 + continuation a2)%N
            :: code_points s3
        | _ => []
        end
      else
        match s1 with
        | String a1 (String a2 (String a3 s4)) =>
            (((N.land b 7 * 64 + continuation a1) * 64 + continuation a2) * 64
             + continuation a3)%N
            :: code_points s4
        | _ => []
        end
  end.

(** The case of a code point is data of the Unicode character database,
    which [str.isupper] reads (version 14.0.0, as CPython 3.11 ships it).
    Each table is sorted and lists (first, last, step): the code points
    first, first + step, ... up to last. *)
Fixpoint in_table (c : N) (t : list (N * N * N)) : bool :=
  match t with
  | [] => false
  | (lo, hi, st) :: t' =>
      if (c <? lo)%N then false
      else if (c <=? hi)%N then ((c - lo) mod st =? 0)%N
      else in_table c t'
  end.

(** Code points with the property Uppercase. *)
Definition uppercase_table : list (N * N * N) :=
  [(65, 90, 1); (192, 214, 1); (216, 222, 1); (256, 310, 2); (313, 327, 2);
   (330, 374, 2); (376, 377, 1); (379, 381, 2); (385, 386, 1); (388, 388, 1);
   (390, 391, 1); (393, 395, 1); (398, 401, 1); (403, 404, 1); (406, 408, 1);
   (412, 413, 1); (415, 416, 1); (418, 420, 2); (422, 423, 1); (425, 425, 1);
   (428, 428, 1); (430, 431, 1); (433, 435, 1); (437, 437, 1); (439, 440, 1);
   (444, 444, 1); (452, 452, 1); (455, 455, 1); (458, 458, 1); (461, 475, 2);
   (478, 494, 2); (497, 497, 1); (500, 500, 1); (502, 504, 1); (506, 562, 2);
   (570, 571, 1); (573, 574, 1); (577, 577, 1); (579, 582, 1); (584, 590, 2);
   (880, 882, 2); (886, 886, 1); (895, 895, 1); (902, 902, 1); (904, 906, 1);
   (908, 908, 1); (910, 911, 1); (913, 929, 1); (931, 939, 1); (975, 975, 1);
   (978, 980, 1); (984, 1006, 2); (1012, 1012, 1); (1015, 1015, 1);
   (1017, 1018, 1); (1021, 1071, 1); (1120, 1152, 2); (1162, 1214, 2);
   (1216, 1217, 1); (1219, 1229, 2); (1232, 1326, 2); (1329, 1366, 1);
   (4256, 4293, 1); (4295, 4295, 1); (4301, 4301, 1); (5024, 5109, 1);
   (7312, 7354, 1); (7357, 7359, 1); (7680, 7828, 2); (7838, 7934, 2);
   (7944, 7951, 1); (7960, 7965, 1); (7976, 7983, 1); (7992, 7999, 1);
   (8008, 8013, 1); (8025, 8031, 2); (8040, 8047, 1); (8120, 8123, 1);
   (8136, 8139, 1); (8152, 8155, 1); (8168, 8172, 1); (8184, 8187, 1);
   (8450, 8450, 1); (8455, 8455, 1); (8459, 8461, 1); (8464, 8466, 1);
   (8469, 8469, 1); (8473, 8477, 1); (8484, 8488, 2); (8490, 8493, 1);
   (8496, 8499, 1); (8510, 8511, 1); (8517, 8517, 1); (8544, 8559, 1);
   (8579, 8579, 1); (9398, 9423, 1); (11264, 11311, 1); (11360, 11360, 1);
   (11362, 11364, 1); (11367, 11371, 2); (11373, 11376, 1);
   (11378, 11378, 1); (11381, 11381, 1); (11390, 11392, 1);
   (11394, 11490, 2); (11499, 11501, 2); (11506, 11506, 1);
   (42560, 42604, 2); (42624, 42650, 2); (42786, 42798, 2);
   (42802, 42862, 2); (42873, 42875, 2); (42877, 42878, 1);
   (42880, 42886, 2); (42891, 42893, 2); (42896, 42898, 2);
   (42902, 42920, 2); (42922, 42926, 1); (42928, 42932, 1);
   (42934, 42946, 2); (42948, 42951, 1); (42953, 42953, 1);
   (42960, 42960, 1); (42966, 42968, 2); (42997, 42997, 1);
   (65313, 65338, 1); (66560, 66599, 1); (66736, 66771, 1);
   (66928, 66938, 1); (66940, 66954, 1); (66956, 66962, 1);
   (66964, 66965, 1); (68736, 68786, 1); (71840, 71871, 1);
   (93760, 93791, 1); (119808, 119833, 1); (119860, 119885, 1);
   (119912, 119937, 1); (119964, 119964, 1); (119966, 119967, 1);
   (119970, 119970, 1); (119973, 119974, 1); (119977, 119980, 1);
   (119982, 119989, 1); (120016, 120041, 1); (120068, 120069, 1);
   (120071, 120074, 1); (120077, 120084, 1); (120086, 120092, 1);
   (120120, 120121, 1); (120123, 120126, 1); (120128, 120132, 1);
   (120134, 120134, 1); (120138, 120144, 1); (120172, 120197, 1);
   (120224, 120249, 1); (120276, 120301, 1); (120328, 120353, 1);
   (120380, 120405, 1); (120432, 120457, 1); (120488, 120512, 1);
   (120546, 120570, 1); (120604, 120628, 1); (120662, 120686, 1);
   (120720, 120744, 1); (120778, 120778, 1); (125184, 125217, 1);
   (127280, 127305, 1); (127312, 127337, 1); (127344, 127369, 1)]%N.

(** Code points with the property Lowercase. *)
Definition lowercase_table : list (N * N * N) :=
  [(97, 122, 1); (170, 170, 1); (181, 181, 1); (186, 186, 1); (223, 246, 1);
   (248, 255, 1); (257, 309, 2); (311, 312, 1); (314, 326, 2); (328, 329, 1);
   (331, 375, 2); (378, 380, 2); (382, 384, 1); (387, 389, 2); (392, 392, 1);
   (396, 397, 1); (402, 402, 1); (405, 405, 1); (409, 411, 1); (414, 414, 1);
   (417, 421, 2); (424, 424, 1); (426, 427, 1); (429, 429, 1); (432, 432, 1);
   (436, 438, 2); (441, 442, 1); (445, 447, 1); (454, 454, 1); (457, 457, 1);
   (460, 474, 2); (476, 477, 1); (479, 493, 2); (495, 496, 1); (499, 501, 2);
   (505, 561, 2); (563, 569, 1); (572, 572, 1); (575, 576, 1); (578, 578, 1);
   (583, 589, 2); (591, 659, 1); (661, 696, 1); (704, 705, 1); (736, 740, 1);
   (837, 837, 1); (881, 883, 2); (887, 887, 1); (890, 893, 1); (912, 912, 1);
   (940, 974, 1); (976, 977, 1); (981, 983, 1); (985, 1005, 2);
   (1007, 1011, 1); (1013, 1013, 1); (1016, 1016, 1); (1019, 1020, 1);
   (1072, 1119, 1); (1121, 1153, 2); (1163, 1215, 2); (1218, 1228, 2);
   (1230, 1231, 1); (1233, 1327, 2); (1376, 1416, 1); (4304, 4346, 1);
   (4349, 4351, 1); (5112, 5117, 1); (7296, 7304, 1); (7424, 7615, 1);
   (7681, 7827, 2); (7829, 7837, 1); (7839, 7933, 2); (7935, 7943, 1);
   (7952, 7957, 1); (7968, 7975, 1); (7984, 7991, 1); (8000, 8005, 1);
   (8016, 8023, 1); (8032, 8039, 1); (8048, 8061, 1); (8064, 8071, 1);
   (8080, 8087, 1); (8096, 8103, 1); (8112, 8116, 1); (8118, 8119, 1);
   (8126, 8126, 1); (8130, 8132, 1); (8134, 8135, 1); (8144, 8147, 1);
   (8150, 8151, 1); (8160, 8167, 1); (8178, 8180, 1); (8182, 8183, 1);
   (8305, 8305, 1); (8319, 8319, 1); (8336, 8348, 1); (8458, 8458, 1);
   (8462, 8463, 1); (8467, 8467, 1); (8495, 8495, 1); (8500, 8500, 1);
   (8505, 8505, 1); (8508, 8509, 1); (8518, 8521, 1); (8526, 8526, 1);
   (8560, 8575, 1); (8580, 8580, 1); (9424, 9449, 1); (11312, 11359, 1);
   (11361, 11361, 1); (11365, 11366, 1); (11368, 11372, 2);
   (11377, 11377, 1); (11379, 11380, 1); (11382, 11389, 1);
   (11393, 11489, 2); (11491, 11492, 1); (11500, 11502, 2);
   (11507, 11507, 1); (11520, 11557, 1); (11559, 11559, 1);
   (11565, 11565, 1); (42561, 42605, 2); (42625, 42649, 2);
   (42651, 42653, 1); (42787, 42797, 2); (42799, 42801, 1);
   (42803, 42861, 2); (42863, 42872, 1); (42874, 42876, 2);
   (42879, 42887, 2); (42892, 42894, 2); (42897, 42897, 1);
   (42899, 42901, 1); (42903, 42921, 2); (42927, 42927, 1);
   (42933, 42947, 2); (42952, 42954, 2); (42961, 42969, 2);
   (42998, 42998, 1); (43000, 43002, 1); (43824, 43866, 1);
   (43868, 43880, 1); (43888, 43967, 1); (64256, 64262, 1);
   (64275, 64279, 1); (65345, 65370, 1); (66600, 66639, 1);
   (66776, 66811, 1); (66967, 66977, 1); (66979, 66993, 1);
   (66995, 67001, 1); (67003, 67004, 1); (67456, 67456, 1);
   (67459, 67461, 1); (67463, 67504, 1); (67506, 67514, 1);
   (68800, 68850, 1); (71872, 71903, 1); (93792, 93823, 1);
   (119834, 119859, 1); (119886, 119892, 1); (119894, 119911, 1);
   (119938, 119963, 1); (119990, 119993, 1); (119995, 119995, 1);
   (119997, 120003, 1); (120005, 120015, 1); (120042, 120067, 1);
   (120094, 120119, 1); (120146, 120171, 1); (120198, 120223, 1);
   (120250, 120275, 1); (120302, 120327, 1); (120354, 120379, 1);
   (120406, 120431, 1); (120458, 120485, 1); (120514, 120538, 1);
   (120540, 120545, 1); (120572, 120596, 1); (120598, 120603, 1);
   (120630, 120654, 1); (120656, 120661, 1); (120688, 120712, 1);
   (120714, 120719, 1); (120746, 120770, 1); (120772, 120777, 1);
   (120779, 120779, 1); (122624, 122633, 1); (122635, 122654, 1);
   (125218, 125251, 1)]%N.

(** Code points of the category Lt (titlecase letters). *)
Definition titlecase_table : list (N * N * N) :=
  [(453, 453, 1); (456, 456, 1); (459, 459, 1); (498, 498, 1);
   (8072, 8079, 1); (8088, 8095, 1); (8104, 8111, 1); (8124, 8124, 1);
   (8140, 8140, 1); (8188, 8188, 1)]%N.

Definition is_upper_cp (c : N) : bool := in_table c uppercase_table.
Definition is_lower_cp (c : N) : bool := in_table c lowercase_table.
Definition is_title_cp (c : N) : bool := in_table c titlecase_table.

(** [str.isupper()]: no character of the text is lowercase or titlecase,
    and at least one is uppercase. *)
Definition isupper (s : string) : bool :=
  let cps := code_points s in
  existsb is_upper_cp cps
  && negb (existsb (fun c => is_lower_cp c || is_title_cp c) cps).

Definition is_lower_ascii (a : ascii) : bool :=
  let n := nat_of_ascii a in (97 <=? n)%nat && (n <=? 122)%nat.

Definition upper_ascii (a : ascii) : ascii :=
  if is_lower_ascii a then ascii_of_nat (nat_of_ascii a - 32) else a.

(** [str.upper()] on ASCII text, which is all the code applies it to: the
    keys of [mapping_sides]. *)
Fixpoint upper (s : string) : string :=
  match s with
  | EmptyString => EmptyString
  | String a s' => String (upper_ascii a) (upper s')
  end.

Definition ascii_letters : string :=
  "abcdefghijklmnopqrstuvwxyzABCDEFGHIJKLMNOPQRSTUVWXYZ".

(** [s in t] for two strings: [s] occurs in [t]. *)
Definition str_in (s t : string) : bool :=
  match String.index 0 s t with Some _ => true | None => false end.

(** [key in [..]] for a list of strings. *)
Definition key_in (k : string) (l : list string) : bool := bool_decide (k ∈ l).

(** ** The random module

    One raw draw of the tape per random number: [randint a b] maps it into
    [a..b], [choices population k] maps each of [k] draws to an index of the
    population. *)

Definition randint (a b : Z) (g : MyGame) : Z * MyGame :=
  (a + Z.of_nat (rand_tape g (rand_pos g)) mod (b - a + 1),
   set_rand_pos (S (rand_pos g)) g).

Definition choices (population : list string) (k : nat) (g : MyGame)
  : list string * MyGame :=
  (map (fun i => nth (rand_tape g (rand_pos g + i) mod length population)%nat
                     population EmptyString) (seq 0 k),
   set_rand_pos (rand_pos g + k)%nat g).

(** ** Engine calls *)

Definition traverse (trav : Side) (g : MyGame) : MyGame :=
  set_trace (trace g ++ [Traverse trav]) g.

(** [self.accept_once("keystroke", self.force_collisions)] *)
Definition accept_once (g : MyGame) : MyGame := set_armed true g.

Definition setFluidPos (c : Cube) (p : Vec3) (g : MyGame) : MyGame :=
  set_trace (trace g ++ [SetFluidPos c p]) (set_pos (<[c := p]> (pos g)) g).

Definition wrtReparentTo (c : Cube) (n : Node) (g : MyGame) : MyGame :=
  set_parent (<[c := n]> (parent g)) g.

(** [for x in xs: body], on a Python set. *)
Definition for_each (xs : gset Cube) (body : Cube -> MyGame -> MyGame)
  (g : MyGame) : MyGame :=
  foldl (fun g x => body x g) g (elements xs).

(** Start a [Sequence]: the interval manager now holds its steps. *)
Definition start (s : list Ival) (g : MyGame) : MyGame :=
  set_intervals (intervals g ++ [s]) g.

(** ** Methods of [MyGame] *)

Definition print_info_on_screen (msg : string) (g : MyGame) : MyGame :=
  set_info_on_screen msg g.

Definition print_key_on_screen (keyname : string) (g : MyGame) : MyGame :=
  if str_in keyname ascii_letters then set_pressed_button keyname g else g.

Definition look_at_cube_side (k : string) (g : MyGame) : MyGame :=
  let '(tmp_txt, tmp_hpr) :=
    if String.eqb k "1" then ("Front", mkVec3 0 0 0)
    else if String.eqb k "2" then ("Back", mkVec3 0 180 180)
    else if String.eqb k "3" then ("Left", mkVec3 90 0 0)
    else if String.eqb k "4" then ("Right", mkVec3 (-90) 0 0)
    else if String.eqb k "5" then ("Top", mkVec3 0 90 0)
    else if String.eqb k "6" then ("Bottom", mkVec3 0 (-90) 0)
    else ("Opposite side",
          let h := tb_hpr g in mkVec3 (v0 h) (v1 h) (v2 h - 90)) in
  print_info_on_screen tmp_txt
    (set_trace (trace g ++ [TbSetHpr tmp_hpr]) (set_tb_hpr tmp_hpr g)).

Definition turn_on_off_anmiate (state : bool) (g : MyGame) : MyGame :=
  if state then set_animate true g else set_animate false g.

Definition turn_of_randomize (g : MyGame) : MyGame :=
  accept_once (set_randomizing false g).

(** The eighteen command keys built by the loop of [randomize]. *)
Definition shuffle_keys : list string :=
  flat_map (fun x => [key x; upper (key x)]) (map mapping_sides sides).

Definition random_seq_of (choosed_keys : list string) : list Ival :=
  [Func (turn_on_off_anmiate_cb false); Wait 1000]
  ++ flat_map (fun k => [Func (force_collisions_cb k); Wait 150]) choosed_keys
  ++ [Func (turn_on_off_anmiate_cb true); Func turn_of_randomize_cb].

Definition randomize (g : MyGame) : MyGame :=
  if randomizing g then g
  else
    let g := set_randomizing true g in
    let keys := shuffle_keys in
    let '(n, g) := randint 30 60 g in
    let '(choosed_keys, g) := choices keys (Z.to_nat n) g in
    start (random_seq_of choosed_keys) g.

Definition force_traverse (k : string) (g : MyGame) : MyGame :=
  let g := set_direction (if isupper k then -1 else 1) g in
  if key_in k ["t"; "T"] then traverse TOP_SIDE g
  else if key_in k ["d"; "D"] then traverse BOTTOM_SIDE g
  else if key_in k ["l"; "L"] then traverse LEFT_SIDE g
  else if key_in k ["r"; "R"] then traverse RIGHT_SIDE g
  else if key_in k ["f"; "F"] then traverse FRONT_SIDE g
  else if key_in k ["b"; "B"] then traverse BACK_SIDE g
  else if key_in k ["h"; "H"] then traverse CENTER_HORIZONTAL_SIDE g
  else if key_in k ["v"; "V"] then traverse CENTER_VERTICAL_SIDE g
  else if key_in k ["c"; "C"] then traverse CENTER_DOUBLE_SIDE g
  else
    let g :=
      if String.eqb k " " then randomize g
      else if key_in k ["1"; "2"; "3"; "4"; "5"; "6"; "7"]
           then look_at_cube_side k g
           else g in
    accept_once g.

Definition force_collisions (k : string) (g : MyGame) : MyGame :=
  let g := force_traverse k g in
  let g := for_each (cubes g) (fun cube g =>
             let p := pos g cube in
             setFluidPos cube (mkVec3 (v0 p + 15) (v1 p + 15) (v2 p + 15)) g) g in
  let g := force_traverse k g in
  let g := for_each (cubes g) (fun cube g =>
             let p := pos g cube in
             setFluidPos cube (mkVec3 (v0 p - 15) (v1 p - 15) (v2 p - 15)) g) g in
  print_key_on_screen k g.

Definition rotate_without_anim (name pivot : Side) (g : MyGame) : MyGame :=
  set_hpr (<[pivot := vmul (rotation (mapping_sides name)) (direction g)]> (hpr g)) g.

(** [cubes] is the address of the copy made by [rotate_side]. *)
Definition deref (cubes_loc : nat) (g : MyGame) : gset Cube :=
  default ∅ (heap g !! cubes_loc).

Definition reset (cubes_loc : nat) (g : MyGame) : MyGame :=
  let g := set_heap (<[cubes_loc := ∅]> (heap g)) g in
  let g := set_collided_cubes ∅ (set_trace (trace g ++ [ClearCollided]) g) in
  if randomizing g then g else accept_once g.

Definition reparent_cubes (pivot : Side) (cubes_loc : nat) (g : MyGame)
  : MyGame :=
  for_each (deref cubes_loc g) (fun cube g => wrtReparentTo cube CubeModel g) g.

Definition rotate_side (coll_entry : CollisionEntry) (g : MyGame) : MyGame :=
  let g := set_trace (trace g ++ [RotateSide (into_side coll_entry)]) g in
  let pivot := into_side coll_entry in
  let name := pivot in
  let cubes_loc := length (heap g) in
  let g := set_heap (heap g ++ [collided_cubes g]) g in
  let g := set_hpr (<[pivot := mkVec3 0 0 0]> (hpr g)) g in
  let g := for_each (deref cubes_loc g)
             (fun cubo g => wrtReparentTo cubo (Pivot pivot) g) g in
  let seq :=
    (if animate g
     then [HprInterval pivot 280
             (vmul (rotation (mapping_sides name)) (direction g))]
     else [Func (rotate_without_anim_cb name pivot)])
    ++ [Func (reparent_cubes_cb pivot cubes_loc); Func (reset_cb cubes_loc)] in
  start seq g.

Definition collide (num : nat) (collEntry : CollisionEntry) (g : MyGame)
  : MyGame :=
  let cude_node := from_cube collEntry in
  let g := set_collided_cubes ({[cude_node]} ∪ collided_cubes g) g in
  if (num <=? size (collided_cubes g))%nat then rotate_side collEntry g else g.

(** ** The runtime around the methods *)

Definition call (f : Callback) (g : MyGame) : MyGame :=
  match f with
  | rotate_without_anim_cb name pivot => rotate_without_anim name pivot g
  | reparent_cubes_cb pivot cubes_loc => reparent_cubes pivot cubes_loc g
  | reset_cb cubes_loc => reset cubes_loc g
  | turn_on_off_anmiate_cb state => turn_on_off_anmiate state g
  | force_collisions_cb k => force_collisions k g
  | turn_of_randomize_cb => turn_of_randomize g
  end.

(** Playing one element of a sequence to its end. *)
Definition play (x : Ival) (g : MyGame) : MyGame :=
  match x with
  | HprInterval pivot _ target => set_hpr (<[pivot := target]> (hpr g)) g
  | Wait _ => g
  | Func f => call f g
  end.

(** What the runtime delivers: a keystroke event; a collision "in" event of
    a side's handler whose into-node is that side (the pattern accepted in
    [create_side_colliders], bound to the side's [num]); the interval manager
    playing the next step of the [i]-th started sequence. *)
Inductive Input :=
| Keystroke (k : string)
| CollisionIn (s : Side) (c : Cube)
| Play (i : nat).

Definition step (e : Input) (g : MyGame) : MyGame :=
  match e with
  | Keystroke k =>
      if armed g then force_collisions k (set_armed false g) else g
  | CollisionIn s c => collide (num (mapping_sides s)) (mkEntry c s) g
  | Play i =>
      match intervals g !! i with
      | Some (x :: rest) => play x (set_intervals (<[i := rest]> (intervals g)) g)
      | _ => g
      end
  end.

Definition exec (evs : list Input) (g : MyGame) : MyGame :=
  foldl (fun g e => step e g) g evs.

(** [MyGame.__init__]: the state when the main loop starts.  The cubie
    population, its coordinates and the random tape come from outside. *)
Definition init (population : gset Cube) (pos0 : Cube -> Vec3)
  (tape : nat -> nat) : MyGame :=
  {| direction := -1; animate := true; randomizing := false;
     collided_cubes := ∅; cubes := population;
     parent := fun _ => CubeModel; pos := pos0;
     hpr := fun _ => mkVec3 0 0 0; tb_hpr := mkVec3 0 0 0;
     pressed_button := EmptyString; info_on_screen := EmptyString;
     heap := []; armed := true; intervals := [];
     rand_tape := tape; rand_pos := 0%nat; trace := [] |}.

(** ** Observers used by the statements *)

(** The side a key is bound to: the entry of [mapping_sides] whose key is
    the given one, in either case. *)
Definition side_of_key (k : string) : option Side :=
  List.find (fun s => key_in k [key (mapping_sides s);
                                upper (key (mapping_sides s))]) sides.

Definition is_rotate (c : Call) : bool :=
  match c with RotateSide _ => true | _ => false end.

Definition is_clear (c : Call) : bool :=
  match c with ClearCollided => true | _ => false end.

Definition is_tb_set (c : Call) : bool :=
  match c with TbSetHpr _ => true | _ => false end.

Definition count_calls (p : Call -> bool) (g : MyGame) : nat :=
  length (List.filter p (trace g)).

(** Number of entries into [rotate_side] so far. *)
Definition rotations (g : MyGame) : nat := count_calls is_rotate g.

(** Number of times [self.collided_cubes.clear()] ran so far. *)
Definition clears (g : MyGame) : nat := count_calls is_clear g.

(** Number of [setHpr] calls on the trackball, one per camera preset call. *)
Definition camera_calls (g : MyGame) : nat := count_calls is_tb_set g.

(** The sequence [rotate_side] starts for a side, given the flags it reads. *)
Definition rotation_seq (s : Side) (anim : bool) (dir : Z) (cubes_loc : nat)
  : list Ival :=
  (if anim
   then [HprInterval s 280 (vmul (rotation (mapping_sides s)) dir)]
   else [Func (rotate_without_anim_cb s s)])
  ++ [Func (reparent_cubes_cb s cubes_loc); Func (reset_cb cubes_loc)].

(** ** Predicates and states used by the statements and the invariant *)

(** The loop [for cube in self.cubes: cube.setFluidPos(...)], for a change
    [f] of the coordinates. *)
Definition perturb (f : Vec3 -> Vec3) (g : MyGame) : MyGame :=
  for_each (cubes g) (fun cube g => setFluidPos cube (f (pos g cube)) g) g.

(** The two coordinate changes of [force_collisions]. *)
Definition plus15 (p : Vec3) : Vec3 := mkVec3 (v0 p + 15) (v1 p + 15) (v2 p + 15).
Definition minus15 (p : Vec3) : Vec3 := mkVec3 (v0 p - 15) (v1 p - 15) (v2 p - 15).

(** The order of calls the specification describes for one attempt on side
    [s]: every cubie moved by the offset, a traversal, every cubie moved back
    to where it was, and then the traversal that counts. *)
Definition spec_attempt_calls (s : Side) (g : MyGame) : list Call :=
  map (fun c => SetFluidPos c (plus15 (pos g c))) (elements (cubes g))
  ++ [Traverse s]
  ++ map (fun c => SetFluidPos c (pos g c)) (elements (cubes g))
  ++ [Traverse s].

(** A game of two cubies, and a game of twenty-six; their random tape draws
    0 every time. *)
Definition two_cubes : MyGame :=
  init {[0%nat; 1%nat]} (fun _ => mkVec3 1 2 3) (fun _ => 0%nat).

(** The keys routed to [look_at_cube_side]. *)
Definition digit_keys : list string := ["1"; "2"; "3"; "4"; "5"; "6"; "7"].

Definition cube26 : MyGame :=
  init (list_to_set (seq 0 26)) (fun _ => mkVec3 0 0 0) (fun _ => 0%nat).

(** The re-parent-back step of a rotation. *)
Definition is_reparent (x : Ival) : bool :=
  match x with Func (reparent_cubes_cb _ _) => true | _ => false end.

(** A rotation is in flight: some started sequence still has its
    re-parent-back step to play. *)
Definition in_flight (g : MyGame) : bool :=
  existsb (existsb is_reparent) (intervals g).

(** Steps that occur in the sequences of [rotate_side]. *)
Definition rotation_step (x : Ival) : Prop :=
  match x with
  | HprInterval _ _ _ => True
  | Func (rotate_without_anim_cb _ _) => True
  | Func (reparent_cubes_cb _ _) => True
  | Func (reset_cb _) => True
  | _ => False
  end.

(** No shuffle sequence is among the started sequences. *)
Definition no_shuffle_running (g : MyGame) : Prop :=
  Forall (Forall rotation_step) (intervals g).

(** The input plays the [reset] step that ends a rotation. *)
Definition plays_reset (e : Input) (g : MyGame) : bool :=
  match e with
  | Play i =>
      match intervals g !! i with
      | Some (Func (reset_cb _) :: _) => true
      | _ => false
      end
  | _ => false
  end.

(** No input of the run plays a [reset] step. *)
Fixpoint no_reset_played (evs : list Input) (g : MyGame) : bool :=
  match evs with
  | [] => true
  | e :: evs' => negb (plays_reset e g) && no_reset_played evs' (step e g)
  end.

(** The run without its keystrokes. *)
Definition is_keystroke (e : Input) : bool :=
  match e with Keystroke _ => true | _ => false end.

Definition drop_keystrokes (evs : list Input) : list Input :=
  List.filter (fun e => negb (is_keystroke e)) evs.

(** The number of moves and the moves [randomize] draws in state [g]. *)
Definition shuffle_length (g : MyGame) : Z :=
  30 + Z.of_nat (rand_tape g (rand_pos g)) mod 31.

Definition shuffle_moves (g : MyGame) : list string :=
  map (fun i => nth (rand_tape g (S (rand_pos g) + i) mod 18)%nat
                    shuffle_keys EmptyString)
      (seq 0 (Z.to_nat (shuffle_length g))).

(** What a call of [force_traverse] or [force_collisions] can do to the
    scene graph, the heap and the started sequences: nothing, or start one
    shuffle sequence when none was running. *)
Definition shuffle_effect (g g' : MyGame) : Prop :=
  parent g' = parent g /\ heap g' = heap g /\
  ((intervals g' = intervals g /\ randomizing g' = randomizing g) \/
   (randomizing g = false /\ randomizing g' = true /\
    exists ks, intervals g' = intervals g ++ [random_seq_of ks])).

(** The step that turns the pivot, animated or not. *)
Definition turn_step (x : Ival) : Prop :=
  match x with
  | HprInterval _ _ _ => True
  | Func (rotate_without_anim_cb _ _) => True
  | _ => False
  end.

(** The steps of a shuffle sequence before its last one. *)
Definition plain_step (x : Ival) : Prop :=
  match x with
  | Wait _ => True
  | Func (turn_on_off_anmiate_cb _) => True
  | Func (force_collisions_cb _) => True
  | _ => False
  end.

(** What is left of a sequence started by [rotate_side], whose copy of the
    collision set lives at an address below [h]. *)
Definition rot_shape (h : nat) (q : list Ival) : Prop :=
  exists loc, (loc < h)%nat /\
    (q = [Func (reset_cb loc)] \/
     (exists p, q = [Func (reparent_cubes_cb p loc); Func (reset_cb loc)]) \/
     (exists x p, turn_step x /\
        q = [x; Func (reparent_cubes_cb p loc); Func (reset_cb loc)])).

(** What is left of a sequence started by [randomize], before its end. *)
Definition shuffle_shape (q : list Ival) : Prop :=
  exists pre, q = pre ++ [Func turn_of_randomize_cb] /\ Forall plain_step pre.

(** A started sequence is finished, or the rest of a rotation, or the rest
    of a shuffle. *)
Definition seq_ok (h : nat) (q : list Ival) : Prop :=
  q = [] \/ rot_shape h q \/ shuffle_shape q.

(** The last step of a shuffle sequence. *)
Definition is_turn_of_randomize (x : Ival) : bool :=
  match x with Func turn_of_randomize_cb => true | _ => false end.

(** A shuffle sequence that has not played its last step. *)
Definition is_shuffle_seq (q : list Ival) : bool := existsb is_turn_of_randomize q.

(** Number of shuffle sequences still running. *)
Definition shuffles_running (g : MyGame) : nat :=
  length (List.filter is_shuffle_seq (intervals g)).

(** The invariant: every started sequence is well shaped; no two of them
    end with the [reset] of the same copy; a cubie hanging under a pivot is
    in the copy of a re-parent-back step still to be played; and a shuffle
    sequence is running exactly when [randomizing] is set. *)
Record wf (g : MyGame) : Prop := mkWf {
  wf_shape : Forall (seq_ok (length (heap g))) (intervals g);
  wf_owner : forall i j qi qj loc,
      intervals g !! i = Some qi -> intervals g !! j = Some qj ->
      Func (reset_cb loc) ∈ qi -> Func (reset_cb loc) ∈ qj -> i = j;
  wf_pivot : forall c s,
      parent g c = Pivot s ->
      exists i q p loc,
        intervals g !! i = Some q /\
        Func (reparent_cubes_cb p loc) ∈ q /\ c ∈ deref loc g;
  wf_shuffle : shuffles_running g = if randomizing g then 1%nat else 0%nat
}.

(** The keys of the moves in a sequence. *)
Definition moves_of (q : list Ival) : list string :=
  flat_map (fun x => match x with Func (force_collisions_cb k) => [k] | _ => [] end) q.

(** Position of a key in a list (0 when absent). *)
Fixpoint index_of (k : string) (l : list string) : nat :=
  match l with
  | [] => 0
  | x :: l' => if String.eqb x k then 0 else S (index_of k l')
  end.

(** ** Observers for the rest of the code *)

(** [draw_3d_text]: the text of the label attached to a side (where the
    label is put and how it is drawn is rendering). *)
Definition label_text (s : Side) : string := upper (key (mapping_sides s)).

Definition is_traverse (c : Call) : bool :=
  match c with Traverse _ => true | _ => false end.

(** What a move changes: the scene graph of the cubies and pivots, the
    collision set and its copies, the started sequences and the two flags of
    the shuffle. *)
Definition cube_state (g : MyGame) :=
  (parent g, hpr g, collided_cubes g, heap g, intervals g, randomizing g,
   animate g).

(** Collision reports of any sides, as inputs of the machine. *)
Definition report_inputs (rs : list (Side * Cube)) : list Input :=
  map (fun r => CollisionIn (fst r) (snd r)) rs.

(** The cubies named by a list of reports. *)
Definition reported (rs : list (Side * Cube)) : gset Cube :=
  list_to_set (map snd rs).

(** Every started sequence has been played to its end. *)
Definition finished (g : MyGame) : Prop :=
  Forall (fun q => q = []) (intervals g).

(** Nothing is going on: the hook is armed, no shuffle is randomizing, the
    collision set is empty and every started sequence is finished. *)
Definition idle (g : MyGame) : Prop :=
  armed g = true /\ randomizing g = false /\ collided_cubes g = ∅ /\ finished g.

(** The [reset] step of a rotation. *)
Definition is_reset (x : Ival) : bool :=
  match x with Func (reset_cb _) => true | _ => false end.

(** Number of rotations started whose [reset] step is still to be played. *)
Definition pending_rotations (g : MyGame) : nat :=
  length (List.filter (existsb is_reset) (intervals g)).

(** The input plays a step of the [i]-th sequence. *)
Definition is_play (i : nat) (e : Input) : bool :=
  match e with Play j => Nat.eqb i j | _ => false end.

Definition count_plays (i : nat) (evs : list Input) : nat :=
  length (List.filter (is_play i) evs).

(** What is left of a shuffle sequence while some of its moves or waits
    are still to come: steps of the shuffle, then animation switched on
    again, then the end of the shuffle. *)
Definition shuffle_tail (rest : list Ival) : Prop :=
  exists pre,
    rest = pre ++ [Func (turn_on_off_anmiate_cb true); Func turn_of_randomize_cb]
    /\ Forall plain_step pre.

(** The shuffle at index [i] is running with [rest] still to play. *)
Definition shuffle_at (i : nat) (rest : list Ival) (g : MyGame) : Prop :=
  wf g /\ randomizing g = true /\ intervals g !! i = Some rest /\
  (shuffle_tail rest \/ (rest = [Func turn_of_randomize_cb] /\ animate g = true)).

(** A pivot at rest or a quarter turn away from it, either way. *)
Definition quarter_turn (s : Side) (v : Vec3) : Prop :=
  v = mkVec3 0 0 0 \/
  v = vmul (rotation (mapping_sides s)) 1 \/
  v = vmul (rotation (mapping_sides s)) (-1).

(** A step that turns a pivot turns it by its own side's quarter turn. *)
Definition turn_ok (x : Ival) : Prop :=
  match x with
  | HprInterval p _ t =>
      t = vmul (rotation (mapping_sides p)) 1 \/
      t = vmul (rotation (mapping_sides p)) (-1)
  | Func (rotate_without_anim_cb name p) => name = p
  | _ => True
  end.

Definition quarter_inv (g : MyGame) : Prop :=
  (direction g = 1 \/ direction g = -1) /\
  (forall s, quarter_turn s (hpr g s)) /\
  Forall (Forall turn_ok) (intervals g).

(** What the camera presets write: the trackball's angles and the
    information text. *)
Definition camera (g : MyGame) : Vec3 * string := (tb_hpr g, info_on_screen g).

(** A move of a started sequence presses one of the keys of the sides. *)
Definition move_ok (x : Ival) : Prop :=
  match x with
  | Func (force_collisions_cb k) => k ∈ shuffle_keys
  | _ => True
  end.

Definition moves_ok (g : MyGame) : Prop :=
  Forall (Forall move_ok) (intervals g).

(** The input [e] runs [force_collisions k] in state [g]: a keystroke the
    hook takes, or a move played from a shuffle sequence. *)
Definition attempts (e : Input) (k : string) (g : MyGame) : Prop :=
  (e = Keystroke k /\ armed g = true) \/
  (exists i rest,
     e = Play i /\
     intervals g !! i = Some (Func (force_collisions_cb k) :: rest)).

(** * Basic facts *)

(** [isupper] on keys a keystroke event can carry: letters of ASCII and
    beyond it, a titlecase letter, digits, signs, and the empty text. *)
Example isupper_samples :
  isupper "T" = true /\ isupper "t" = false /\ isupper "7" = false /\
  isupper " " = false /\ isupper EmptyString = false /\
  isupper "Ł" = true /\ isupper "ł" = false /\ isupper "ǅ" = false /\
  isupper "Ω" = true /\ isupper "Я" = true /\ isupper "€" = false /\
  isupper "TŁ" = true /\ isupper "Tł" = false.
Proof. repeat split; reflexivity. Qed.

(** An uppercase key outside ASCII is no side's key and sets the direction
    of an uppercase key. *)
Example non_ascii_uppercase_key :
  side_of_key "Ł" = None /\ direction (force_traverse "Ł" cube26) = -1.
Proof. split; reflexivity. Qed.

Lemma for_each_preserve {A} (proj : MyGame -> A) xs body g :
  (forall c g, proj (body c g) = proj g) ->
  proj (for_each xs body g) = proj g.
Proof.
  intros Hbody. unfold for_each. generalize (elements xs) as l.
  intros l. revert g. induction l as [|a l IH]; intros g; simpl; [done|].
  rewrite IH. apply Hbody.
Qed.

(** Rewrites a field read through a loop that does not touch the field. *)
Ltac loop_frame :=
  repeat match goal with
  | |- context [ ?proj (for_each ?xs ?body ?g) ] =>
      rewrite (for_each_preserve proj xs body g) by (intros; reflexivity)
  end.

Lemma count_calls_app p g l g' :
  trace g' = trace g ++ l ->
  count_calls p g' = (count_calls p g + length (List.filter p l))%nat.
Proof.
  intros H. unfold count_calls. rewrite H.
  by rewrite List.filter_app, length_app.
Qed.

(** The perturbation loop, for any coordinate change [f]. *)
Lemma shift_loop_spec (f : Vec3 -> Vec3) (l : list Cube) g :
  NoDup l ->
  let g' := foldl (fun g x => setFluidPos x (f (pos g x)) g) g l in
  trace g' = trace g ++ map (fun c => SetFluidPos c (f (pos g c))) l /\
  forall c, pos g' c = if bool_decide (c ∈ l) then f (pos g c) else pos g c.
Proof.
  intros Hnd. revert g. induction Hnd as [|a l Hnotin Hnd IH]; intros g.
  { cbn [foldl map]. split; [by rewrite app_nil_r|].
    intros c. case_bool_decide; [set_solver|done]. }
  specialize (IH (setFluidPos a (f (pos g a)) g)).
  cbn [foldl map]. cbn zeta in IH. destruct IH as [Htr Hpos]. split.
  - rewrite Htr. cbn [setFluidPos set_trace set_pos trace pos].
    rewrite <- app_assoc. cbn [app]. do 2 f_equal.
    apply map_ext_in. intros c Hc. rewrite fn_lookup_insert_ne; [done|].
    intros ->. apply Hnotin. by apply list_elem_of_In.
  - intros c. rewrite Hpos. cbn [setFluidPos set_trace set_pos trace pos].
    destruct (decide (c = a)) as [->|Hne].
    + rewrite fn_lookup_insert.
      rewrite (bool_decide_eq_false_2 (a ∈ l)) by done.
      by rewrite bool_decide_eq_true_2 by set_solver.
    + rewrite fn_lookup_insert_ne by done.
      destruct (decide (c ∈ l)).
      * by rewrite !bool_decide_eq_true_2 by set_solver.
      * by rewrite !bool_decide_eq_false_2 by set_solver.
Qed.

Lemma side_of_key_cases k s :
  side_of_key k = Some s ->
  k = key (mapping_sides s) \/ k = upper (key (mapping_sides s)).
Proof.
  intros H. apply List.find_some in H as [_ H].
  unfold key_in in H. apply bool_decide_eq_true in H.
  apply elem_of_cons in H as [H|H]; [by left|].
  apply elem_of_cons in H as [H|H]; [by right|].
  by apply elem_of_nil in H.
Qed.

Lemma side_of_key_lower s : side_of_key (key (mapping_sides s)) = Some s.
Proof. by destruct s. Qed.

Lemma side_of_key_upper s : side_of_key (upper (key (mapping_sides s))) = Some s.
Proof. by destruct s. Qed.

Lemma force_traverse_face k s g :
  side_of_key k = Some s ->
  force_traverse k g = traverse s (set_direction (if isupper k then -1 else 1) g).
Proof.
  intros H. destruct (side_of_key_cases _ _ H) as [-> | ->]; by destruct s.
Qed.

Lemma reparent_loop_spec (n : Node) (xs : gset Cube) g c :
  parent (for_each xs (fun x g => wrtReparentTo x n g) g) c
  = if bool_decide (c ∈ xs) then n else parent g c.
Proof.
  unfold for_each.
  assert (Hl : forall l g, parent (foldl (fun g x => wrtReparentTo x n g) g l) c
               = if bool_decide (c ∈ l) then n else parent g c).
  { clear g. intros l. induction l as [|a l IH] using rev_ind; intros g.
    - cbn [foldl]. case_bool_decide; [set_solver|done].
    - rewrite foldl_app. cbn [foldl wrtReparentTo set_parent parent].
      destruct (decide (c = a)) as [->|Hne].
      + rewrite fn_lookup_insert. clear IH. case_bool_decide; [done|set_solver].
      + rewrite fn_lookup_insert_ne by done. rewrite IH. clear IH.
        destruct (decide (c ∈ l)).
        * by rewrite !bool_decide_eq_true_2 by set_solver.
        * by rewrite !bool_decide_eq_false_2 by set_solver. }
  rewrite Hl. destruct (decide (c ∈ xs)).
  - by rewrite !bool_decide_eq_true_2 by set_solver.
  - by rewrite !bool_decide_eq_false_2 by set_solver.
Qed.

Section RotateSide.
Variables (e : CollisionEntry) (g : MyGame).

Lemma rotate_side_trace :
  trace (rotate_side e g) = trace g ++ [RotateSide (into_side e)].
Proof. unfold rotate_side, start. cbn. by loop_frame. Qed.

Lemma rotate_side_intervals :
  intervals (rotate_side e g)
  = intervals g ++ [rotation_seq (into_side e) (animate g) (direction g)
                      (length (heap g))].
Proof. unfold rotate_side, start. cbn. by loop_frame. Qed.

Lemma rotate_side_heap :
  heap (rotate_side e g) = heap g ++ [collided_cubes g].
Proof. unfold rotate_side, start. cbn. by loop_frame. Qed.

Lemma rotate_side_collided :
  collided_cubes (rotate_side e g) = collided_cubes g.
Proof. unfold rotate_side, start. cbn. by loop_frame. Qed.

Lemma rotate_side_flags :
  armed (rotate_side e g) = armed g /\
  randomizing (rotate_side e g) = randomizing g /\
  animate (rotate_side e g) = animate g /\
  direction (rotate_side e g) = direction g.
Proof. unfold rotate_side, start. cbn. by loop_frame. Qed.

Lemma rotate_side_hpr :
  hpr (rotate_side e g) = <[into_side e := mkVec3 0 0 0]> (hpr g).
Proof. unfold rotate_side, start. cbn. by loop_frame. Qed.

Lemma rotate_side_parent c :
  parent (rotate_side e g) c
  = if bool_decide (c ∈ collided_cubes g) then Pivot (into_side e)
    else parent g c.
Proof.
  unfold rotate_side, start. cbn [parent set_intervals].
  rewrite reparent_loop_spec. unfold deref. cbn.
  by rewrite list_lookup_middle.
Qed.
End RotateSide.

Lemma rotations_rotate_side e g : rotations (rotate_side e g) = S (rotations g).
Proof.
  unfold rotations. rewrite (count_calls_app _ g [RotateSide (into_side e)]).
  - simpl. lia.
  - apply rotate_side_trace.
Qed.

Lemma collide_unfold n e g :
  collide n e g
  = let g1 := set_collided_cubes ({[from_cube e]} ∪ collided_cubes g) g in
    if (n <=? size ({[from_cube e]} ∪ collided_cubes g))%nat
    then rotate_side e g1 else g1.
Proof. reflexivity. Qed.

(** * The face registry and the quorum test *)

(** C6.  The required member count is 9 for TOP, BOTTOM, LEFT, RIGHT, FRONT
    and BACK and 8 for the three centre slices; a collision report enters
    [rotate_side] exactly when, with the reported cubie added, the size of
    the collision set is at or above that count, and not when it is below. *)
Theorem quorum_counts_and_trigger :
  (forall s, s ∈ [TOP_SIDE; BOTTOM_SIDE; LEFT_SIDE; RIGHT_SIDE; FRONT_SIDE;
                  BACK_SIDE] -> num (mapping_sides s) = 9%nat) /\
  (forall s, s ∈ [CENTER_VERTICAL_SIDE; CENTER_HORIZONTAL_SIDE;
                  CENTER_DOUBLE_SIDE] -> num (mapping_sides s) = 8%nat) /\
  (forall g s c,
     let g' := step (CollisionIn s c) g in
     collided_cubes g' = {[c]} ∪ collided_cubes g /\
     ((num (mapping_sides s) <= size (collided_cubes g'))%nat ->
        rotations g' = S (rotations g)) /\
     ((size (collided_cubes g') < num (mapping_sides s))%nat ->
        rotations g' = rotations g /\ intervals g' = intervals g)).
Proof.
  split; [|split].
  - intros s Hs. repeat (apply elem_of_cons in Hs as [->|Hs]; [done|]).
    by apply elem_of_nil in Hs.
  - intros s Hs. repeat (apply elem_of_cons in Hs as [->|Hs]; [done|]).
    by apply elem_of_nil in Hs.
  - intros g s c g'. subst g'. cbn [step]. rewrite collide_unfold.
    cbv zeta. cbn [from_cube].
    destruct (Nat.leb_spec (num (mapping_sides s))
                (size ({[c]} ∪ collided_cubes g))) as [Hge|Hlt].
    + rewrite rotate_side_collided, rotations_rotate_side.
      cbn [collided_cubes set_collided_cubes]. split; [done|].
      split; [done|]. intros Hlt. lia.
    + cbn [collided_cubes set_collided_cubes]. split; [done|].
      split; [intros Hge; lia|done].
Qed.

(** * The collision set *)

Lemma reset_collided loc g : collided_cubes (reset loc g) = ∅.
Proof. unfold reset. cbn. by destruct (randomizing g). Qed.

Lemma num_ge_8 s : (8 <= num (mapping_sides s))%nat.
Proof. destruct s; cbn; lia. Qed.

(** C9.  There is one collision set for all nine faces: a report for any
    face adds its cubie to it, reports for different faces accumulate in it,
    each face's quorum test reads the size of this set, and the clear in
    [reset] empties it for every face at once (after it a single report
    reaches no face's quorum). *)
Theorem collision_set_is_shared :
  (forall g s c,
     collided_cubes (step (CollisionIn s c) g) = {[c]} ∪ collided_cubes g) /\
  (forall g s s' c c',
     collided_cubes (exec [CollisionIn s c; CollisionIn s' c'] g)
     = {[c']} ∪ ({[c]} ∪ collided_cubes g)) /\
  (forall g s c,
     rotations (step (CollisionIn s c) g)
     = if (num (mapping_sides s) <=? size ({[c]} ∪ collided_cubes g))%nat
       then S (rotations g) else rotations g) /\
  (forall g loc, collided_cubes (reset loc g) = ∅) /\
  (forall g loc s c,
     rotations (step (CollisionIn s c) (reset loc g)) = rotations (reset loc g)).
Proof.
  assert (Hadd : forall g s c,
    collided_cubes (step (CollisionIn s c) g) = {[c]} ∪ collided_cubes g).
  { intros g s c. cbn [step]. rewrite collide_unfold. cbv zeta.
    destruct (_ <=? _)%nat; [rewrite rotate_side_collided|]; done. }
  assert (Hrot : forall g s c,
    rotations (step (CollisionIn s c) g)
    = if (num (mapping_sides s) <=? size ({[c]} ∪ collided_cubes g))%nat
      then S (rotations g) else rotations g).
  { intros g s c. cbn [step]. rewrite collide_unfold. cbv zeta.
    cbn [from_cube]. destruct (_ <=? _)%nat; [|done].
    by rewrite rotations_rotate_side. }
  split; [exact Hadd|]. split; [|split; [exact Hrot|split]].
  - intros g s s' c c'. cbn [exec foldl]. by rewrite !Hadd.
  - intros g loc. apply reset_collided.
  - intros g loc s c. rewrite Hrot, reset_collided.
    rewrite union_empty_r_L, size_singleton.
    pose proof (num_ge_8 s) as Hn.
    destruct (Nat.leb_spec (num (mapping_sides s)) 1); [lia|done].
Qed.

(** Eight cubies reported for TOP and a ninth reported for LEFT: the ninth
    report rotates LEFT's pivot, with all nine cubies hung under it. *)
Example cross_face_quorum :
  let g := exec (map (CollisionIn TOP_SIDE) (seq 0 8) ++ [CollisionIn LEFT_SIDE 8%nat])
             (init (list_to_set (seq 0 26)) (fun _ => mkVec3 0 0 0) (fun _ => 0%nat)) in
  List.filter is_rotate (trace g) = [RotateSide LEFT_SIDE] /\
  map (parent g) (seq 0 10)
  = replicate 9 (Pivot LEFT_SIDE) ++ [CubeModel].
Proof. vm_compute. done. Qed.

(** * The perturbation in [force_collisions] *)

Lemma force_collisions_unfold k g :
  force_collisions k g
  = print_key_on_screen k
      (perturb minus15 (force_traverse k (perturb plus15 (force_traverse k g)))).
Proof. reflexivity. Qed.

Lemma perturb_trace f g :
  trace (perturb f g)
  = trace g ++ map (fun c => SetFluidPos c (f (pos g c))) (elements (cubes g)).
Proof.
  unfold perturb, for_each.
  by destruct (shift_loop_spec f (elements (cubes g)) g (NoDup_elements _)).
Qed.

Lemma perturb_pos f g c :
  pos (perturb f g) c = if bool_decide (c ∈ cubes g) then f (pos g c) else pos g c.
Proof.
  unfold perturb, for_each.
  destruct (shift_loop_spec f (elements (cubes g)) g (NoDup_elements _)) as [_ H].
  rewrite H. destruct (decide (c ∈ cubes g)).
  - by rewrite !bool_decide_eq_true_2 by set_solver.
  - by rewrite !bool_decide_eq_false_2 by set_solver.
Qed.

Lemma perturb_preserve {A} (proj : MyGame -> A) f g :
  (forall c p g, proj (setFluidPos c p g) = proj g) ->
  proj (perturb f g) = proj g.
Proof. intros H. unfold perturb. apply for_each_preserve. intros. apply H. Qed.

Ltac perturb_frame :=
  repeat match goal with
  | |- context [ ?proj (perturb ?f ?g) ] =>
      rewrite (perturb_preserve proj f g) by (intros; reflexivity)
  end.

Lemma count_calls_perturb p f g :
  (forall c v, p (SetFluidPos c v) = false) ->
  count_calls p (perturb f g) = count_calls p g.
Proof.
  intros Hp. rewrite (count_calls_app p g _ _ (perturb_trace f g)).
  assert (List.filter p (map (fun c => SetFluidPos c (f (pos g c)))
                          (elements (cubes g))) = []) as ->; [|simpl; lia].
  induction (elements (cubes g)) as [|a l IH]; [done|].
  cbn [map List.filter]. by rewrite Hp.
Qed.

Lemma print_key_on_screen_frame {A} (proj : MyGame -> A) k g :
  (forall v g, proj (set_pressed_button v g) = proj g) ->
  proj (print_key_on_screen k g) = proj g.
Proof. intros H. unfold print_key_on_screen. by destruct (str_in _ _). Qed.

(** Reads a field through [force_collisions] once the two [force_traverse]
    calls have been rewritten. *)
Ltac fc_frame :=
  repeat first
    [ match goal with
      | |- context [ ?proj (print_key_on_screen ?k ?g) ] =>
          rewrite (print_key_on_screen_frame proj k g) by (intros; reflexivity)
      end
    | progress perturb_frame
    | progress cbn [traverse accept_once set_trace set_direction set_armed
                    set_collided_cubes
                    direction animate randomizing collided_cubes cubes parent
                    pos hpr tb_hpr pressed_button info_on_screen heap armed
                    intervals rand_tape rand_pos trace] ].

Lemma force_collisions_face k s g :
  side_of_key k = Some s ->
  force_collisions k g
  = let d := if isupper k then -1 else 1 in
    print_key_on_screen k
      (perturb minus15 (traverse s (set_direction d
         (perturb plus15 (traverse s (set_direction d g)))))).
Proof.
  intros H. rewrite force_collisions_unfold. by rewrite !(force_traverse_face k s).
Qed.

(** C2, as the code has it.  For a key bound to side [s], [force_collisions]
    first runs the side's traversal with the cubies where they are, then
    moves every cubie by +15 on the three axes, runs the same traversal
    again, and last moves every cubie by -15 on the three axes; no traversal
    follows the move back. *)
Theorem attempt_call_order g k s :
  side_of_key k = Some s ->
  trace (force_collisions k g)
  = trace g
    ++ [Traverse s]
    ++ map (fun c => SetFluidPos c (plus15 (pos g c))) (elements (cubes g))
    ++ [Traverse s]
    ++ map (fun c => SetFluidPos c (minus15 (plus15 (pos g c))))
         (elements (cubes g)).
Proof.
  intros Hk. rewrite (force_collisions_face k s g Hk). cbv zeta.
  set (d := if isupper k then -1 else 1).
  rewrite (print_key_on_screen_frame trace) by (intros; reflexivity).
  rewrite perturb_trace. cbn [traverse set_trace trace cubes pos set_direction].
  rewrite perturb_trace. perturb_frame.
  cbn [traverse set_trace trace cubes pos set_direction].
  rewrite <- !app_assoc. do 4 f_equal.
  apply map_ext_in. intros c Hc. f_equal. f_equal.
  rewrite perturb_pos. cbn [traverse set_trace trace cubes pos set_direction].
  rewrite bool_decide_eq_true_2; [done|].
  apply elem_of_elements. by apply list_elem_of_In.
Qed.

Lemma attempt_call_order_witness :
  trace (force_collisions "t" two_cubes)
  = [Traverse TOP_SIDE;
     SetFluidPos 1%nat (mkVec3 16 17 18); SetFluidPos 0%nat (mkVec3 16 17 18);
     Traverse TOP_SIDE;
     SetFluidPos 1%nat (mkVec3 1 2 3); SetFluidPos 0%nat (mkVec3 1 2 3)].
Proof. apply (attempt_call_order two_cubes "t" TOP_SIDE). reflexivity. Defined.

(** C2, as the specification words it, fails: with two cubies the calls of an
    attempt on the top side are not in the order move, traverse, move back,
    traverse. *)
Lemma spec_attempt_order_fails :
  trace (force_collisions "t" two_cubes)
  <> trace two_cubes ++ spec_attempt_calls TOP_SIDE two_cubes.
Proof. vm_compute. discriminate. Qed.

(** * Camera presets *)

Lemma digit_cases k :
  key_in k digit_keys = true ->
  k = "1" \/ k = "2" \/ k = "3" \/ k = "4" \/ k = "5" \/ k = "6" \/ k = "7".
Proof.
  unfold key_in, digit_keys. intros H. apply bool_decide_eq_true in H.
  repeat (apply elem_of_cons in H as [->|H]; [tauto|]).
  by apply elem_of_nil in H.
Qed.

Lemma force_traverse_digit k g :
  key_in k digit_keys = true ->
  force_traverse k g = accept_once (look_at_cube_side k (set_direction 1 g)).
Proof.
  intros H. destruct (digit_cases k H) as [->|[->|[->|[->|[->|[->| ->]]]]]];
    reflexivity.
Qed.

Lemma look_at_cube_side_trace k g :
  trace (look_at_cube_side k g) = trace g ++ [TbSetHpr (tb_hpr (look_at_cube_side k g))].
Proof.
  unfold look_at_cube_side.
  repeat match goal with |- context [String.eqb ?a ?b] => destruct (String.eqb a b) end;
    reflexivity.
Qed.

Lemma camera_calls_force_traverse_digit k g :
  key_in k digit_keys = true ->
  camera_calls (force_traverse k g) = S (camera_calls g).
Proof.
  intros H. rewrite (force_traverse_digit k g H). unfold camera_calls.
  rewrite (count_calls_app is_tb_set g
             [TbSetHpr (tb_hpr (look_at_cube_side k (set_direction 1 g)))]).
  - cbn. lia.
  - apply (look_at_cube_side_trace k (set_direction 1 g)).
Qed.

(** The absolute presets do not read the camera. *)
Lemma absolute_preset k g1 g2 :
  key_in k digit_keys = true -> k <> "7" ->
  tb_hpr (look_at_cube_side k g1) = tb_hpr (look_at_cube_side k g2).
Proof.
  intros H Hne.
  destruct (digit_cases k H) as [->|[->|[->|[->|[->|[->| ->]]]]]];
    done.
Qed.

Lemma relative_preset g :
  tb_hpr (look_at_cube_side "7" g)
  = mkVec3 (v0 (tb_hpr g)) (v1 (tb_hpr g)) (v2 (tb_hpr g) - 90).
Proof. reflexivity. Qed.

Lemma look_at_cube_side_reads_camera k g1 g2 :
  tb_hpr g1 = tb_hpr g2 ->
  tb_hpr (look_at_cube_side k g1) = tb_hpr (look_at_cube_side k g2).
Proof.
  intros H. unfold look_at_cube_side.
  repeat match goal with |- context [String.eqb ?a ?b] => destruct (String.eqb a b) end;
    cbn; congruence.
Qed.

Lemma tb_hpr_force_traverse_digit k g :
  key_in k digit_keys = true ->
  tb_hpr (force_traverse k g) = tb_hpr (look_at_cube_side k g).
Proof.
  intros H. rewrite (force_traverse_digit k g H).
  cbn [accept_once set_armed tb_hpr]. by apply look_at_cube_side_reads_camera.
Qed.

Lemma tb_hpr_force_collisions_digit k g :
  key_in k digit_keys = true ->
  tb_hpr (force_collisions k g)
  = tb_hpr (look_at_cube_side k (look_at_cube_side k g)).
Proof.
  intros H. rewrite force_collisions_unfold.
  rewrite (print_key_on_screen_frame tb_hpr) by (intros; reflexivity).
  perturb_frame. rewrite (tb_hpr_force_traverse_digit k _ H).
  apply look_at_cube_side_reads_camera. perturb_frame.
  by apply tb_hpr_force_traverse_digit.
Qed.

Lemma camera_calls_force_collisions_digit k g :
  key_in k digit_keys = true ->
  camera_calls (force_collisions k g) = (camera_calls g + 2)%nat.
Proof.
  intros Hk. rewrite force_collisions_unfold. unfold camera_calls at 1.
  rewrite (print_key_on_screen_frame (count_calls is_tb_set))
    by (intros; reflexivity).
  rewrite count_calls_perturb by (intros; reflexivity).
  fold (camera_calls (force_traverse k (perturb plus15 (force_traverse k g)))).
  rewrite (camera_calls_force_traverse_digit k _ Hk).
  unfold camera_calls at 1.
  rewrite count_calls_perturb by (intros; reflexivity).
  fold (camera_calls (force_traverse k g)).
  rewrite (camera_calls_force_traverse_digit k _ Hk). lia.
Qed.

(** C10.  A digit keystroke '1'..'7' taken by the keystroke hook calls the
    camera preset handler twice, once from each [force_traverse] of
    [force_collisions].  For '1'..'6' the camera ends where one call puts
    it; for '7' the roll is lowered by 90 twice, by 180 in all. *)
Theorem digit_keystroke_presets_twice g k :
  armed g = true ->
  key_in k digit_keys = true ->
  let g' := step (Keystroke k) g in
  camera_calls g' = (camera_calls g + 2)%nat /\
  (k <> "7" -> tb_hpr g' = tb_hpr (look_at_cube_side k g)) /\
  (k = "7" ->
     tb_hpr g' = mkVec3 (v0 (tb_hpr g)) (v1 (tb_hpr g)) (v2 (tb_hpr g) - 180)).
Proof.
  intros Harmed Hk g'. subst g'. cbn [step]. rewrite Harmed.
  rewrite (camera_calls_force_collisions_digit k _ Hk).
  rewrite (tb_hpr_force_collisions_digit k _ Hk).
  split; [done|split].
  - intros Hne. rewrite (absolute_preset k _ g Hk Hne).
    by apply look_at_cube_side_reads_camera.
  - intros Hk7. rewrite Hk7, !relative_preset.
    cbn [v0 v1 v2 set_armed tb_hpr]. f_equal. lia.
Qed.

Lemma digit_keystroke_presets_twice_witness :
  let g := two_cubes in
  let g' := step (Keystroke "7") g in
  camera_calls g' = (camera_calls g + 2)%nat /\
  ("7" <> "7" -> tb_hpr g' = tb_hpr (look_at_cube_side "7" g)) /\
  ("7" = "7" ->
     tb_hpr g' = mkVec3 (v0 (tb_hpr g)) (v1 (tb_hpr g)) (v2 (tb_hpr g) - 180)).
Proof. apply (digit_keystroke_presets_twice two_cubes "7"); reflexivity. Defined.

(** * Steps of the event machine *)

Lemma step_keystroke_armed k g :
  armed g = true -> step (Keystroke k) g = force_collisions k (set_armed false g).
Proof. intros H. cbn [step]. by rewrite H. Qed.

Lemma step_keystroke_dropped k g :
  armed g = false -> step (Keystroke k) g = g.
Proof. intros H. cbn [step]. by rewrite H. Qed.

Lemma step_collision_quorum s c g :
  (num (mapping_sides s) <= size ({[c]} ∪ collided_cubes g))%nat ->
  step (CollisionIn s c) g
  = rotate_side (mkEntry c s) (set_collided_cubes ({[c]} ∪ collided_cubes g) g).
Proof.
  intros H. cbn [step]. rewrite collide_unfold. cbv zeta. cbn [from_cube].
  by rewrite (proj2 (Nat.leb_le _ _) H).
Qed.

Lemma step_collision_below s c g :
  (size ({[c]} ∪ collided_cubes g) < num (mapping_sides s))%nat ->
  step (CollisionIn s c) g = set_collided_cubes ({[c]} ∪ collided_cubes g) g.
Proof.
  intros H. cbn [step]. rewrite collide_unfold. cbv zeta. cbn [from_cube].
  by rewrite (proj2 (Nat.leb_gt _ _) H).
Qed.

Lemma step_play i x rest g :
  intervals g !! i = Some (x :: rest) ->
  step (Play i) g = play x (set_intervals (<[i := rest]> (intervals g)) g).
Proof. intros H. cbn [step]. by rewrite H. Qed.

Lemma isupper_key s :
  isupper (key (mapping_sides s)) = false /\
  isupper (upper (key (mapping_sides s))) = true.
Proof. by destruct s. Qed.

(** What an accepted keystroke of a side leaves for the rotation to read. *)
Lemma force_collisions_face_fields k s g :
  side_of_key k = Some s ->
  let g' := force_collisions k g in
  direction g' = (if isupper k then -1 else 1) /\
  animate g' = animate g /\ randomizing g' = randomizing g /\
  collided_cubes g' = collided_cubes g /\ armed g' = armed g /\
  intervals g' = intervals g /\ heap g' = heap g /\ hpr g' = hpr g /\
  parent g' = parent g.
Proof.
  intros Hk g'. subst g'. rewrite (force_collisions_face k s g Hk). cbv zeta.
  repeat split; by fc_frame.
Qed.

Lemma exec_app evs1 evs2 g : exec (evs1 ++ evs2) g = exec evs2 (exec evs1 g).
Proof. unfold exec. apply foldl_app. Qed.

Lemma exec_cons e evs g : exec (e :: evs) g = exec evs (step e g).
Proof. reflexivity. Qed.

(** Reports that stay below the quorum only accumulate. *)
Lemma exec_reports_below s rs g :
  (size (list_to_set rs ∪ collided_cubes g) < num (mapping_sides s))%nat ->
  exec (map (CollisionIn s) rs) g
  = set_collided_cubes (list_to_set rs ∪ collided_cubes g) g.
Proof.
  revert g. induction rs as [|c rs IH]; intros g Hlt.
  - cbn [map exec foldl list_to_set]. rewrite union_empty_l_L. by destruct g.
  - cbn [map]. rewrite exec_cons.
    assert (Hc : (size ({[c]} ∪ collided_cubes g) < num (mapping_sides s))%nat).
    { eapply Nat.le_lt_trans; [|exact Hlt]. apply subseteq_size.
      cbn [list_to_set]. set_solver. }
    rewrite (step_collision_below s c g Hc).
    assert (Heq : list_to_set rs ∪ ({[c]} ∪ collided_cubes g)
                  = list_to_set (c :: rs) ∪ collided_cubes g).
    { cbn [list_to_set]. set_solver. }
    rewrite IH; cbn [set_collided_cubes collided_cubes]; rewrite Heq; [done|].
    exact Hlt.
Qed.

(** Playing the three steps of a rotation sequence. *)
Lemma play_rotation_seq g i s a d loc :
  intervals g !! i = Some (rotation_seq s a d loc) ->
  let g' := exec [Play i; Play i; Play i] g in
  trace g' = trace g ++ [ClearCollided] /\
  collided_cubes g' = ∅ /\
  intervals g' = <[i := []]> (intervals g) /\
  (forall c, c ∈ deref loc g -> parent g' c = CubeModel) /\
  armed g' = (if randomizing g then armed g else true) /\
  hpr g' s = vmul (rotation (mapping_sides s)) (if a then d else direction g).
Proof.
  intros Hi g'. subst g'.
  pose proof (lookup_lt_Some _ _ _ Hi) as Hlen.
  set (rest := [Func (reparent_cubes_cb s loc); Func (reset_cb loc)]).
  assert (exists x, rotation_seq s a d loc = x :: rest /\
            forall g0, trace (play x g0) = trace g0 /\
                       collided_cubes (play x g0) = collided_cubes g0 /\
                       intervals (play x g0) = intervals g0 /\
                       heap (play x g0) = heap g0 /\
                       armed (play x g0) = armed g0 /\
                       randomizing (play x g0) = randomizing g0 /\
                       hpr (play x g0) s
                       = vmul (rotation (mapping_sides s))
                           (if a then d else direction g0))
    as (x & Hseq & Hx).
  { unfold rotation_seq. destruct a; eexists; (split; [reflexivity|]);
      intros g0; cbn [play call rotate_without_anim set_hpr trace
                      collided_cubes intervals heap armed randomizing hpr];
      by rewrite fn_lookup_insert. }
  rewrite Hseq in Hi. rewrite !exec_cons. cbn [exec foldl].
  rewrite (step_play i x rest g Hi).
  set (g1 := play x (set_intervals (<[i:=rest]> (intervals g)) g)).
  destruct (Hx (set_intervals (<[i:=rest]> (intervals g)) g))
    as (Htr1 & Hcol1 & Hint1 & Hheap1 & Harm1 & Hrnd1 & Hhpr1).
  fold g1 in Htr1, Hcol1, Hint1, Hheap1, Harm1, Hrnd1, Hhpr1.
  cbn [set_intervals trace collided_cubes intervals heap armed randomizing
       direction] in Htr1, Hcol1, Hint1, Hheap1, Harm1, Hrnd1, Hhpr1.
  assert (Hi1 : intervals g1 !! i
                = Some [Func (reparent_cubes_cb s loc); Func (reset_cb loc)]).
  { rewrite Hint1. by apply list_lookup_insert_eq. }
  rewrite (step_play i _ _ g1 Hi1).
  cbn [play call]. unfold reparent_cubes.
  set (g1' := set_intervals (<[i:=[Func (reset_cb loc)]]> (intervals g1)) g1).
  set (g2 := for_each (deref loc g1') _ g1').
  assert (Hi2 : intervals g2 !! i = Some [Func (reset_cb loc)]).
  { subst g2. loop_frame. subst g1'. cbn [set_intervals intervals].
    apply list_lookup_insert_eq. by rewrite Hint1, length_insert. }
  rewrite (step_play i _ _ g2 Hi2). cbn [play call]. unfold reset.
  assert (Hrnd2 : randomizing g2 = randomizing g).
  { subst g2. loop_frame. subst g1'. by cbn. }
  cbn [set_heap set_intervals set_trace set_collided_cubes randomizing].
  rewrite Hrnd2.
  assert (Hpar : forall c, c ∈ deref loc g -> parent g2 c = CubeModel).
  { intros c Hc. subst g2. rewrite reparent_loop_spec.
    rewrite bool_decide_eq_true_2; [done|].
    subst g1'. unfold deref in *. cbn [set_intervals heap]. by rewrite Hheap1. }
  assert (Hint2 : intervals g2 = <[i:=[Func (reset_cb loc)]]> (<[i:=rest]> (intervals g))).
  { subst g2. loop_frame. subst g1'. cbn [set_intervals intervals]. by rewrite Hint1. }
  assert (Htr2 : trace g2 = trace g).
  { subst g2. loop_frame. subst g1'. by cbn. }
  assert (Harm2 : armed g2 = armed g).
  { subst g2. loop_frame. subst g1'. by cbn. }
  assert (Hhpr2 : hpr g2 = hpr g1).
  { subst g2. loop_frame. subst g1'. by cbn. }
  destruct (randomizing g);
    cbn [accept_once set_armed set_heap set_intervals set_trace
         set_collided_cubes trace collided_cubes intervals parent armed hpr];
    rewrite Hint2, Htr2, Hhpr2, Hhpr1, ?Harm2, !list_insert_insert_eq;
    repeat split; done.
Qed.

Lemma count_calls_traverse p s g :
  p (Traverse s) = false -> count_calls p (traverse s g) = count_calls p g.
Proof.
  intros Ht. rewrite (count_calls_app p g [Traverse s]) by done.
  cbn [List.filter]. rewrite Ht. cbn. lia.
Qed.

Lemma count_calls_force_collisions_face p k s g :
  side_of_key k = Some s ->
  p (Traverse s) = false ->
  (forall c v, p (SetFluidPos c v) = false) ->
  count_calls p (force_collisions k g) = count_calls p g.
Proof.
  intros Hk Ht Hm. rewrite (force_collisions_face k s g Hk). cbv zeta.
  rewrite (print_key_on_screen_frame (count_calls p)) by (intros; reflexivity).
  rewrite count_calls_perturb, count_calls_traverse by done.
  change (count_calls p (set_direction ?d ?x)) with (count_calls p x).
  by rewrite count_calls_perturb, count_calls_traverse by done.
Qed.

Lemma clears_rotate_side e g : clears (rotate_side e g) = clears g.
Proof.
  unfold clears. rewrite (count_calls_app _ g [RotateSide (into_side e)]).
  - cbn. lia.
  - apply rotate_side_trace.
Qed.

(** After the report that reaches the quorum of side [s] from an empty set:
    the state the rest of the attempt starts from. *)
Lemma exec_reports_exact s rs g :
  collided_cubes g = ∅ -> NoDup rs -> length rs = num (mapping_sides s) ->
  exists c G,
    exec (map (CollisionIn s) rs) g = rotate_side (mkEntry c s) G /\
    trace G = trace g /\ intervals G = intervals g /\
    size (collided_cubes G) = num (mapping_sides s).
Proof.
  intros Hempty Hnd Hlen.
  destruct rs as [|c0 rs0] using rev_ind.
  { pose proof (num_ge_8 s). cbn in Hlen. lia. }
  clear IHrs0. rename rs0 into rs', c0 into c.
  apply list.NoDup_app in Hnd as (Hnd' & Hnotin & _).
  rewrite length_app in Hlen. cbn in Hlen.
  assert (Hsz : size (list_to_set rs' : gset Cube) = length rs')
    by (by apply size_list_to_set).
  rewrite map_app, exec_app.
  assert (Hbelow : exec (map (CollisionIn s) rs') g
                   = set_collided_cubes (list_to_set rs') g).
  { rewrite exec_reports_below; rewrite Hempty, union_empty_r_L; [done|lia]. }
  rewrite Hbelow. cbn [map exec foldl].
  assert (Hnew : size ({[c]} ∪ (list_to_set rs' : gset Cube))
                 = num (mapping_sides s)).
  { rewrite size_union, size_singleton; [lia|].
    apply disjoint_singleton_l. rewrite elem_of_list_to_set.
    intros Hin. apply (Hnotin c Hin). set_solver. }
  rewrite step_collision_quorum;
    cbn [set_collided_cubes collided_cubes]; [|lia].
  eexists c, _. split; [reflexivity|]. cbn. by rewrite Hnew.
Qed.

(** * One rotation per quorum *)

(** C1, as the specification words it, fails: after the ninth report for
    the top side has started the rotation, a tenth report starts a second one
    before any clear. *)
Lemma tenth_report_rotates_again :
  let g := exec (Keystroke "t" :: map (CollisionIn TOP_SIDE) (seq 0 10)) cube26 in
  clears g = 0%nat /\ rotations g = 2%nat /\ rotations g <> 1%nat.
Proof. vm_compute. repeat split; lia. Qed.

(** * Attempts that do not reach the quorum *)

(** C4, as the code has it.  An attempt with a key of a side whose reports
    keep the collision set below the side's quorum starts no rotation and
    keeps the reported cubies in the set; the keystroke hook is not put back
    ([force_traverse] re-arms it only when no traverser was activated), so
    every later keystroke is dropped. *)
Theorem below_quorum_stays_disarmed g k s rs :
  armed g = true ->
  side_of_key k = Some s ->
  (size (list_to_set rs ∪ collided_cubes g) < num (mapping_sides s))%nat ->
  let g' := exec (Keystroke k :: map (CollisionIn s) rs) g in
  rotations g' = rotations g /\
  intervals g' = intervals g /\
  collided_cubes g' = list_to_set rs ∪ collided_cubes g /\
  armed g' = false /\
  (forall k', step (Keystroke k') g' = g').
Proof.
  intros Harmed Hk Hlt g'. subst g'.
  rewrite exec_cons, (step_keystroke_armed k g Harmed).
  set (g0 := force_collisions k (set_armed false g)).
  destruct (force_collisions_face_fields k s (set_armed false g) Hk)
    as (_ & _ & _ & Hcol0 & Harm0 & Hint0 & _).
  fold g0 in Hcol0, Harm0, Hint0.
  cbn [set_armed collided_cubes intervals armed] in Hcol0, Harm0, Hint0.
  assert (Hrot0 : rotations g0 = rotations g).
  { unfold rotations. subst g0.
    by rewrite (count_calls_force_collisions_face _ k s). }
  rewrite exec_reports_below by (by rewrite Hcol0).
  rewrite Hcol0.
  assert (Hdis : armed (set_collided_cubes (list_to_set rs ∪ collided_cubes g) g0)
                 = false) by done.
  repeat split; try done.
  intros k'. by apply step_keystroke_dropped.
Qed.

Lemma below_quorum_stays_disarmed_witness :
  let g' := exec (Keystroke "t" :: map (CollisionIn TOP_SIDE) [0; 1; 2]%nat) cube26 in
  rotations g' = rotations cube26 /\
  intervals g' = intervals cube26 /\
  collided_cubes g' = list_to_set [0; 1; 2]%nat ∪ collided_cubes cube26 /\
  armed g' = false /\
  (forall k', step (Keystroke k') g' = g').
Proof.
  apply (below_quorum_stays_disarmed cube26 "t" TOP_SIDE [0; 1; 2]%nat).
  - reflexivity.
  - reflexivity.
  - vm_compute. lia.
Defined.

(** C4, as the specification words it, fails: three of nine reports for the
    top side start no rotation, and the keystroke hook is not armed
    afterwards. *)
Lemma below_quorum_not_rearmed :
  let g' := exec (Keystroke "t" :: map (CollisionIn TOP_SIDE) [0; 1; 2]%nat) cube26 in
  rotations g' = 0%nat /\ armed g' <> true /\
  trace (step (Keystroke "d") g') = trace g'.
Proof. vm_compute. repeat split; done. Qed.

(** * Keystrokes while a rotation is in flight *)

Lemma rotation_seq_steps s a d loc : Forall rotation_step (rotation_seq s a d loc).
Proof. unfold rotation_seq. destruct a; repeat constructor. Qed.

Lemma step_keeps_disarmed e g :
  armed g = false -> no_shuffle_running g -> plays_reset e g = false ->
  armed (step e g) = false /\ no_shuffle_running (step e g).
Proof.
  intros Harm Hrot Hnr. destruct e as [k|s c|i].
  - by rewrite (step_keystroke_dropped k g Harm).
  - cbn [step]. rewrite collide_unfold. cbv zeta. destruct (_ <=? _)%nat.
    + destruct (rotate_side_flags (mkEntry c s)
                  (set_collided_cubes ({[from_cube (mkEntry c s)]} ∪ collided_cubes g) g))
        as (-> & _). split; [done|].
      unfold no_shuffle_running. rewrite rotate_side_intervals.
      apply Forall_app. split; [exact Hrot|].
      constructor; [apply rotation_seq_steps|constructor].
    + done.
  - cbn [step plays_reset] in *.
    destruct (intervals g !! i) as [[|x rest]|] eqn:Hi; [done| |done].
    assert (Hq : Forall rotation_step (x :: rest)).
    { unfold no_shuffle_running in Hrot. rewrite Forall_lookup in Hrot. by eapply Hrot. }
    inversion Hq as [|? ? Hx Hrest]; subst.
    assert (Hins : Forall (Forall rotation_step) (<[i:=rest]> (intervals g))).
    { apply Forall_insert; done. }
    destruct x as [p ms tgt| |[name p|p loc|loc| | |]]; try done.
    + cbn [play call]. unfold reparent_cubes, no_shuffle_running. by loop_frame.
Qed.

(** Manual play.  While no shuffle sequence is running, a keystroke of a
    side that the hook takes disarms the hook, and it stays disarmed until
    the [reset] step that ends a rotation (played after the re-parent-back
    step): every keystroke in between is dropped and kept nowhere, so the run
    ends in the state it reaches without those keystrokes.  In particular a
    second keystroke right after the first changes nothing. *)
Theorem keystrokes_dropped_until_reset g k s evs :
  armed g = true ->
  no_shuffle_running g ->
  side_of_key k = Some s ->
  let g1 := step (Keystroke k) g in
  no_reset_played evs g1 = true ->
  armed g1 = false /\
  (forall k' evs', exec (Keystroke k :: Keystroke k' :: evs') g
                   = exec (Keystroke k :: evs') g) /\
  exec evs g1 = exec (drop_keystrokes evs) g1.
Proof.
  intros Harmed Hrot Hk g1 Hquiet.
  assert (Harm1 : armed g1 = false).
  { subst g1. rewrite (step_keystroke_armed k g Harmed).
    by destruct (force_collisions_face_fields k s (set_armed false g) Hk)
      as (_ & _ & _ & _ & -> & _). }
  assert (Hrot1 : no_shuffle_running g1).
  { subst g1. rewrite (step_keystroke_armed k g Harmed). unfold no_shuffle_running.
    by destruct (force_collisions_face_fields k s (set_armed false g) Hk)
      as (_ & _ & _ & _ & _ & -> & _). }
  split; [done|]. split.
  { intros k' evs'. rewrite !exec_cons. fold g1.
    by rewrite (step_keystroke_dropped k' g1 Harm1). }
  clearbody g1. clear Harmed Hrot Hk g.
  revert g1 Hquiet Harm1 Hrot1. induction evs as [|e evs IH]; intros g Hquiet Harm Hrot.
  { done. }
  cbn [no_reset_played] in Hquiet. apply andb_true_iff in Hquiet as [Hnr Hquiet].
  apply negb_true_iff in Hnr.
  destruct (step_keeps_disarmed e g Harm Hrot Hnr) as [Harm' Hrot'].
  unfold drop_keystrokes. cbn [List.filter]. fold (drop_keystrokes evs).
  destruct e as [k'|s' c|i]; cbn [is_keystroke negb]; rewrite !exec_cons.
  - rewrite (step_keystroke_dropped k' g Harm) in *. by apply IH.
  - by apply IH.
  - by apply IH.
Qed.

Lemma keystrokes_dropped_until_reset_witness :
  let evs := map (CollisionIn TOP_SIDE) (seq 0 9)
             ++ [Keystroke "T"; Play 0; Keystroke "d"; Play 0] in
  let g1 := step (Keystroke "t") cube26 in
  armed g1 = false /\
  (forall k' evs', exec (Keystroke "t" :: Keystroke k' :: evs') cube26
                   = exec (Keystroke "t" :: evs') cube26) /\
  exec evs g1 = exec (drop_keystrokes evs) g1.
Proof.
  apply (keystrokes_dropped_until_reset cube26 "t" TOP_SIDE).
  - reflexivity.
  - constructor.
  - reflexivity.
  - vm_compute. reflexivity.
Defined.

(** C3.  A keystroke that arrives while a rotation is in flight is to be
    dropped; during a shuffle the code takes it.  The space key leaves the
    hook armed ([force_traverse] re-arms it right after [randomize], where
    [reset] would not while [randomizing]); the first shuffle move ('t')
    reaches the quorum and its rotation is in flight with the hook armed; a
    keystroke 'T' is then taken, it overwrites [direction], and the pivot
    ends at +90 where the run without the keystroke ends at -90. *)
Lemma keystroke_taken_in_flight :
  let g := exec (Keystroke " " :: Play 0 :: Play 0 :: Play 0
                   :: map (CollisionIn TOP_SIDE) (seq 0 9)) cube26 in
  in_flight g = true /\
  armed g = true /\
  direction g = 1 /\
  direction (step (Keystroke "T") g) = -1 /\
  hpr (exec [Play 1; Play 1; Play 1] g) TOP_SIDE = mkVec3 (-90) 0 0 /\
  hpr (exec [Keystroke "T"; Play 1; Play 1; Play 1] g) TOP_SIDE = mkVec3 90 0 0.
Proof. vm_compute. repeat split; reflexivity. Qed.

(** * The shuffle *)

Lemma randomize_running g : randomizing g = true -> randomize g = g.
Proof. intros H. unfold randomize. by rewrite H. Qed.

Lemma randomize_fresh g :
  randomizing g = false ->
  randomize g
  = start (random_seq_of (shuffle_moves g))
      (set_rand_pos (S (rand_pos g) + Z.to_nat (shuffle_length g))
         (set_randomizing true g)).
Proof. intros H. unfold randomize. rewrite H. reflexivity. Qed.

Lemma shuffle_effect_refl g g' :
  parent g' = parent g -> heap g' = heap g -> intervals g' = intervals g ->
  randomizing g' = randomizing g -> shuffle_effect g g'.
Proof. intros. split; [done|]. split; [done|]. by left. Qed.

Lemma shuffle_effect_trans g1 g2 g3 :
  shuffle_effect g1 g2 -> shuffle_effect g2 g3 -> shuffle_effect g1 g3.
Proof.
  intros (Hp1 & Hh1 & H1) (Hp2 & Hh2 & H2).
  split; [congruence|]. split; [congruence|].
  destruct H1 as [[Hi1 Hr1]|(Hr1 & Hr1' & ks & Hi1)],
           H2 as [[Hi2 Hr2]|(Hr2 & Hr2' & ks' & Hi2)].
  - left. split; congruence.
  - right. split; [congruence|]. split; [done|]. exists ks'. congruence.
  - right. split; [done|]. split; [congruence|]. exists ks. congruence.
  - congruence.
Qed.

Lemma randomize_effect g : shuffle_effect g (randomize g).
Proof.
  destruct (randomizing g) eqn:Hr.
  - rewrite (randomize_running g Hr). by apply shuffle_effect_refl.
  - rewrite (randomize_fresh g Hr). split; [done|]. split; [done|].
    right. split; [done|]. split; [done|]. by eexists.
Qed.

Lemma look_at_cube_side_effect k g : shuffle_effect g (look_at_cube_side k g).
Proof.
  unfold look_at_cube_side.
  repeat match goal with |- context [String.eqb ?a ?b] => destruct (String.eqb a b) end;
    by apply shuffle_effect_refl.
Qed.

Lemma force_traverse_effect k g : shuffle_effect g (force_traverse k g).
Proof.
  unfold force_traverse.
  repeat match goal with
  | |- context [key_in k ?l] => destruct (key_in k l); [by apply shuffle_effect_refl|]
  end.
  apply (shuffle_effect_trans _ (set_direction (if isupper k then -1 else 1) g));
    [by apply shuffle_effect_refl|].
  destruct (String.eqb k " ").
  - eapply shuffle_effect_trans; [apply randomize_effect|by apply shuffle_effect_refl].
  - destruct (key_in k _).
    + eapply shuffle_effect_trans;
        [apply look_at_cube_side_effect|by apply shuffle_effect_refl].
    + by apply shuffle_effect_refl.
Qed.

Lemma perturb_effect f g : shuffle_effect g (perturb f g).
Proof. apply shuffle_effect_refl; by perturb_frame. Qed.

Lemma force_collisions_effect k g : shuffle_effect g (force_collisions k g).
Proof.
  rewrite force_collisions_unfold.
  eapply shuffle_effect_trans; [apply force_traverse_effect|].
  eapply shuffle_effect_trans; [apply perturb_effect|].
  eapply shuffle_effect_trans; [apply force_traverse_effect|].
  eapply shuffle_effect_trans; [apply perturb_effect|].
  unfold print_key_on_screen. destruct (str_in _ _); by apply shuffle_effect_refl.
Qed.

(** * Invariant of the event machine *)

Lemma seq_ok_mono h h' q : (h <= h')%nat -> seq_ok h q -> seq_ok h' q.
Proof.
  intros Hle [->|[(loc & Hloc & H)|H]]; [by left| |by right; right].
  right; left. exists loc. split; [lia|done].
Qed.

Lemma shuffle_shape_plain q x :
  shuffle_shape q -> x ∈ q -> plain_step x \/ x = Func turn_of_randomize_cb.
Proof.
  intros (pre & -> & Hpre) Hx. apply elem_of_app in Hx as [Hx|Hx].
  - left. rewrite Forall_forall in Hpre. by apply Hpre.
  - right. by apply list_elem_of_singleton in Hx.
Qed.

Lemma random_seq_of_shape ks : shuffle_shape (random_seq_of ks).
Proof.
  unfold random_seq_of.
  exists ([Func (turn_on_off_anmiate_cb false); Wait 1000]
          ++ flat_map (fun k => [Func (force_collisions_cb k); Wait 150]) ks
          ++ [Func (turn_on_off_anmiate_cb true)]).
  split; [by rewrite <- !app_assoc|].
  apply Forall_app. split; [by repeat constructor|].
  apply Forall_app. split; [|by repeat constructor].
  induction ks as [|k ks IH]; [constructor|].
  cbn [flat_map]. apply Forall_app. split; [by repeat constructor|done].
Qed.

Lemma rotation_seq_shape s a d loc h :
  (loc < h)%nat -> rot_shape h (rotation_seq s a d loc).
Proof.
  intros Hlt. exists loc. split; [done|]. right; right.
  unfold rotation_seq. destruct a; eexists _, s; (split; [|reflexivity]); done.
Qed.

(** Reading the head of a well-shaped sequence. *)
Lemma seq_ok_head h x rest :
  seq_ok h (x :: rest) ->
  (turn_step x /\ exists p loc, (loc < h)%nat /\
     rest = [Func (reparent_cubes_cb p loc); Func (reset_cb loc)]) \/
  (exists p loc, (loc < h)%nat /\ x = Func (reparent_cubes_cb p loc) /\
     rest = [Func (reset_cb loc)]) \/
  (exists loc, (loc < h)%nat /\ x = Func (reset_cb loc) /\ rest = []) \/
  (plain_step x /\ shuffle_shape rest) \/
  (x = Func turn_of_randomize_cb /\ rest = []).
Proof.
  intros [H|[(loc & Hloc & [H|[(p & H)|(y & p & Hy & H)]])|(pre & H & Hpre)]].
  - done.
  - injection H as -> ->. right; right; left. by exists loc.
  - injection H as -> ->. right; left. by exists p, loc.
  - injection H as -> ->. left. split; [done|]. by exists p, loc.
  - destruct pre as [|a pre].
    + injection H as -> ->. by right; right; right; right.
    + injection H as -> ->. right; right; right; left.
      inversion Hpre; subst. split; [done|]. by exists pre.
Qed.

Lemma seq_ok_tail h x rest : seq_ok h (x :: rest) -> seq_ok h rest.
Proof.
  intros H. destruct (seq_ok_head h x rest H)
    as [(_ & p & loc & Hloc & ->)|[(p & loc & Hloc & _ & ->)
        |[(loc & _ & _ & ->)|[(_ & Hs)|(_ & ->)]]]].
  - right; left. exists loc. split; [done|]. right; left. by exists p.
  - right; left. exists loc. split; [done|]. by left.
  - by left.
  - by right; right.
  - by left.
Qed.

(** A pending re-parent-back step is followed by the [reset] of the same
    copy. *)
Lemma seq_ok_reparent_reset h q p loc :
  seq_ok h q -> Func (reparent_cubes_cb p loc) ∈ q -> Func (reset_cb loc) ∈ q.
Proof.
  intros [->|[(loc' & _ & [->|[(p' & ->)|(y & p' & Hy & ->)]])|Hs]] Hin.
  - by apply elem_of_nil in Hin.
  - apply list_elem_of_singleton in Hin. done.
  - apply elem_of_cons in Hin as [Hin|Hin]; [|apply list_elem_of_singleton in Hin; done].
    injection Hin as _ ->. set_solver.
  - apply elem_of_cons in Hin as [Hin|Hin]; [by subst y|].
    apply elem_of_cons in Hin as [Hin|Hin]; [|apply list_elem_of_singleton in Hin; done].
    injection Hin as _ ->. set_solver.
  - destruct (shuffle_shape_plain q _ Hs Hin) as [H|H]; done.
Qed.

Lemma seq_ok_reset_lt h q loc :
  seq_ok h q -> Func (reset_cb loc) ∈ q -> (loc < h)%nat.
Proof.
  intros [->|[(loc' & Hlt & [->|[(p' & ->)|(y & p' & Hy & ->)]])|Hs]] Hin.
  - by apply elem_of_nil in Hin.
  - apply list_elem_of_singleton in Hin. by injection Hin as ->.
  - apply elem_of_cons in Hin as [Hin|Hin]; [done|].
    apply list_elem_of_singleton in Hin. by injection Hin as ->.
  - apply elem_of_cons in Hin as [Hin|Hin]; [by subst y|].
    apply elem_of_cons in Hin as [Hin|Hin]; [done|].
    apply list_elem_of_singleton in Hin. by injection Hin as ->.
  - destruct (shuffle_shape_plain q _ Hs Hin) as [H|H]; done.
Qed.

Lemma is_shuffle_seq_shape q : shuffle_shape q -> is_shuffle_seq q = true.
Proof.
  intros (pre & -> & _). unfold is_shuffle_seq. rewrite existsb_app.
  cbn. by rewrite orb_true_r.
Qed.

Lemma is_shuffle_seq_rot h q : rot_shape h q -> is_shuffle_seq q = false.
Proof.
  intros (loc & _ & [->|[(p & ->)|(x & p & Hx & ->)]]); [done|done|].
  by destruct x as [| |[]].
Qed.

Lemma count_insert (P : list Ival -> bool) (l : list (list Ival)) i x y :
  l !! i = Some x ->
  (length (List.filter P (<[i:=y]> l)) + (if P x then 1 else 0)
   = length (List.filter P l) + (if P y then 1 else 0))%nat.
Proof.
  revert i. induction l as [|a l IH]; intros i Hi; [done|].
  destruct i as [|i].
  - cbn in Hi. injection Hi as ->. simpl.
    destruct (P x), (P y); simpl; lia.
  - cbn in Hi. specialize (IH i Hi). simpl.
    change (list_insert i y l) with (<[i:=y]> l).
    destruct (P a); simpl; lia.
Qed.

Lemma wf_ext g g' :
  heap g' = heap g -> intervals g' = intervals g -> parent g' = parent g ->
  randomizing g' = randomizing g -> wf g -> wf g'.
Proof.
  intros Hh Hi Hp Hr [Hshape Howner Hpivot Hshuffle]. split.
  - by rewrite Hh, Hi.
  - rewrite Hi. exact Howner.
  - intros c s. rewrite Hp, Hi. unfold deref. rewrite Hh. apply Hpivot.
  - unfold shuffles_running. by rewrite Hi, Hr.
Qed.

Lemma wf_init population pos0 tape : wf (init population pos0 tape).
Proof. by split. Qed.

Lemma wf_shuffle_effect g g' : wf g -> shuffle_effect g g' -> wf g'.
Proof.
  intros Hwf (Hp & Hh & [[Hi Hr]|(Hr & Hr' & ks & Hi)]); [by eapply wf_ext|].
  destruct Hwf as [Hshape Howner Hpivot Hshuffle].
  assert (Hnew : forall j q loc, (intervals g ++ [random_seq_of ks]) !! j = Some q ->
            Func (reset_cb loc) ∈ q -> intervals g !! j = Some q).
  { intros j q loc Hj Hin. apply lookup_app_Some in Hj as [Hj|[_ Hj]]; [done|].
    apply list_lookup_singleton_Some in Hj as [_ <-].
    by destruct (shuffle_shape_plain _ _ (random_seq_of_shape ks) Hin). }
  split.
  - rewrite Hh, Hi. apply Forall_app. split; [done|].
    constructor; [|constructor]. right; right. apply random_seq_of_shape.
  - rewrite Hi. intros i j qi qj loc Hqi Hqj Hini Hinj.
    eapply Howner; eauto.
  - intros c s. rewrite Hp, Hi. unfold deref. rewrite Hh. intros Hc.
    destruct (Hpivot c s Hc) as (i & q & p & loc & Hq & Hin & Hd).
    exists i, q, p, loc. split; [|done]. by apply lookup_app_l_Some.
  - unfold shuffles_running in *. rewrite Hi, Hr', List.filter_app, length_app.
    rewrite Hshuffle, Hr. cbn [List.filter].
    by rewrite (is_shuffle_seq_shape _ (random_seq_of_shape ks)).
Qed.

Lemma rotation_seq_reset s a d loc loc' :
  Func (reset_cb loc') ∈ rotation_seq s a d loc -> loc' = loc.
Proof.
  unfold rotation_seq. intros Hin. apply elem_of_app in Hin as [Hin|Hin].
  - destruct a; apply list_elem_of_singleton in Hin; done.
  - apply elem_of_cons in Hin as [Hin|Hin]; [done|].
    apply list_elem_of_singleton in Hin. by injection Hin.
Qed.

Lemma wf_rotate_side e g : wf g -> wf (rotate_side e g).
Proof.
  intros [Hshape Howner Hpivot Hshuffle].
  destruct (rotate_side_flags e g) as (_ & Hr & _).
  split.
  - rewrite rotate_side_heap, rotate_side_intervals, length_app. cbn [length].
    apply Forall_app. split.
    + eapply Forall_impl; [exact Hshape|]. intros q. apply seq_ok_mono. lia.
    + constructor; [|constructor]. right; left. apply rotation_seq_shape. lia.
  - rewrite rotate_side_intervals. intros i j qi qj loc Hqi Hqj Hini Hinj.
    rewrite Forall_lookup in Hshape.
    apply lookup_app_Some in Hqi as [Hqi|[Hi Hqi]],
          Hqj as [Hqj|[Hj Hqj]].
    + eapply Howner; eauto.
    + apply list_lookup_singleton_Some in Hqj as [Hj' <-].
      apply rotation_seq_reset in Hinj as ->.
      pose proof (seq_ok_reset_lt _ _ _ (Hshape _ _ Hqi) Hini). lia.
    + apply list_lookup_singleton_Some in Hqi as [Hi' <-].
      apply rotation_seq_reset in Hini as ->.
      pose proof (seq_ok_reset_lt _ _ _ (Hshape _ _ Hqj) Hinj). lia.
    + apply list_lookup_singleton_Some in Hqi as [Hi' _].
      apply list_lookup_singleton_Some in Hqj as [Hj' _]. lia.
  - intros c s. rewrite rotate_side_parent, rotate_side_intervals.
    unfold deref. rewrite rotate_side_heap. case_bool_decide as Hc.
    + intros _.
      exists (length (intervals g)),
        (rotation_seq (into_side e) (animate g) (direction g) (length (heap g))),
        (into_side e), (length (heap g)).
      split; [by apply list_lookup_middle|]. split.
      * unfold rotation_seq. set_solver.
      * by rewrite list_lookup_middle.
    + intros Hpar. destruct (Hpivot c s Hpar) as (i & q & p & loc & Hq & Hin & Hd).
      exists i, q, p, loc. split; [by apply lookup_app_l_Some|]. split; [done|].
      rewrite Forall_lookup in Hshape.
      pose proof (seq_ok_reset_lt _ _ _ (Hshape _ _ Hq)
                    (seq_ok_reparent_reset _ _ _ _ (Hshape _ _ Hq) Hin)) as Hlt.
      by rewrite lookup_app_l.
  - unfold shuffles_running in *.
    rewrite rotate_side_intervals, Hr, List.filter_app, length_app, Hshuffle.
    cbn [List.filter].
    rewrite (is_shuffle_seq_rot (S (length (heap g))) _
               (rotation_seq_shape _ _ _ _ _ (Nat.lt_succ_diag_r _))).
    cbn. lia.
Qed.

(** Playing the head of the [i]-th sequence: what the other fields of the
    invariant see. *)
Section Advance.
Variables (g : MyGame) (i : nat) (x : Ival) (rest : list Ival).
Hypothesis Hwf : wf g.
Hypothesis Hi : intervals g !! i = Some (x :: rest).

Local Abbreviation l' := (<[i:=rest]> (intervals g)).

Lemma advance_lookup j q' :
  l' !! j = Some q' ->
  exists q, intervals g !! j = Some q /\ (forall y, y ∈ q' -> y ∈ q) /\
            (j <> i -> q' = q) /\ (j = i -> q' = rest).
Proof.
  intros Hj. destruct (decide (j = i)) as [->|Hne].
  - rewrite list_lookup_insert_eq in Hj by (by eapply lookup_lt_Some).
    injection Hj as <-. exists (x :: rest).
    split; [done|]. split; [|done]. intros y Hy. by apply list_elem_of_further.
  - rewrite list_lookup_insert_ne in Hj by done. exists q'. by repeat split.
Qed.

Lemma advance_shape h :
  (length (heap g) <= h)%nat -> Forall (seq_ok h) l'.
Proof.
  intros Hle. destruct Hwf as [Hshape _ _ _].
  assert (Hall : Forall (seq_ok h) (intervals g)).
  { eapply Forall_impl; [exact Hshape|]. intros q. by apply seq_ok_mono. }
  apply Forall_insert; [done|].
  rewrite Forall_lookup in Hall. eapply seq_ok_tail, Hall, Hi.
Qed.

Lemma advance_owner j1 j2 q1 q2 loc :
  l' !! j1 = Some q1 -> l' !! j2 = Some q2 ->
  Func (reset_cb loc) ∈ q1 -> Func (reset_cb loc) ∈ q2 -> j1 = j2.
Proof.
  intros H1 H2 Hin1 Hin2.
  destruct (advance_lookup _ _ H1) as (q1' & H1' & Hsub1 & _).
  destruct (advance_lookup _ _ H2) as (q2' & H2' & Hsub2 & _).
  destruct Hwf as [_ Howner _ _]. eapply Howner; eauto.
Qed.

(** Cubies under a pivot keep their pending re-parent-back step, unless
    the step played is that one. *)
Lemma advance_pivot c s :
  (forall p loc, x <> Func (reparent_cubes_cb p loc)) ->
  parent g c = Pivot s ->
  exists j q p loc,
    l' !! j = Some q /\ Func (reparent_cubes_cb p loc) ∈ q /\ c ∈ deref loc g.
Proof.
  intros Hx Hc. destruct Hwf as [_ _ Hpivot _].
  destruct (Hpivot c s Hc) as (j & q & p & loc & Hq & Hin & Hd).
  destruct (decide (j = i)) as [->|Hne].
  - rewrite Hi in Hq. injection Hq as <-.
    apply elem_of_cons in Hin as [Hin|Hin]; [by destruct (Hx p loc)|].
    exists i, rest, p, loc. split; [|done].
    apply list_lookup_insert_eq. by eapply lookup_lt_Some.
  - exists j, q, p, loc. split; [|done]. by rewrite list_lookup_insert_ne.
Qed.

Lemma advance_count :
  is_turn_of_randomize x = false ->
  length (List.filter is_shuffle_seq l') = shuffles_running g.
Proof.
  intros Hx. unfold shuffles_running.
  pose proof (count_insert is_shuffle_seq (intervals g) i (x :: rest) rest Hi) as Hc.
  assert (Heq : is_shuffle_seq (x :: rest) = is_shuffle_seq rest).
  { unfold is_shuffle_seq. cbn [existsb]. by rewrite Hx. }
  rewrite Heq in Hc. destruct (is_shuffle_seq rest); lia.
Qed.

(** The state right after the head was taken off, when the head is not a
    re-parent-back step, a [reset] or the end of a shuffle. *)
Lemma wf_advance :
  (forall p loc, x <> Func (reparent_cubes_cb p loc)) ->
  is_turn_of_randomize x = false ->
  wf (set_intervals l' g).
Proof.
  intros Hx Ht. split; cbn [set_intervals heap intervals parent randomizing].
  - by apply advance_shape.
  - apply advance_owner.
  - intros c s Hc. by apply advance_pivot with s.
  - unfold shuffles_running. cbn [set_intervals intervals].
    rewrite advance_count by done. by destruct Hwf.
Qed.
End Advance.

Lemma wf_play g i x rest :
  wf g -> intervals g !! i = Some (x :: rest) ->
  wf (play x (set_intervals (<[i:=rest]> (intervals g)) g)).
Proof.
  intros Hwf Hi.
  assert (Hok : seq_ok (length (heap g)) (x :: rest)).
  { destruct Hwf as [Hshape _ _ _]. rewrite Forall_lookup in Hshape. by eapply Hshape. }
  destruct (seq_ok_head _ _ _ Hok)
    as [(Hx & p & loc & Hloc & ->)|[(p & loc & Hloc & -> & ->)
        |[(loc & Hloc & -> & ->)|[(Hx & Hs)|(-> & ->)]]]].
  - (* the turn of the pivot *)
    assert (Hadv : wf (set_intervals (<[i:=[Func (reparent_cubes_cb p loc);
                                          Func (reset_cb loc)]]> (intervals g)) g)).
    { apply wf_advance with x; [done|done| |]; by destruct x as [| |[]]. }
    destruct x as [pv ms tgt| |[name pv| | | | |]]; try done;
      by eapply wf_ext; [..|exact Hadv].
  - (* re-parent back *)
    cbn [play call]. unfold reparent_cubes.
    set (g0 := set_intervals (<[i:=[Func (reset_cb loc)]]> (intervals g)) g).
    split; loop_frame; cbn [g0 set_intervals heap intervals randomizing].
    + by eapply advance_shape.
    + by eapply advance_owner.
    + intros c s. rewrite reparent_loop_spec. unfold deref. loop_frame.
      cbn [g0 set_intervals heap parent]. fold (deref loc g).
      case_bool_decide as Hc; [done|]. intros Hpar.
      destruct Hwf as [_ _ Hpivot _].
      destruct (Hpivot c s Hpar) as (j & q & p' & loc' & Hq & Hin & Hd).
      destruct (decide (j = i)) as [->|Hne].
      * rewrite Hi in Hq. injection Hq as <-.
        apply elem_of_cons in Hin as [Hin|Hin].
        -- injection Hin as _ ->. done.
        -- apply list_elem_of_singleton in Hin. done.
      * exists j, q, p', loc'. split; [|done]. by rewrite list_lookup_insert_ne.
    + unfold shuffles_running. loop_frame. cbn [g0 set_intervals intervals].
      erewrite advance_count; [by destruct Hwf|exact Hi|done].
  - (* reset *)
    cbn [play call]. unfold reset.
    cbn [set_heap set_trace set_collided_cubes set_intervals randomizing].
    assert (Hgoal : forall b, wf
      (set_armed b (set_collided_cubes ∅
         (set_trace (trace g ++ [ClearCollided])
            (set_heap (<[loc:=∅]> (heap g))
               (set_intervals (<[i:=[]]> (intervals g)) g)))))).
    { intros b. split;
        cbn [set_armed set_collided_cubes set_trace set_heap set_intervals
             heap intervals parent randomizing].
      - rewrite length_insert. by eapply advance_shape.
      - by eapply advance_owner.
      - intros c s Hpar. destruct Hwf as [Hshape Howner Hpivot _].
        destruct (Hpivot c s Hpar) as (j & q & p' & loc' & Hq & Hin & Hd).
        assert (Hne : j <> i).
        { intros ->. rewrite Hi in Hq. injection Hq as <-.
          apply list_elem_of_singleton in Hin. done. }
        exists j, q, p', loc'. split; [by rewrite list_lookup_insert_ne|].
        split; [done|]. unfold deref.
        cbn [set_armed set_collided_cubes set_trace set_heap set_intervals heap].
        rewrite list_lookup_insert_ne; [done|]. intros ->.
        apply Hne. rewrite Forall_lookup in Hshape.
        eapply (Howner j i q [Func (reset_cb loc')] loc'); [done|done| |set_solver].
        eapply seq_ok_reparent_reset; [by eapply Hshape|done].
      - unfold shuffles_running.
        cbn [set_armed set_collided_cubes set_trace set_heap set_intervals intervals].
        erewrite advance_count; [by destruct Hwf|exact Hi|done]. }
    destruct (randomizing g).
    + specialize (Hgoal (armed g)). eapply wf_ext; [..|exact Hgoal]; done.
    + apply (Hgoal true).
  - (* a step of the shuffle before its end *)
    assert (Hadv : wf (set_intervals (<[i:=rest]> (intervals g)) g)).
    { apply wf_advance with x; [done|done| |]; by destruct x as [| |[]]. }
    destruct x as [| ms|[| | |state|k|]]; try done.
    + cbn [play call]. unfold turn_on_off_anmiate.
      destruct state; by eapply wf_ext; [..|exact Hadv].
    + cbn [play call]. eapply wf_shuffle_effect; [exact Hadv|].
      apply force_collisions_effect.
  - (* the end of the shuffle *)
    cbn [play call]. unfold turn_of_randomize, accept_once.
    split; cbn [set_armed set_randomizing set_intervals heap intervals parent
                randomizing].
    + by eapply advance_shape.
    + by eapply advance_owner.
    + intros c s Hpar.
      destruct (advance_pivot g i _ [] Hwf Hi c s) as (j & q & p & loc & H);
        [done|done|]. by exists j, q, p, loc.
    + unfold shuffles_running. cbn [set_armed set_randomizing set_intervals intervals].
      pose proof (count_insert is_shuffle_seq (intervals g) i _ [] Hi) as Hc.
      cbn in Hc. destruct Hwf as [_ _ _ Hsh]. unfold shuffles_running in Hsh.
      destruct (randomizing g); lia.
Qed.

Theorem wf_step e g : wf g -> wf (step e g).
Proof.
  intros Hwf. destruct e as [k|s c|i].
  - cbn [step]. destruct (armed g); [|done].
    eapply wf_shuffle_effect; [|apply force_collisions_effect].
    by eapply wf_ext; [..|exact Hwf].
  - cbn [step]. rewrite collide_unfold. cbv zeta.
    assert (Hwf' : wf (set_collided_cubes
                         ({[from_cube (mkEntry c s)]} ∪ collided_cubes g) g))
      by (by eapply wf_ext; [..|exact Hwf]).
    destruct (_ <=? _)%nat; [by apply wf_rotate_side|done].
  - cbn [step]. destruct (intervals g !! i) as [[|x rest]|] eqn:Hi; [done| |done].
    by apply wf_play.
Qed.

Theorem wf_exec evs g : wf g -> wf (exec evs g).
Proof.
  revert g. induction evs as [|e evs IH]; intros g Hwf; [done|].
  rewrite exec_cons. by apply IH, wf_step.
Qed.

(** * Cubies go back under the cube model *)

Lemma in_flight_of_pending g i q p loc :
  intervals g !! i = Some q -> Func (reparent_cubes_cb p loc) ∈ q ->
  in_flight g = true.
Proof.
  intros Hq Hin. unfold in_flight. apply existsb_exists.
  exists q. split; [by eapply list_elem_of_In, list_elem_of_lookup_2|].
  apply existsb_exists. exists (Func (reparent_cubes_cb p loc)).
  split; [by apply list_elem_of_In|done].
Qed.

(** C5.  The cubies [rotate_side] hangs under the pivot are the ones its
    re-parent-back step hangs under the cube model again: once the three
    steps of the rotation have been played they are all there, and whenever
    a re-parent-back step is played the cubies of its copy are.  In every
    state the machine reaches from the start, a cubie hanging under a pivot
    has a re-parent-back step still to be played; when no rotation is in
    flight every cubie hangs under the cube model. *)
Theorem cubies_return_to_cube_model :
  (forall g e,
     let g1 := rotate_side e g in
     let i := length (intervals g) in
     forall c, c ∈ collided_cubes g ->
       parent g1 c = Pivot (into_side e) /\
       parent (exec [Play i; Play i; Play i] g1) c = CubeModel) /\
  (forall g i p loc rest c,
     intervals g !! i = Some (Func (reparent_cubes_cb p loc) :: rest) ->
     c ∈ deref loc g -> parent (step (Play i) g) c = CubeModel) /\
  (forall population pos0 tape evs,
     let g := exec evs (init population pos0 tape) in
     (forall c s, parent g c = Pivot s -> in_flight g = true) /\
     (in_flight g = false -> forall c, parent g c = CubeModel)).
Proof.
  split; [|split].
  - intros g e g1 i c Hc. subst g1 i. split.
    + rewrite rotate_side_parent. by rewrite bool_decide_eq_true_2.
    + assert (Hi : intervals (rotate_side e g) !! length (intervals g)
                = Some (rotation_seq (into_side e) (animate g) (direction g)
                          (length (heap g)))).
      { rewrite rotate_side_intervals. by apply list_lookup_middle. }
      destruct (play_rotation_seq _ _ _ _ _ _ Hi) as (_ & _ & _ & Hpar & _).
      apply Hpar. unfold deref. rewrite rotate_side_heap.
      by rewrite list_lookup_middle.
  - intros g i p loc rest c Hi Hc. rewrite (step_play _ _ _ _ Hi).
    cbn [play call]. unfold reparent_cubes. rewrite reparent_loop_spec.
    by rewrite bool_decide_eq_true_2.
  - intros population pos0 tape evs g.
    assert (Hwf : wf g) by apply wf_exec, wf_init.
    assert (Hpend : forall c s, parent g c = Pivot s -> in_flight g = true).
    { intros c s Hc. destruct Hwf as [_ _ Hpivot _].
      destruct (Hpivot c s Hc) as (i & q & p & loc & Hq & Hin & _).
      by eapply in_flight_of_pending. }
    split; [exact Hpend|]. intros Hidle c.
    destruct (parent g c) as [|s] eqn:Hc; [done|].
    rewrite (Hpend c s Hc) in Hidle. done.
Qed.

(** * The shuffle scheduler *)

Lemma shuffle_keys_eq :
  shuffle_keys = ["t"; "T"; "d"; "D"; "l"; "L"; "r"; "R"; "f"; "F"; "b"; "B";
                  "v"; "V"; "c"; "C"; "h"; "H"].
Proof. reflexivity. Qed.

Lemma shuffle_keys_sides k :
  k ∈ shuffle_keys <-> exists s, side_of_key k = Some s.
Proof.
  split.
  - rewrite shuffle_keys_eq. intros H.
    repeat (apply elem_of_cons in H as [->|H]; [by eexists|]).
    by apply elem_of_nil in H.
  - intros [s Hs]. rewrite shuffle_keys_eq.
    destruct (side_of_key_cases k s Hs) as [-> | ->]; destruct s; cbn; set_solver.
Qed.

Lemma moves_of_random_seq ks : moves_of (random_seq_of ks) = ks.
Proof.
  unfold random_seq_of, moves_of. rewrite !flat_map_app. cbn [flat_map app].
  rewrite app_nil_r. induction ks as [|k ks IH]; [done|].
  cbn [flat_map app]. by rewrite IH.
Qed.

Lemma shuffle_length_range g : 30 <= shuffle_length g <= 60.
Proof.
  unfold shuffle_length.
  pose proof (Z.mod_pos_bound (Z.of_nat (rand_tape g (rand_pos g))) 31). lia.
Qed.

Lemma shuffle_moves_length g : length (shuffle_moves g) = Z.to_nat (shuffle_length g).
Proof. unfold shuffle_moves. by rewrite length_map, length_seq. Qed.

Lemma shuffle_moves_lookup g j :
  (j < length (shuffle_moves g))%nat ->
  shuffle_moves g !! j
  = shuffle_keys !! (rand_tape g (S (rand_pos g) + j) mod 18)%nat.
Proof.
  intros Hj. rewrite shuffle_moves_length in Hj. unfold shuffle_moves.
  rewrite list_lookup_fmap, lookup_seq_lt by done. cbn [fmap option_fmap option_map].
  assert (Hlt : (rand_tape g (S (rand_pos g) + j) mod 18 < length shuffle_keys)%nat).
  { rewrite shuffle_keys_eq. cbn [length]. apply Nat.mod_upper_bound. lia. }
  destruct (lookup_lt_is_Some_2 _ _ Hlt) as [x Hx].
  change (0 + j)%nat with j.
  by rewrite Hx, (nth_lookup_Some _ _ EmptyString _ Hx).
Qed.

Lemma index_of_nth k l :
  k ∈ l -> (index_of k l < length l)%nat /\ nth (index_of k l) l EmptyString = k.
Proof.
  induction l as [|x l IH]; intros Hin; [by apply elem_of_nil in Hin|].
  cbn [index_of]. destruct (String.eqb_spec x k) as [->|Hne].
  - cbn. split; [lia|done].
  - apply elem_of_cons in Hin as [Hin|Hin]; [congruence|].
    destruct (IH Hin) as [Hlt Hnth]. cbn. split; [lia|done].
Qed.

Lemma map_nth_seq (l : list string) :
  map (fun i => nth i l EmptyString) (seq 0 (length l)) = l.
Proof.
  apply (nth_ext _ _ EmptyString EmptyString).
  - by rewrite length_map, length_seq.
  - intros n Hn. rewrite length_map, length_seq in Hn.
    rewrite (nth_indep _ _ (nth 0 l EmptyString)) by (by rewrite length_map, length_seq).
    change (nth 0 l EmptyString) with ((fun i => nth i l EmptyString) 0%nat).
    rewrite map_nth. by rewrite seq_nth.
Qed.

(** Every list of 30 to 60 command keys is the outcome of some draws. *)
Lemma every_sequence_can_be_drawn (ks : list string) (p0 : nat) :
  (30 <= length ks <= 60)%nat ->
  Forall (fun k => k ∈ shuffle_keys) ks ->
  exists tape, forall g,
    rand_tape g = tape -> rand_pos g = p0 -> shuffle_moves g = ks.
Proof.
  intros Hlen Hks.
  exists (fun m => if (m =? p0)%nat then (length ks - 30)%nat
                   else index_of (nth (m - S p0) ks EmptyString) shuffle_keys).
  intros g Htape Hpos.
  assert (Hn : shuffle_length g = Z.of_nat (length ks)).
  { unfold shuffle_length. rewrite Htape, Hpos, Nat.eqb_refl.
    rewrite Z.mod_small by lia. lia. }
  unfold shuffle_moves. rewrite Hn, Nat2Z.id, Htape, Hpos.
  transitivity (map (fun i => nth i ks EmptyString) (seq 0 (length ks)));
    [|apply map_nth_seq].
  apply map_ext_in. intros i Hi.
  apply in_seq in Hi. cbn [plus] in Hi.
  assert (Hne : (S p0 + i =? p0)%nat = false) by (apply Nat.eqb_neq; lia).
  rewrite Hne. replace (S p0 + i - S p0)%nat with i by lia.
  assert (Hin : nth i ks EmptyString ∈ shuffle_keys).
  { rewrite Forall_forall in Hks. apply Hks. apply list_elem_of_In, nth_In. lia. }
  destruct (index_of_nth _ _ Hin) as [Hlt Hnth].
  rewrite shuffle_keys_eq in Hlt at 2. cbn [length] in Hlt.
  by rewrite Nat.mod_small.
Qed.

(** C8.  [randomize] called while a shuffle is randomizing changes nothing,
    and in every state the machine reaches at most one shuffle sequence is
    running (exactly one while [randomizing] is set).  When it starts a
    shuffle, the sequence holds between 30 and 60 moves, each one the entry
    of the eighteen command keys picked by that move's own draw; the eighteen
    keys are distinct, they are the keys of the nine sides in both cases, and
    every list of 30 to 60 of them can be drawn. *)
Theorem shuffle_is_guarded_and_bounded :
  (forall g, randomizing g = true -> randomize g = g) /\
  (forall population pos0 tape evs,
     let g := exec evs (init population pos0 tape) in
     shuffles_running g = (if randomizing g then 1 else 0)%nat /\
     (shuffles_running g <= 1)%nat) /\
  (forall g, randomizing g = false ->
     let g' := randomize g in
     randomizing g' = true /\
     intervals g' = intervals g ++ [random_seq_of (shuffle_moves g)] /\
     moves_of (random_seq_of (shuffle_moves g)) = shuffle_moves g /\
     (30 <= length (shuffle_moves g) <= 60)%nat /\
     (forall j, (j < length (shuffle_moves g))%nat ->
        shuffle_moves g !! j
        = shuffle_keys !! (rand_tape g (S (rand_pos g) + j) mod 18)%nat)) /\
  (length shuffle_keys = 18%nat /\ NoDup shuffle_keys /\
   forall k, k ∈ shuffle_keys <-> exists s, side_of_key k = Some s) /\
  (forall ks p0,
     (30 <= length ks <= 60)%nat -> Forall (fun k => k ∈ shuffle_keys) ks ->
     exists tape, forall g,
       rand_tape g = tape -> rand_pos g = p0 -> shuffle_moves g = ks).
Proof.
  split; [exact randomize_running|]. split; [|split; [|split]].
  - intros population pos0 tape evs g.
    assert (Hwf : wf g) by apply wf_exec, wf_init.
    destruct Hwf as [_ _ _ Hsh]. split; [done|].
    rewrite Hsh. destruct (randomizing g); lia.
  - intros g Hr g'. subst g'. rewrite (randomize_fresh g Hr).
    split; [done|]. split; [done|]. split; [apply moves_of_random_seq|].
    split; [|apply shuffle_moves_lookup].
    rewrite shuffle_moves_length. pose proof (shuffle_length_range g). lia.
  - split; [done|]. split; [|exact shuffle_keys_sides].
    rewrite shuffle_keys_eq.
    refine (bool_decide_unpack (NoDup _) _). by vm_compute.
  - exact every_sequence_can_be_drawn.
Qed.

(** The space key reaches [randomize] twice, from the two [force_traverse]
    calls of [force_collisions]; the second call finds the shuffle
    randomizing, so one sequence of thirty moves is started (the tape of
    [cube26] draws 0 every time). *)
Example space_starts_one_shuffle :
  let g := step (Keystroke " ") cube26 in
  randomizing g = true /\ shuffles_running g = 1%nat /\
  length (intervals g) = 1%nat /\
  (moves_of <$> intervals g) = [replicate 30 "t"].
Proof. vm_compute. done. Qed.

(** * The dispatcher and the keys it knows *)

Lemma side_of_key_None k s :
  side_of_key k = None ->
  key_in k [key (mapping_sides s); upper (key (mapping_sides s))] = false.
Proof.
  intros H. apply (List.find_none _ _ H s). destruct s; cbn; tauto.
Qed.

(** A key of no side falls through the whole chain of [force_traverse]. *)
Lemma force_traverse_unbound k g :
  side_of_key k = None ->
  force_traverse k g
  = accept_once
      (let g := set_direction (if isupper k then -1 else 1) g in
       if String.eqb k " " then randomize g
       else if key_in k digit_keys then look_at_cube_side k g else g).
Proof.
  intros H. unfold force_traverse.
  pose proof (side_of_key_None k TOP_SIDE H) as H1.
  pose proof (side_of_key_None k BOTTOM_SIDE H) as H2.
  pose proof (side_of_key_None k LEFT_SIDE H) as H3.
  pose proof (side_of_key_None k RIGHT_SIDE H) as H4.
  pose proof (side_of_key_None k FRONT_SIDE H) as H5.
  pose proof (side_of_key_None k BACK_SIDE H) as H6.
  pose proof (side_of_key_None k CENTER_HORIZONTAL_SIDE H) as H7.
  pose proof (side_of_key_None k CENTER_VERTICAL_SIDE H) as H8.
  pose proof (side_of_key_None k CENTER_DOUBLE_SIDE H) as H9.
  change (key_in k ["t"; "T"] = false) in H1.
  change (key_in k ["d"; "D"] = false) in H2.
  change (key_in k ["l"; "L"] = false) in H3.
  change (key_in k ["r"; "R"] = false) in H4.
  change (key_in k ["f"; "F"] = false) in H5.
  change (key_in k ["b"; "B"] = false) in H6.
  change (key_in k ["h"; "H"] = false) in H7.
  change (key_in k ["v"; "V"] = false) in H8.
  change (key_in k ["c"; "C"] = false) in H9.
  cbv zeta. by rewrite H1, H2, H3, H4, H5, H6, H7, H8, H9.
Qed.

Lemma count_calls_same p g g' :
  trace g' = trace g -> count_calls p g' = count_calls p g.
Proof. intros H. unfold count_calls. by rewrite H. Qed.

Lemma randomize_trace g : trace (randomize g) = trace g.
Proof.
  destruct (randomizing g) eqn:Hr.
  - by rewrite (randomize_running g Hr).
  - by rewrite (randomize_fresh g Hr).
Qed.

(** [force_traverse] adds to the trace traversals and camera calls only. *)
Lemma force_traverse_count p k g :
  (forall s, p (Traverse s) = false) ->
  (forall h, p (TbSetHpr h) = false) ->
  count_calls p (force_traverse k g) = count_calls p g.
Proof.
  intros Ht Hc. destruct (side_of_key k) as [s|] eqn:Hk.
  - rewrite (force_traverse_face k s g Hk), count_calls_traverse by done.
    by apply count_calls_same.
  - rewrite (force_traverse_unbound k g Hk). cbv zeta.
    destruct (String.eqb k " ").
    + apply count_calls_same. cbn [accept_once set_armed trace].
      by rewrite randomize_trace.
    + destruct (key_in k digit_keys); [|done].
      rewrite (count_calls_app p g
                 [TbSetHpr (tb_hpr (look_at_cube_side k
                    (set_direction (if isupper k then -1 else 1) g)))]).
      * cbn [List.filter]. rewrite Hc. cbn. lia.
      * cbn [accept_once set_armed trace].
        by rewrite look_at_cube_side_trace.
Qed.

Lemma force_collisions_count p k g :
  (forall s, p (Traverse s) = false) ->
  (forall h, p (TbSetHpr h) = false) ->
  (forall c v, p (SetFluidPos c v) = false) ->
  count_calls p (force_collisions k g) = count_calls p g.
Proof.
  intros Ht Hc Hm. rewrite force_collisions_unfold.
  rewrite (print_key_on_screen_frame (count_calls p)) by (intros; reflexivity).
  rewrite count_calls_perturb, force_traverse_count by done.
  by rewrite count_calls_perturb, force_traverse_count by done.
Qed.

Lemma force_traverse_direction k g :
  direction (force_traverse k g) = if isupper k then -1 else 1.
Proof.
  destruct (side_of_key k) as [s|] eqn:Hk.
  - by rewrite (force_traverse_face k s g Hk).
  - rewrite (force_traverse_unbound k g Hk). cbv zeta.
    cbn [accept_once set_armed direction]. destruct (String.eqb k " ").
    + destruct (randomizing (set_direction (if isupper k then -1 else 1) g)) eqn:Hr.
      * by rewrite (randomize_running _ Hr).
      * by rewrite (randomize_fresh _ Hr).
    + destruct (key_in k digit_keys); [|done].
      unfold look_at_cube_side.
      repeat match goal with |- context [String.eqb ?a ?b] => destruct (String.eqb a b) end;
        reflexivity.
Qed.

(** A key of no side adds no traversal to the trace. *)
Lemma force_traverse_unbound_count p k g :
  side_of_key k = None ->
  (forall h, p (TbSetHpr h) = false) ->
  count_calls p (force_traverse k g) = count_calls p g.
Proof.
  intros Hk Hc. rewrite (force_traverse_unbound k g Hk). cbv zeta.
  destruct (String.eqb k " ").
  - apply count_calls_same. cbn [accept_once set_armed trace].
    by rewrite randomize_trace.
  - destruct (key_in k digit_keys); [|done].
    rewrite (count_calls_app p g
               [TbSetHpr (tb_hpr (look_at_cube_side k
                  (set_direction (if isupper k then -1 else 1) g)))]).
    + cbn [List.filter]. rewrite Hc. cbn. lia.
    + cbn [accept_once set_armed trace]. by rewrite look_at_cube_side_trace.
Qed.

(** X1.  The chain of key tests in [force_traverse] and the table
    [mapping_sides] agree: a key activates the traverser of a side exactly
    when it is that side's key in either case, and then it leaves the
    keystroke hook as it was; any other key activates no traverser and arms
    the hook.  The direction is -1 for an uppercase key and 1 for any other.
    The label [draw_3d_text] puts on a side is a key of that side, in the
    sense of direction -1. *)
Theorem dispatch_agrees_with_registry :
  (forall k g s,
     side_of_key k = Some s ->
     trace (force_traverse k g) = trace g ++ [Traverse s] /\
     armed (force_traverse k g) = armed g) /\
  (forall k g,
     side_of_key k = None ->
     count_calls is_traverse (force_traverse k g) = count_calls is_traverse g /\
     armed (force_traverse k g) = true) /\
  (forall k s,
     side_of_key k = Some s <->
     k = key (mapping_sides s) \/ k = upper (key (mapping_sides s))) /\
  (forall k g, direction (force_traverse k g) = if isupper k then -1 else 1) /\
  (forall s g,
     side_of_key (label_text s) = Some s /\
     direction (force_traverse (label_text s) g) = -1).
Proof.
  split; [|split; [|split; [|split]]].
  - intros k g s Hk. by rewrite (force_traverse_face k s g Hk).
  - intros k g Hk. split.
    + by apply force_traverse_unbound_count.
    + by rewrite (force_traverse_unbound k g Hk).
  - intros k s. split; [apply side_of_key_cases|].
    intros [-> | ->]; [apply side_of_key_lower|apply side_of_key_upper].
  - apply force_traverse_direction.
  - intros s g. split; [apply side_of_key_upper|].
    rewrite force_traverse_direction. unfold label_text.
    by destruct (isupper_key s) as [_ ->].
Qed.

Lemma look_at_cube_side_cube_state k g :
  cube_state (look_at_cube_side k g) = cube_state g /\
  armed (look_at_cube_side k g) = armed g /\
  direction (look_at_cube_side k g) = direction g /\
  pressed_button (look_at_cube_side k g) = pressed_button g.
Proof.
  unfold look_at_cube_side.
  repeat match goal with |- context [String.eqb ?a ?b] => destruct (String.eqb a b) end;
    done.
Qed.

(** A key that is no side's key and not the space key: what one
    [force_traverse] does. *)
Lemma force_traverse_other k g :
  side_of_key k = None -> k <> " " ->
  let g' := force_traverse k g in
  cube_state g' = cube_state g /\ armed g' = true /\
  pressed_button g' = pressed_button g /\
  cubes g' = cubes g /\
  (key_in k digit_keys = false ->
     tb_hpr g' = tb_hpr g /\ info_on_screen g' = info_on_screen g).
Proof.
  intros Hk Hsp g'. subst g'. rewrite (force_traverse_unbound k g Hk). cbv zeta.
  rewrite (proj2 (String.eqb_neq k " ") Hsp).
  destruct (key_in k digit_keys).
  - destruct (look_at_cube_side_cube_state k
                (set_direction (if isupper k then -1 else 1) g))
      as (Hc & _ & _ & Hp).
    cbn [accept_once]. repeat split; try done.
    unfold look_at_cube_side.
    repeat match goal with |- context [String.eqb ?a ?b] => destruct (String.eqb a b) end;
      done.
  - done.
Qed.

(** X2.  A keystroke the hook takes whose key is no side's key and not the
    space key (a digit, an unknown letter, any other character) leaves the
    cube as it is: no traversal, no rotation, no clear, the same cubies under
    the same parents, the same sequences.  It sets the direction from the
    case of the key and arms the hook again, so the next keystroke is taken;
    unless the key is a digit the camera and its text stay too. *)
Theorem unbound_key_is_harmless g k :
  armed g = true ->
  side_of_key k = None ->
  k <> " " ->
  let g' := step (Keystroke k) g in
  cube_state g' = cube_state g /\
  armed g' = true /\
  count_calls is_traverse g' = count_calls is_traverse g /\
  rotations g' = rotations g /\ clears g' = clears g /\
  direction g' = (if isupper k then -1 else 1) /\
  (key_in k digit_keys = false ->
     tb_hpr g' = tb_hpr g /\ info_on_screen g' = info_on_screen g).
Proof.
  intros Harmed Hk Hsp g'. subst g'.
  rewrite (step_keystroke_armed k g Harmed), force_collisions_unfold.
  set (g0 := set_armed false g).
  set (g1 := force_traverse k g0).
  set (g2 := perturb plus15 g1).
  set (g3 := force_traverse k g2).
  destruct (force_traverse_other k g0 Hk Hsp) as (Hc1 & _ & _ & _ & Hd1).
  destruct (force_traverse_other k g2 Hk Hsp) as (Hc3 & Ha3 & _ & _ & Hd3).
  fold g1 in Hc1, Hd1. fold g3 in Hc3, Ha3, Hd3.
  assert (Hc2 : cube_state g2 = cube_state g1)
    by (subst g2; by rewrite (perturb_preserve cube_state)).
  repeat split.
  - rewrite (print_key_on_screen_frame cube_state) by (intros; reflexivity).
    rewrite (perturb_preserve cube_state) by (intros; reflexivity).
    by rewrite Hc3, Hc2, Hc1.
  - rewrite (print_key_on_screen_frame armed) by (intros; reflexivity).
    by rewrite (perturb_preserve armed) by (intros; reflexivity).
  - rewrite (print_key_on_screen_frame (count_calls is_traverse))
      by (intros; reflexivity).
    rewrite count_calls_perturb by done. subst g3.
    rewrite force_traverse_unbound_count by done. subst g2.
    rewrite count_calls_perturb by done. subst g1.
    by rewrite force_traverse_unbound_count by done.
  - unfold rotations. subst g3 g2 g1.
    rewrite <- (force_collisions_unfold k g0). by rewrite force_collisions_count.
  - unfold clears. subst g3 g2 g1.
    rewrite <- (force_collisions_unfold k g0). by rewrite force_collisions_count.
  - rewrite (print_key_on_screen_frame direction) by (intros; reflexivity).
    rewrite (perturb_preserve direction) by (intros; reflexivity).
    subst g3. apply force_traverse_direction.
  - rewrite (print_key_on_screen_frame tb_hpr) by (intros; reflexivity).
    rewrite (perturb_preserve tb_hpr) by (intros; reflexivity).
    destruct (Hd3 H) as [-> _]. subst g2.
    rewrite (perturb_preserve tb_hpr) by (intros; reflexivity).
    by destruct (Hd1 H) as [-> _].
  - rewrite (print_key_on_screen_frame info_on_screen) by (intros; reflexivity).
    rewrite (perturb_preserve info_on_screen) by (intros; reflexivity).
    destruct (Hd3 H) as [_ ->]. subst g2.
    rewrite (perturb_preserve info_on_screen) by (intros; reflexivity).
    by destruct (Hd1 H) as [_ ->].
Qed.

Lemma unbound_key_is_harmless_witness :
  let g' := step (Keystroke "x") cube26 in
  cube_state g' = cube_state cube26 /\
  armed g' = true /\
  count_calls is_traverse g' = count_calls is_traverse cube26 /\
  rotations g' = rotations cube26 /\ clears g' = clears cube26 /\
  direction g' = 1 /\
  (key_in "x" digit_keys = false ->
     tb_hpr g' = tb_hpr cube26 /\ info_on_screen g' = info_on_screen cube26).
Proof. apply (unbound_key_is_harmless cube26 "x"); done. Defined.

(** * The space key *)

Lemma force_traverse_space g :
  force_traverse " " g = accept_once (randomize (set_direction 1 g)).
Proof. reflexivity. Qed.

Lemma print_key_on_screen_space g : print_key_on_screen " " g = g.
Proof. reflexivity. Qed.

Lemma randomize_fresh_fields g :
  randomizing g = false ->
  let g' := randomize g in
  intervals g' = intervals g ++ [random_seq_of (shuffle_moves g)] /\
  randomizing g' = true /\ armed g' = armed g /\ animate g' = animate g /\
  rand_pos g' = (S (rand_pos g) + Z.to_nat (shuffle_length g))%nat /\
  parent g' = parent g /\ hpr g' = hpr g /\
  collided_cubes g' = collided_cubes g /\ trace g' = trace g.
Proof. intros Hr g'. subst g'. by rewrite (randomize_fresh g Hr). Qed.

(** X3.  The space key, taken by the hook while no shuffle is randomizing,
    starts exactly one shuffle sequence although [force_collisions] reaches
    [randomize] twice: the moves are the ones drawn in the state before, one
    draw is used for their number and one for each move, the cube is not
    touched, animation is not switched yet, and the hook is armed again.
    Taken while a shuffle is randomizing it starts nothing. *)
Theorem space_starts_one_shuffle_sequence g :
  armed g = true ->
  let g' := step (Keystroke " ") g in
  (randomizing g = false ->
     intervals g' = intervals g ++ [random_seq_of (shuffle_moves g)] /\
     randomizing g' = true /\ armed g' = true /\ animate g' = animate g /\
     rand_pos g' = (S (rand_pos g) + Z.to_nat (shuffle_length g))%nat /\
     parent g' = parent g /\ hpr g' = hpr g /\
     collided_cubes g' = collided_cubes g /\ rotations g' = rotations g) /\
  (randomizing g = true ->
     intervals g' = intervals g /\ randomizing g' = true /\ armed g' = true /\
     rand_pos g' = rand_pos g).
Proof.
  intros Harmed g'. subst g'.
  rewrite (step_keystroke_armed " " g Harmed), force_collisions_unfold.
  rewrite print_key_on_screen_space, !force_traverse_space.
  remember (set_direction 1 (set_armed false g)) as g0 eqn:Hg0.
  remember (randomize g0) as gR eqn:HgR.
  remember (set_direction 1 (perturb plus15 (accept_once gR))) as gB eqn:HgB.
  assert (HB : intervals gB = intervals gR /\ randomizing gB = randomizing gR /\
               animate gB = animate gR /\ rand_pos gB = rand_pos gR /\
               parent gB = parent gR /\ hpr gB = hpr gR /\
               collided_cubes gB = collided_cubes gR /\
               rotations gB = rotations gR).
  { rewrite HgB. cbn [set_direction intervals randomizing animate rand_pos
                      parent hpr collided_cubes].
    repeat split; try (by perturb_frame).
    transitivity (rotations (perturb plus15 (accept_once gR))); [reflexivity|].
    unfold rotations. by rewrite count_calls_perturb. }
  destruct HB as (Hi & Hr & Ha & Hp & Hpa & Hh & Hc & Hro).
  assert (Hfinal : forall gC, randomizing gC = true ->
            let gF := perturb minus15 (accept_once (randomize gC)) in
            intervals gF = intervals gC /\ randomizing gF = true /\
            armed gF = true /\ animate gF = animate gC /\
            rand_pos gF = rand_pos gC /\ parent gF = parent gC /\
            hpr gF = hpr gC /\ collided_cubes gF = collided_cubes gC /\
            rotations gF = rotations gC).
  { intros gC HrC gF. subst gF. rewrite (randomize_running gC HrC).
    repeat split; try (by perturb_frame).
    unfold rotations. by rewrite count_calls_perturb. }
  split; intros Hrg.
  - assert (Hr0 : randomizing g0 = false) by (by rewrite Hg0).
    destruct (randomize_fresh_fields g0 Hr0)
      as (Fi & Fr & _ & Fa & Fp & Fpa & Fh & Fc & Ft).
    rewrite <- HgR in Fi, Fr, Fa, Fp, Fpa, Fh, Fc, Ft.
    destruct (Hfinal gB) as (Gi & Gr & Garm & Ga & Gp & Gpa & Gh & Gc & Gro);
      [congruence|].
    rewrite Gi, Gr, Garm, Ga, Gp, Gpa, Gh, Gc, Gro, Hi, Ha, Hp, Hpa, Hh, Hc, Hro.
    rewrite Fi, Fa, Fp, Fpa, Fh, Fc, Hg0. repeat split; try done.
    unfold rotations. apply count_calls_same. by rewrite Ft, Hg0.
  - assert (Hr0 : randomizing g0 = true) by (by rewrite Hg0).
    rewrite (randomize_running g0 Hr0) in HgR. subst gR.
    destruct (Hfinal gB) as (Gi & Gr & Garm & _ & Gp & _);
      [congruence|].
    rewrite Gi, Gr, Garm, Gp, Hi, Hp, Hg0. by repeat split.
Qed.

Lemma space_starts_one_shuffle_sequence_witness :
  let g' := step (Keystroke " ") cube26 in
  (randomizing cube26 = false ->
     intervals g' = intervals cube26 ++ [random_seq_of (shuffle_moves cube26)] /\
     randomizing g' = true /\ armed g' = true /\ animate g' = animate cube26 /\
     rand_pos g' = (S (rand_pos cube26) + Z.to_nat (shuffle_length cube26))%nat /\
     parent g' = parent cube26 /\ hpr g' = hpr cube26 /\
     collided_cubes g' = collided_cubes cube26 /\
     rotations g' = rotations cube26) /\
  (randomizing cube26 = true ->
     intervals g' = intervals cube26 /\ randomizing g' = true /\ armed g' = true /\
     rand_pos g' = rand_pos cube26).
Proof. apply (space_starts_one_shuffle_sequence cube26). reflexivity. Defined.

(** * Reports below the quorum *)

Lemma exec_report_inputs_below (U : gset Cube) rs g :
  reported rs ∪ collided_cubes g ⊆ U ->
  Forall (fun r => (size U < num (mapping_sides (fst r)))%nat) rs ->
  exec (report_inputs rs) g
  = set_collided_cubes (reported rs ∪ collided_cubes g) g.
Proof.
  revert g. induction rs as [|[s c] rs IH]; intros g Hsub Hall.
  - unfold reported. cbn [report_inputs map exec foldl list_to_set].
    rewrite union_empty_l_L. by destruct g.
  - inversion Hall as [|? ? Hlt Hall']; subst. cbn [fst] in Hlt.
    unfold report_inputs. cbn [map fst snd]. rewrite exec_cons.
    fold (report_inputs rs).
    assert (Hsub' : reported ((s, c) :: rs) = {[c]} ∪ reported rs) by done.
    assert (Hc : (size ({[c]} ∪ collided_cubes g) < num (mapping_sides s))%nat).
    { eapply Nat.le_lt_trans; [|exact Hlt]. apply subseteq_size.
      rewrite Hsub' in Hsub. set_solver. }
    rewrite (step_collision_below s c g Hc).
    assert (Heq : reported rs ∪ ({[c]} ∪ collided_cubes g)
                  = reported ((s, c) :: rs) ∪ collided_cubes g).
    { rewrite Hsub'. set_solver. }
    rewrite (IH (set_collided_cubes ({[c]} ∪ collided_cubes g) g)).
    + cbn [set_collided_cubes collided_cubes]. by rewrite Heq.
    + cbn [set_collided_cubes collided_cubes]. by rewrite Heq.
    + done.
Qed.

(** X4.  Collision reports that keep the one collision set below the quorum
    of every side they are reported for only accumulate: whatever the sides,
    the order and the repetitions, the run ends in the same state, the set
    being the old one plus the reported cubies, and no rotation starts. *)
Theorem reports_below_quorum_accumulate g rs rs' :
  let U := reported rs ∪ collided_cubes g in
  Forall (fun r => (size U < num (mapping_sides (fst r)))%nat) rs ->
  Forall (fun r => (size U < num (mapping_sides (fst r)))%nat) rs' ->
  reported rs' = reported rs ->
  exec (report_inputs rs) g = set_collided_cubes U g /\
  exec (report_inputs rs') g = exec (report_inputs rs) g /\
  rotations (exec (report_inputs rs) g) = rotations g.
Proof.
  intros U Hrs Hrs' Heq. subst U.
  rewrite (exec_report_inputs_below _ rs g (reflexivity _) Hrs).
  split; [done|]. split; [|done].
  rewrite (exec_report_inputs_below (reported rs ∪ collided_cubes g) rs' g);
    [by rewrite Heq|by rewrite Heq|done].
Qed.

Lemma reports_below_quorum_accumulate_witness :
  let rs := [(TOP_SIDE, 0%nat); (LEFT_SIDE, 1%nat); (TOP_SIDE, 0%nat)] in
  let rs' := [(CENTER_DOUBLE_SIDE, 1%nat); (BACK_SIDE, 0%nat)] in
  exec (report_inputs rs) cube26
  = set_collided_cubes (reported rs ∪ collided_cubes cube26) cube26 /\
  exec (report_inputs rs') cube26 = exec (report_inputs rs) cube26 /\
  rotations (exec (report_inputs rs) cube26) = rotations cube26.
Proof.
  apply (reports_below_quorum_accumulate cube26
           [(TOP_SIDE, 0%nat); (LEFT_SIDE, 1%nat); (TOP_SIDE, 0%nat)]
           [(CENTER_DOUBLE_SIDE, 1%nat); (BACK_SIDE, 0%nat)]).
  - repeat constructor; vm_compute; lia.
  - repeat constructor; vm_compute; lia.
  - by vm_compute.
Defined.

(** * The angle of a rotation *)

(** X5.  [rotate_side] clears the pivot's transform, so the angle a
    rotation ends at does not build on earlier ones: the first step of its
    sequence puts the pivot at the side's rotation times a direction and
    leaves the other pivots alone.  With animation on, the direction is the
    one read when [rotate_side] ran; with animation off it is the one
    [self.direction] holds when the step is played, whatever was written to
    it in between. *)
Theorem rotation_angle_is_absolute g e d2 :
  let s := into_side e in
  let g1 := rotate_side e g in
  let i := length (intervals g) in
  hpr g1 s = mkVec3 0 0 0 /\
  hpr (step (Play i) (set_direction d2 g1)) s
  = vmul (rotation (mapping_sides s)) (if animate g then direction g else d2) /\
  (forall s', s' <> s -> hpr (step (Play i) (set_direction d2 g1)) s' = hpr g s').
Proof.
  intros s g1 i. subst s g1 i.
  assert (Hi : intervals (set_direction d2 (rotate_side e g))
                 !! length (intervals g)
               = Some (rotation_seq (into_side e) (animate g) (direction g)
                         (length (heap g)))).
  { cbn [set_direction intervals]. rewrite rotate_side_intervals.
    by apply list_lookup_middle. }
  split; [by rewrite rotate_side_hpr, fn_lookup_insert|].
  unfold rotation_seq in Hi. destruct (animate g).
  - rewrite (step_play _ _ _ _ Hi). cbn [play set_hpr set_intervals hpr set_direction].
    split; [by rewrite fn_lookup_insert|].
    intros s' Hne. rewrite fn_lookup_insert_ne by done.
    by rewrite rotate_side_hpr, fn_lookup_insert_ne.
  - rewrite (step_play _ _ _ _ Hi).
    cbn [play call rotate_without_anim set_hpr set_intervals hpr direction
         set_direction].
    split; [by rewrite fn_lookup_insert|].
    intros s' Hne. rewrite fn_lookup_insert_ne by done.
    by rewrite rotate_side_hpr, fn_lookup_insert_ne.
Qed.

(** * A whole move *)

Lemma shuffles_running_finished g : finished g -> shuffles_running g = 0%nat.
Proof.
  unfold finished, shuffles_running. induction 1 as [|q l -> _ IH]; [done|].
  by cbn.
Qed.

Lemma wf_finished_not_randomizing g : wf g -> finished g -> randomizing g = false.
Proof.
  intros [_ _ _ Hsh] Hfin. rewrite (shuffles_running_finished g Hfin) in Hsh.
  by destruct (randomizing g).
Qed.

Lemma wf_finished_parents g c : wf g -> finished g -> parent g c = CubeModel.
Proof.
  intros [_ _ Hpivot _] Hfin. destruct (parent g c) as [|s] eqn:Hc; [done|].
  destruct (Hpivot c s Hc) as (i & q & p & loc & Hq & Hin & _).
  unfold finished in Hfin. rewrite Forall_lookup in Hfin.
  rewrite (Hfin i q Hq) in Hin. by apply elem_of_nil in Hin.
Qed.

(** The state after the report that reaches the quorum from an empty set,
    with the collision set it holds. *)
Lemma exec_reports_exact_set s rs g :
  collided_cubes g = ∅ -> NoDup rs -> length rs = num (mapping_sides s) ->
  exists c (X : gset Cube),
    exec (map (CollisionIn s) rs) g
    = rotate_side (mkEntry c s) (set_collided_cubes X g) /\
    size X = num (mapping_sides s).
Proof.
  intros Hempty Hnd Hlen.
  destruct rs as [|c0 rs0] using rev_ind.
  { pose proof (num_ge_8 s). cbn in Hlen. lia. }
  clear IHrs0. rename rs0 into rs', c0 into c.
  apply list.NoDup_app in Hnd as (Hnd' & Hnotin & _).
  rewrite length_app in Hlen. cbn in Hlen.
  assert (Hsz : size (list_to_set rs' : gset Cube) = length rs')
    by (by apply size_list_to_set).
  rewrite map_app, exec_app.
  assert (Hbelow : exec (map (CollisionIn s) rs') g
                   = set_collided_cubes (list_to_set rs') g).
  { rewrite exec_reports_below; rewrite Hempty, union_empty_r_L; [done|lia]. }
  rewrite Hbelow. cbn [map exec foldl].
  assert (Hnew : size ({[c]} ∪ (list_to_set rs' : gset Cube))
                 = num (mapping_sides s)).
  { rewrite size_union, size_singleton; [lia|].
    apply disjoint_singleton_l. rewrite elem_of_list_to_set.
    intros Hin. apply (Hnotin c Hin). set_solver. }
  rewrite step_collision_quorum;
    cbn [set_collided_cubes collided_cubes]; [|lia].
  exists c, ({[c]} ∪ list_to_set rs'). split; [reflexivity|exact Hnew].
Qed.

(** X6.  A move in manual play is a round trip.  From an idle state the
    machine has reached, a key of a side, reports of exactly the side's
    quorum of distinct cubies and the three steps of the rotation lead to an
    idle state again: the hook is armed, the collision set is empty, every
    sequence is finished and every cubie hangs under the cube model; one
    rotation was started and cleared, and the side's pivot stands at its
    rotation times the direction of the key. *)
Theorem manual_move_round_trip population pos0 tape evs0 k s rs :
  let g := exec evs0 (init population pos0 tape) in
  idle g ->
  side_of_key k = Some s ->
  NoDup rs ->
  length rs = num (mapping_sides s) ->
  let i := length (intervals g) in
  let g2 := exec (Keystroke k :: map (CollisionIn s) rs
                    ++ [Play i; Play i; Play i]) g in
  idle g2 /\
  (forall c, parent g2 c = CubeModel) /\
  hpr g2 s = vmul (rotation (mapping_sides s)) (if isupper k then -1 else 1) /\
  rotations g2 = S (rotations g) /\ clears g2 = S (clears g).
Proof.
  intros g (Harmed & Hrnd & Hempty & Hfin) Hk Hnd Hlen i g2.
  assert (Hwf2 : wf g2) by (subst g2 g; rewrite <- exec_app; apply wf_exec, wf_init).
  revert Hwf2. subst g2.
  rewrite exec_cons, exec_app, (step_keystroke_armed k g Harmed).
  remember (force_collisions k (set_armed false g)) as g0 eqn:Hg0.
  destruct (force_collisions_face_fields k s (set_armed false g) Hk)
    as (Hdir0 & Han0 & Hrnd0 & Hcol0 & _ & Hint0 & _).
  rewrite <- Hg0 in Hdir0, Han0, Hrnd0, Hcol0, Hint0.
  cbn [set_armed collided_cubes intervals randomizing animate] in
    Hdir0, Han0, Hrnd0, Hcol0, Hint0.
  assert (Hrot0 : rotations g0 = rotations g)
    by (unfold rotations; rewrite Hg0; by rewrite force_collisions_count).
  assert (Hclr0 : clears g0 = clears g)
    by (unfold clears; rewrite Hg0; by rewrite force_collisions_count).
  destruct (exec_reports_exact_set s rs g0) as (c & X & -> & HszX);
    [congruence|done|done|].
  remember (set_collided_cubes X g0) as G eqn:HG.
  assert (HGf : intervals G = intervals g /\ randomizing G = false /\
                direction G = (if isupper k then -1 else 1) /\
                rotations G = rotations g /\ clears G = clears g).
  { rewrite HG. cbn [set_collided_cubes intervals randomizing direction].
    repeat split; [done|congruence|done|exact Hrot0|exact Hclr0]. }
  destruct HGf as (HintG & HrndG & HdirG & HrotG & HclrG).
  remember (rotate_side (mkEntry c s) G) as g1 eqn:Hg1.
  destruct (rotate_side_flags (mkEntry c s) G) as (_ & Hrnd1 & _ & Hdir1).
  rewrite <- Hg1 in Hrnd1, Hdir1.
  assert (Hi : intervals g1 !! i
            = Some (rotation_seq s (animate G) (direction G) (length (heap G)))).
  { rewrite Hg1. subst i. rewrite rotate_side_intervals, HintG.
    by apply list_lookup_middle. }
  destruct (play_rotation_seq g1 i s _ _ _ Hi)
    as (Htr2 & Hcol2 & Hint2 & _ & Harm2 & Hhpr2).
  remember (exec [Play i; Play i; Play i] g1) as g2 eqn:Hg2.
  intros Hwf2.
  assert (Hfin2 : finished g2).
  { unfold finished. rewrite Hint2, Hg1, rotate_side_intervals, HintG.
    subst i. rewrite insert_app_r_alt by done.
    rewrite Nat.sub_diag. apply Forall_app. split; [exact Hfin|].
    by repeat constructor. }
  split; [|split; [|split; [|split]]].
  - split; [|split; [|split]]; [|by apply wf_finished_not_randomizing|done|done].
    rewrite Harm2, Hrnd1, HrndG. done.
  - intros c'. by apply wf_finished_parents.
  - rewrite Hhpr2, Hdir1, HdirG. by destruct (animate G).
  - transitivity (rotations g1);
      [|by rewrite Hg1, rotations_rotate_side, HrotG].
    unfold rotations. rewrite (count_calls_app _ g1 _ _ Htr2).
    cbn [List.filter is_rotate length]. lia.
  - transitivity (S (clears g1));
      [|by rewrite Hg1, clears_rotate_side, HclrG].
    unfold clears. rewrite (count_calls_app _ g1 _ _ Htr2).
    cbn [List.filter is_clear length]. lia.
Qed.

Lemma manual_move_round_trip_witness :
  let g := exec [] (init (list_to_set (seq 0 26)) (fun _ => mkVec3 0 0 0)
                      (fun _ => 0%nat)) in
  let g2 := exec (Keystroke "T" :: map (CollisionIn TOP_SIDE) (seq 0 9)
                    ++ [Play 0; Play 0; Play 0]) g in
  idle g2 /\
  (forall c, parent g2 c = CubeModel) /\
  hpr g2 TOP_SIDE = mkVec3 90 0 0 /\
  rotations g2 = 1%nat /\ clears g2 = 1%nat.
Proof.
  apply (manual_move_round_trip (list_to_set (seq 0 26)) (fun _ => mkVec3 0 0 0)
           (fun _ => 0%nat) [] "T" TOP_SIDE (seq 0 9)).
  - repeat split; constructor.
  - reflexivity.
  - apply NoDup_seq.
  - reflexivity.
Defined.

(** * Rotations started, cleared and pending *)

Lemma has_reset_shuffle q : shuffle_shape q -> existsb is_reset q = false.
Proof.
  intros (pre & -> & Hpre). rewrite existsb_app. cbn. rewrite orb_false_r.
  induction Hpre as [|x pre Hx _ IH]; [done|].
  cbn [existsb]. rewrite IH. by destruct x as [| |[]].
Qed.

Lemma has_reset_rotation_seq s a d loc :
  existsb is_reset (rotation_seq s a d loc) = true.
Proof. unfold rotation_seq. by destruct a. Qed.

Lemma pending_shuffle_effect g g' :
  shuffle_effect g g' -> pending_rotations g' = pending_rotations g.
Proof.
  intros (_ & _ & [[Hi _]|(_ & _ & ks & Hi)]); unfold pending_rotations;
    rewrite Hi; [done|].
  rewrite List.filter_app, length_app. cbn [List.filter].
  rewrite (has_reset_shuffle _ (random_seq_of_shape ks)). cbn. lia.
Qed.

Lemma pending_advance g i x rest :
  intervals g !! i = Some (x :: rest) ->
  (length (List.filter (existsb is_reset) (<[i:=rest]> (intervals g)))
   + (if existsb is_reset (x :: rest) then 1 else 0)
   = pending_rotations g + (if existsb is_reset rest then 1 else 0))%nat.
Proof. intros Hi. apply (count_insert _ _ _ _ _ Hi). Qed.

(** The balance is kept by every step. *)
Lemma balance_step e g :
  wf g ->
  rotations g = (clears g + pending_rotations g)%nat ->
  rotations (step e g)
  = (clears (step e g) + pending_rotations (step e g))%nat.
Proof.
  intros Hwf Hbal. destruct e as [k|s c|i].
  - cbn [step]. destruct (armed g); [|done].
    unfold rotations, clears.
    rewrite !force_collisions_count by done.
    rewrite (pending_shuffle_effect _ _ (force_collisions_effect k (set_armed false g))).
    exact Hbal.
  - cbn [step]. rewrite collide_unfold. cbv zeta.
    destruct (_ <=? _)%nat; [|exact Hbal].
    rewrite rotations_rotate_side, clears_rotate_side.
    unfold pending_rotations. rewrite rotate_side_intervals, List.filter_app, length_app.
    cbn [List.filter]. rewrite has_reset_rotation_seq.
    cbn [set_collided_cubes intervals length].
    change (rotations (set_collided_cubes ?X g)) with (rotations g).
    change (clears (set_collided_cubes ?X g)) with (clears g).
    unfold pending_rotations in Hbal. lia.
  - cbn [step]. destruct (intervals g !! i) as [[|x rest]|] eqn:Hi; [done| |done].
    assert (Hok : seq_ok (length (heap g)) (x :: rest)).
    { destruct Hwf as [Hshape _ _ _]. rewrite Forall_lookup in Hshape. by eapply Hshape. }
    pose proof (pending_advance g i x rest Hi) as Hadv.
    destruct (seq_ok_head _ _ _ Hok)
      as [(Hx & p & loc & Hloc & ->)|[(p & loc & Hloc & -> & ->)
          |[(loc & Hloc & -> & ->)|[(Hx & Hs)|(-> & ->)]]]].
    + assert (Hr : existsb is_reset
                     (x :: [Func (reparent_cubes_cb p loc); Func (reset_cb loc)])
                   = true) by (cbn; by rewrite !orb_true_r).
      rewrite Hr in Hadv. cbn [existsb is_reset orb] in Hadv.
      destruct x as [pv ms tgt| |[name pv| | | | |]]; try done;
        cbn [play call]; unfold rotate_without_anim;
        unfold rotations, clears, count_calls, pending_rotations in *;
        cbn [set_hpr set_intervals trace intervals] in *; lia.
    + cbn [existsb is_reset orb] in Hadv. cbn [play call]. unfold reparent_cubes.
      unfold rotations, clears, count_calls, pending_rotations in *. loop_frame.
      cbn [set_intervals trace intervals]. lia.
    + cbn [existsb is_reset orb] in Hadv. cbn [play call]. unfold reset.
      cbn [set_heap set_trace set_collided_cubes set_intervals randomizing].
      assert (Hgoal : forall b,
        let g' := set_armed b (set_collided_cubes ∅
                    (set_trace (trace g ++ [ClearCollided])
                       (set_heap (<[loc:=∅]> (heap g))
                          (set_intervals (<[i:=[]]> (intervals g)) g)))) in
        rotations g' = (clears g' + pending_rotations g')%nat).
      { intros b g'. subst g'. unfold rotations, clears, count_calls, pending_rotations in *.
        cbn [set_armed set_collided_cubes set_trace set_heap set_intervals
             trace intervals].
        rewrite !List.filter_app, !length_app. cbn [List.filter is_rotate is_clear length].
        lia. }
      destruct (randomizing g); [|apply (Hgoal true)].
      exact (Hgoal (armed g)).
    + rewrite (has_reset_shuffle _ Hs) in Hadv.
      assert (Hxr : existsb is_reset (x :: rest) = false).
      { cbn [existsb]. rewrite (has_reset_shuffle _ Hs). by destruct x as [| |[]]. }
      rewrite Hxr in Hadv.
      set (g0 := set_intervals (<[i:=rest]> (intervals g)) g).
      assert (Hbal0 : rotations g0 = (clears g0 + pending_rotations g0)%nat).
      { subst g0. unfold rotations, clears, count_calls, pending_rotations in *.
        cbn [set_intervals trace intervals]. lia. }
      destruct x as [| ms|[| | |state|k|]]; try done.
      * cbn [play call]. unfold turn_on_off_anmiate. by destruct state.
      * cbn [play call]. unfold rotations, clears.
        rewrite !force_collisions_count by done.
        by rewrite (pending_shuffle_effect _ _ (force_collisions_effect k g0)).
    + cbn [existsb is_reset orb] in Hadv. cbn [play call].
      unfold turn_of_randomize, accept_once,
        rotations, clears, count_calls, pending_rotations in *.
      cbn [set_armed set_randomizing set_intervals trace intervals]. lia.
Qed.

(** X7.  In every state the machine reaches from the start, the rotations
    started are the rotations cleared plus the rotations whose [reset] step
    is still to be played: no clear happens without a rotation, and no
    rotation is cleared twice. *)
Theorem rotations_balance population pos0 tape evs :
  let g := exec evs (init population pos0 tape) in
  rotations g = (clears g + pending_rotations g)%nat /\
  (clears g <= rotations g)%nat.
Proof.
  intros g.
  assert (H : wf g /\ rotations g = (clears g + pending_rotations g)%nat).
  { subst g. induction evs as [|e evs IH] using rev_ind.
    - split; [apply wf_init|done].
    - rewrite exec_app. cbn [exec foldl]. destruct IH as [Hwf Hbal].
      split; [by apply wf_step|by apply balance_step]. }
  destruct H as [_ H]. split; [exact H|lia].
Qed.

(** * A shuffle runs to its end *)

Lemma randomize_animate g : animate (randomize g) = animate g.
Proof.
  destruct (randomizing g) eqn:Hr.
  - by rewrite (randomize_running g Hr).
  - by rewrite (randomize_fresh g Hr).
Qed.

Lemma force_traverse_animate k g : animate (force_traverse k g) = animate g.
Proof.
  destruct (side_of_key k) as [s|] eqn:Hk.
  - by rewrite (force_traverse_face k s g Hk).
  - rewrite (force_traverse_unbound k g Hk). cbv zeta.
    cbn [accept_once set_armed animate]. destruct (String.eqb k " ").
    + by rewrite randomize_animate.
    + destruct (key_in k digit_keys); [|done].
      by destruct (look_at_cube_side_cube_state k
                     (set_direction (if isupper k then -1 else 1) g))
        as (Hc & _); injection Hc.
Qed.

Lemma force_collisions_animate k g : animate (force_collisions k g) = animate g.
Proof.
  rewrite force_collisions_unfold.
  rewrite (print_key_on_screen_frame animate) by (intros; reflexivity).
  rewrite (perturb_preserve animate), force_traverse_animate by done.
  by rewrite (perturb_preserve animate), force_traverse_animate by done.
Qed.

(** While a shuffle is randomizing, [force_collisions] starts nothing. *)
Lemma force_collisions_randomizing k g :
  randomizing g = true ->
  intervals (force_collisions k g) = intervals g /\
  randomizing (force_collisions k g) = true.
Proof.
  intros Hr.
  destruct (force_collisions_effect k g) as (_ & _ & [[Hi Hr']|(Hr' & _)]);
    [split; congruence|congruence].
Qed.

Lemma filter_two {A} (P : A -> bool) (l : list A) i j x y :
  l !! i = Some x -> l !! j = Some y -> i <> j ->
  P x = true -> P y = true -> (2 <= length (List.filter P l))%nat.
Proof.
  revert i j. induction l as [|a l IH]; intros i j Hi Hj Hne Hx Hy; [done|].
  destruct i as [|i], j as [|j]; [done| | |].
  - cbn in Hi. injection Hi as ->. cbn in Hj. cbn [List.filter]. rewrite Hx.
    cbn [length]. apply le_n_S.
    clear IH Hne. revert j Hj. induction l as [|b l IH]; intros j Hj; [done|].
    destruct j as [|j].
    + cbn in Hj. injection Hj as ->. cbn [List.filter]. rewrite Hy. cbn. lia.
    + cbn in Hj. specialize (IH j Hj). cbn [List.filter].
      destruct (P b); cbn [length]; lia.
  - cbn in Hj. injection Hj as ->. cbn in Hi. cbn [List.filter]. rewrite Hy.
    cbn [length]. apply le_n_S.
    clear IH Hne. revert i Hi. induction l as [|b l IH]; intros i Hi; [done|].
    destruct i as [|i].
    + cbn in Hi. injection Hi as ->. cbn [List.filter]. rewrite Hx. cbn. lia.
    + cbn in Hi. specialize (IH i Hi). cbn [List.filter].
      destruct (P b); cbn [length]; lia.
  - cbn in Hi, Hj. assert (Hne' : i <> j) by lia.
    specialize (IH i j Hi Hj Hne' Hx Hy). cbn [List.filter].
    destruct (P a); cbn [length]; lia.
Qed.

Lemma shuffle_tail_running rest : shuffle_tail rest -> is_shuffle_seq rest = true.
Proof.
  intros (pre & -> & _). unfold is_shuffle_seq. rewrite existsb_app.
  cbn. by rewrite orb_true_r.
Qed.

Lemma shuffle_at_running i rest g :
  shuffle_at i rest g -> is_shuffle_seq rest = true.
Proof.
  intros (_ & _ & _ & [H|[-> _]]); [by apply shuffle_tail_running|done].
Qed.

(** No other sequence is a shuffle. *)
Lemma shuffle_at_unique i rest g j q :
  shuffle_at i rest g -> intervals g !! j = Some q -> j <> i ->
  is_shuffle_seq q = false.
Proof.
  intros Hat Hq Hne. pose proof (shuffle_at_running _ _ _ Hat) as Hrun.
  destruct Hat as ([_ _ _ Hsh] & Hr & Hi & _).
  destruct (is_shuffle_seq q) eqn:Hs; [|done].
  pose proof (filter_two is_shuffle_seq _ _ _ _ _ Hq Hi Hne Hs Hrun) as H2.
  unfold shuffles_running in Hsh. rewrite Hr in Hsh. lia.
Qed.

(** An input that is not a step of the shuffle leaves it where it is. *)
Lemma shuffle_at_other i rest e g :
  shuffle_at i rest g -> is_play i e = false -> shuffle_at i rest (step e g).
Proof.
  intros Hat He. pose proof Hat as (Hwf & Hr & Hi & Hsh).
  assert (Hlt : (i < length (intervals g))%nat) by (by eapply lookup_lt_Some).
  split; [by apply wf_step|].
  destruct e as [k|s c|j].
  - cbn [step]. destruct (armed g); [|done].
    destruct (force_collisions_randomizing k (set_armed false g) Hr) as [Hi' Hr'].
    rewrite Hi', Hr', force_collisions_animate. done.
  - cbn [step]. rewrite collide_unfold. cbv zeta.
    destruct (_ <=? _)%nat; [|done].
    cbn [from_cube].
    destruct (rotate_side_flags (mkEntry c s)
                (set_collided_cubes ({[c]} ∪ collided_cubes g) g))
      as (_ & Hr' & Ha & _).
    rewrite rotate_side_intervals, Ha, Hr'.
    cbn [set_collided_cubes intervals randomizing animate].
    by rewrite lookup_app_l.
  - assert (Hne : j <> i).
    { cbn in He. intros ->. by rewrite Nat.eqb_refl in He. }
    cbn [step]. destruct (intervals g !! j) as [[|x q]|] eqn:Hj; [done| |done].
    assert (Hok : seq_ok (length (heap g)) (x :: q)).
    { destruct Hwf as [Hshape _ _ _]. rewrite Forall_lookup in Hshape. by eapply Hshape. }
    pose proof (shuffle_at_unique _ _ _ _ _ Hat Hj Hne) as Hnot.
    assert (Hi' : <[j:=q]> (intervals g) !! i = Some rest)
      by (by rewrite list_lookup_insert_ne).
    destruct (seq_ok_head _ _ _ Hok)
      as [(Hx & p & loc & Hloc & ->)|[(p & loc & Hloc & -> & ->)
          |[(loc & Hloc & -> & ->)|[(Hx & Hs)|(-> & ->)]]]].
    + destruct x as [pv ms tgt| |[name pv| | | | |]]; try done;
        cbn [play call]; unfold rotate_without_anim; done.
    + cbn [play call]. unfold reparent_cubes. repeat split.
      * by loop_frame.
      * by loop_frame.
      * destruct Hsh as [H|[-> Ha]]; [by left|right; split; [done|]]. by loop_frame.
    + cbn [play call]. unfold reset.
      cbn [set_heap set_trace set_collided_cubes set_intervals randomizing].
      by rewrite Hr.
    + exfalso. cbn [is_shuffle_seq existsb] in Hnot.
      pose proof (is_shuffle_seq_shape _ Hs) as Hq. unfold is_shuffle_seq in Hq.
      rewrite Hq, orb_true_r in Hnot. done.
    + done.
Qed.

(** Playing a step of the shuffle that is not its last one. *)
Lemma shuffle_at_play i x y rest g :
  shuffle_at i (x :: y :: rest) g -> shuffle_at i (y :: rest) (step (Play i) g).
Proof.
  intros Hat. pose proof Hat as (Hwf & Hr & Hi & Hsh).
  assert (Hlt : (i < length (intervals g))%nat) by (by eapply lookup_lt_Some).
  split; [by apply wf_step|].
  rewrite (step_play _ _ _ _ Hi).
  set (g0 := set_intervals (<[i:=y :: rest]> (intervals g)) g).
  assert (Hi0 : intervals g0 !! i = Some (y :: rest))
    by (subst g0; cbn [set_intervals intervals]; by rewrite list_lookup_insert_eq).
  assert (Hr0 : randomizing g0 = true) by done.
  destruct Hsh as [(pre & Hpre & Hplain)|[? _]]; [|done].
  destruct pre as [|a pre].
  - cbn [app] in Hpre. injection Hpre as -> -> ->.
    cbn [play call turn_on_off_anmiate]. repeat split; [done..|by right].
  - cbn [app] in Hpre. injection Hpre as -> Hrest.
    apply Forall_cons in Hplain as [Ha Hplain].
    assert (Htail : shuffle_tail (y :: rest)) by (by exists pre).
    destruct a as [| ms|[| | |state|k|]]; try done.
    + cbn [play]. repeat split; [done..|by left].
    + cbn [play call]. unfold turn_on_off_anmiate.
      destruct state; repeat split; done || by left.
    + cbn [play call].
      destruct (force_collisions_randomizing k g0 Hr0) as [Hi' Hr'].
      rewrite Hi', Hr'. repeat split; [done..|by left].
Qed.

Lemma shuffle_tail_length rest : shuffle_tail rest -> (2 <= length rest)%nat.
Proof. intros (pre & -> & _). rewrite length_app. cbn. lia. Qed.

(** The shuffle advances by the steps played from it, and by nothing else. *)
Lemma shuffle_at_exec i evs : forall rest g,
  shuffle_at i rest g -> (count_plays i evs < length rest)%nat ->
  exists rest', shuffle_at i rest' (exec evs g) /\
    length rest' = (length rest - count_plays i evs)%nat.
Proof.
  induction evs as [|e evs IH]; intros rest g Hat Hlen.
  - exists rest. split; [done|]. cbn. lia.
  - rewrite exec_cons. unfold count_plays in *. cbn [List.filter] in *.
    destruct (is_play i e) eqn:He.
    + cbn [length] in *.
      assert (e = Play i) as ->.
      { destruct e as [| |j]; try done. cbn in He.
        by apply Nat.eqb_eq in He as ->. }
      destruct rest as [|x [|y rest]]; [cbn in Hlen; lia|cbn in Hlen; lia|].
      destruct (IH (y :: rest) _ (shuffle_at_play _ _ _ _ _ Hat)) as (r' & H1 & H2).
      { cbn [length] in *. lia. }
      exists r'. split; [done|]. cbn [length] in *. lia.
    + destruct (IH rest _ (shuffle_at_other _ _ _ _ Hat He) Hlen) as (r' & H1 & H2).
      by exists r'.
Qed.

Lemma space_keystroke_starts g :
  armed g = true -> randomizing g = false ->
  intervals (step (Keystroke " ") g)
  = intervals g ++ [random_seq_of (shuffle_moves g)] /\
  randomizing (step (Keystroke " ") g) = true /\
  animate (step (Keystroke " ") g) = animate g.
Proof.
  intros Ha Hr. cbn [step]. rewrite Ha.
  rewrite force_collisions_animate. rewrite force_collisions_unfold.
  rewrite (print_key_on_screen_frame intervals),
    (print_key_on_screen_frame randomizing) by (intros; reflexivity).
  rewrite (perturb_preserve intervals), (perturb_preserve randomizing) by done.
  remember (perturb plus15 _) as gA eqn:HgA.
  assert (HA : intervals gA = intervals g ++ [random_seq_of (shuffle_moves g)]
               /\ randomizing gA = true).
  { subst gA.
    rewrite (perturb_preserve intervals), (perturb_preserve randomizing) by done.
    rewrite force_traverse_space. cbn [accept_once set_armed intervals randomizing].
    destruct (randomize_fresh_fields (set_direction 1 (set_armed false g)) Hr)
      as (H1 & H2 & _).
    split; [exact H1|exact H2]. }
  destruct HA as [HA1 HA2].
  rewrite force_traverse_space. cbn [accept_once set_armed intervals randomizing].
  rewrite (randomize_running (set_direction 1 gA) HA2).
  cbn [set_direction intervals randomizing]. done.
Qed.

(** X8.  A shuffle started by the space key runs to its end whatever else
    happens meanwhile.  From a state the machine reaches from the start with
    the hook armed and no shuffle randomizing, the space key starts the
    shuffle sequence; then, however keystrokes, collision reports and steps
    of other sequences are interleaved with its own steps, [randomizing]
    stays set until all its steps but the last are played, and the last
    step ([turn_of_randomize], after animation was switched on again)
    leaves the game not randomizing, animated, with the hook armed and the
    sequence finished. *)
Theorem shuffle_runs_to_its_end population pos0 tape evs0 evs :
  let g := exec evs0 (init population pos0 tape) in
  armed g = true -> randomizing g = false ->
  let i := length (intervals g) in
  count_plays i evs = (2 * length (shuffle_moves g) + 3)%nat ->
  (forall evs1 evs2, evs = evs1 ++ evs2 ->
     randomizing (exec (Keystroke " " :: evs1) g) = true) /\
  let g' := exec (Keystroke " " :: evs ++ [Play i]) g in
  randomizing g' = false /\ armed g' = true /\ animate g' = true /\
  intervals g' !! i = Some [].
Proof.
  intros g Ha Hr i Hcount.
  assert (Hwf : wf g) by apply wf_exec, wf_init.
  destruct (space_keystroke_starts g Ha Hr) as (Hi1 & Hr1 & Han1).
  set (g1 := step (Keystroke " ") g) in *.
  assert (Hlen : length (random_seq_of (shuffle_moves g))
                 = (2 * length (shuffle_moves g) + 4)%nat).
  { unfold random_seq_of. rewrite !length_app. cbn [length].
    rewrite (flat_map_constant_length (c := 2%nat)) by done. lia. }
  assert (Hat : shuffle_at i (random_seq_of (shuffle_moves g)) g1).
  { split; [by apply wf_step|]. split; [done|]. split.
    - rewrite Hi1. subst i. by rewrite list_lookup_middle.
    - left. unfold random_seq_of.
      exists ([Func (turn_on_off_anmiate_cb false); Wait 1000]
              ++ flat_map (fun k => [Func (force_collisions_cb k); Wait 150])
                   (shuffle_moves g)).
      split; [by rewrite <- !app_assoc|].
      apply Forall_app. split; [by repeat constructor|].
      apply Forall_flat_map, Forall_true. intros k. by repeat constructor. }
  split.
  - intros evs1 evs2 ->. rewrite exec_cons. fold g1.
    destruct (shuffle_at_exec i evs1 _ _ Hat) as (r' & (_ & Hr' & _) & _); [|done].
    unfold count_plays in *. rewrite List.filter_app, length_app in Hcount. lia.
  - cbv zeta. rewrite exec_cons. fold g1. rewrite exec_app.
    destruct (shuffle_at_exec i evs _ _ Hat) as (r' & Hat' & Hlen'); [lia|].
    set (g2 := exec evs g1) in *.
    destruct Hat' as (Hwf2 & Hr2 & Hi2 & Hsh).
    destruct Hsh as [Htail|[-> Han2]].
    { apply shuffle_tail_length in Htail. lia. }
    cbn [exec foldl]. rewrite (step_play _ _ _ _ Hi2).
    cbn [play call]. unfold turn_of_randomize, accept_once.
    cbn [set_armed set_randomizing set_intervals randomizing armed animate intervals].
    repeat split; [done|].
    rewrite list_lookup_insert_eq; [done|]. by eapply lookup_lt_Some.
Qed.

Lemma shuffle_runs_to_its_end_witness :
  let g := exec [] (init (list_to_set (seq 0 26)) (fun _ => mkVec3 0 0 0) (fun _ => 0%nat)) in
  let evs := replicate 63 (Play 0) in
  armed g = true /\ randomizing g = false /\
  count_plays (length (intervals g)) evs
  = (2 * length (shuffle_moves g) + 3)%nat /\
  randomizing (exec (Keystroke " " :: evs ++ [Play 0]) g) = false.
Proof.
  assert (H1 : armed (exec [] (init (list_to_set (seq 0 26)) (fun _ => mkVec3 0 0 0) (fun _ => 0%nat)))
               = true) by reflexivity.
  assert (H2 : randomizing (exec [] (init (list_to_set (seq 0 26)) (fun _ => mkVec3 0 0 0) (fun _ => 0%nat)))
               = false) by reflexivity.
  assert (H3 : count_plays
                 (length (intervals (exec [] (init (list_to_set (seq 0 26)) (fun _ => mkVec3 0 0 0)
                                                (fun _ => 0%nat)))))
                 (replicate 63 (Play 0))
               = (2 * length (shuffle_moves (exec [] (init (list_to_set (seq 0 26)) (fun _ => mkVec3 0 0 0)
                                                        (fun _ => 0%nat)))) + 3)%nat)
    by (vm_compute; reflexivity).
  cbv zeta. split; [exact H1|]. split; [exact H2|]. split; [exact H3|].
  exact (proj1 (proj2 (shuffle_runs_to_its_end (list_to_set (seq 0 26)) (fun _ => mkVec3 0 0 0)
                         (fun _ => 0%nat) [] (replicate 63 (Play 0)) H1 H2 H3))).
Defined.

(** * Pivots stay at quarter turns *)

(** What [force_traverse] can write: the direction, the trace, the hook,
    the shuffle flag and its sequence, the random draws, the camera and the
    information text. *)
Lemma force_traverse_frame {A} (proj : MyGame -> A) k g :
  (forall v g, proj (set_direction v g) = proj g) ->
  (forall v g, proj (set_trace v g) = proj g) ->
  (forall v g, proj (set_armed v g) = proj g) ->
  (forall v g, proj (set_randomizing v g) = proj g) ->
  (forall v g, proj (set_intervals v g) = proj g) ->
  (forall v g, proj (set_rand_pos v g) = proj g) ->
  (forall v g, proj (set_tb_hpr v g) = proj g) ->
  (forall v g, proj (set_info_on_screen v g) = proj g) ->
  proj (force_traverse k g) = proj g.
Proof.
  intros Hd Ht Ha Hr Hi Hp Hc Hn.
  destruct (side_of_key k) as [s|] eqn:Hk.
  - rewrite (force_traverse_face k s g Hk). unfold traverse. by rewrite Ht, Hd.
  - rewrite (force_traverse_unbound k g Hk). cbv zeta. unfold accept_once.
    rewrite Ha. destruct (String.eqb k " ").
    + destruct (randomizing (set_direction (if isupper k then -1 else 1) g)) eqn:Hrz.
      * by rewrite (randomize_running _ Hrz), Hd.
      * rewrite (randomize_fresh _ Hrz). unfold start. by rewrite Hi, Hp, Hr, Hd.
    + destruct (key_in k digit_keys); [|by rewrite Hd].
      unfold look_at_cube_side, print_info_on_screen.
      repeat match goal with
             | |- context [String.eqb ?a ?b] => destruct (String.eqb a b)
             end; by rewrite Hn, Ht, Hc, Hd.
Qed.

Lemma force_collisions_frame {A} (proj : MyGame -> A) k g :
  (forall v g, proj (set_direction v g) = proj g) ->
  (forall v g, proj (set_trace v g) = proj g) ->
  (forall v g, proj (set_armed v g) = proj g) ->
  (forall v g, proj (set_randomizing v g) = proj g) ->
  (forall v g, proj (set_intervals v g) = proj g) ->
  (forall v g, proj (set_rand_pos v g) = proj g) ->
  (forall v g, proj (set_tb_hpr v g) = proj g) ->
  (forall v g, proj (set_info_on_screen v g) = proj g) ->
  (forall v g, proj (set_pos v g) = proj g) ->
  (forall v g, proj (set_pressed_button v g) = proj g) ->
  proj (force_collisions k g) = proj g.
Proof.
  intros Hd Ht Ha Hr Hi Hp Hc Hn Hpos Hb.
  rewrite force_collisions_unfold.
  rewrite (print_key_on_screen_frame proj) by done.
  assert (Hper : forall f g, proj (perturb f g) = proj g).
  { intros f g0. apply perturb_preserve. intros c p g1. unfold setFluidPos.
    by rewrite Ht, Hpos. }
  by rewrite Hper, force_traverse_frame, Hper, force_traverse_frame.
Qed.

Lemma force_collisions_direction k g :
  direction (force_collisions k g) = if isupper k then -1 else 1.
Proof.
  rewrite force_collisions_unfold.
  rewrite (print_key_on_screen_frame direction) by (intros; reflexivity).
  rewrite (perturb_preserve direction) by done.
  apply force_traverse_direction.
Qed.

Lemma turn_ok_random_seq ks : Forall turn_ok (random_seq_of ks).
Proof.
  unfold random_seq_of. apply Forall_app. split; [by repeat constructor|].
  apply Forall_app. split; [|by repeat constructor].
  apply Forall_flat_map, Forall_true. intros k. by repeat constructor.
Qed.

Lemma quarter_inv_force_collisions k g :
  quarter_inv g -> quarter_inv (force_collisions k g).
Proof.
  intros (Hd & Hh & Hq). split; [|split].
  - rewrite force_collisions_direction. destruct (isupper k); auto.
  - intros s. by rewrite (force_collisions_frame hpr).
  - destruct (force_collisions_effect k g) as (_ & _ & [[-> _]|(_ & _ & ks & ->)]);
      [done|].
    apply Forall_app. split; [done|]. constructor; [|constructor].
    apply turn_ok_random_seq.
Qed.

Lemma quarter_turn_insert s v g :
  quarter_turn s v -> (forall s', quarter_turn s' (hpr g s')) ->
  forall s', quarter_turn s' ((<[s:=v]> (hpr g)) s').
Proof.
  intros Hv Hh s'. destruct (decide (s = s')) as [->|Hne].
  - by rewrite fn_lookup_insert.
  - by rewrite fn_lookup_insert_ne.
Qed.

Lemma quarter_inv_step e g : quarter_inv g -> quarter_inv (step e g).
Proof.
  intros Hinv. pose proof Hinv as (Hd & Hh & Hq). destruct e as [k|s c|i].
  - cbn [step]. destruct (armed g); [|done].
    by apply quarter_inv_force_collisions.
  - cbn [step]. rewrite collide_unfold. cbv zeta.
    destruct (_ <=? _)%nat; [|done]. cbn [from_cube].
    destruct (rotate_side_flags (mkEntry c s)
                (set_collided_cubes ({[c]} ∪ collided_cubes g) g))
      as (_ & _ & _ & Hdir).
    split; [|split].
    + by rewrite Hdir.
    + rewrite rotate_side_hpr. cbn [into_side set_collided_cubes hpr].
      apply quarter_turn_insert; [by left|done].
    + rewrite rotate_side_intervals.
      cbn [into_side set_collided_cubes intervals animate direction heap].
      apply Forall_app. split; [done|]. constructor; [|constructor].
      unfold rotation_seq. apply Forall_app. split; [|by repeat constructor].
      destruct (animate g); (constructor; [|constructor]); cbn [turn_ok]; [|done].
      destruct Hd as [-> | ->]; auto.
  - cbn [step]. destruct (intervals g !! i) as [[|x rest]|] eqn:Hi; [done| |done].
    assert (Hx : turn_ok x /\ Forall turn_ok rest).
    { rewrite Forall_lookup in Hq. specialize (Hq _ _ Hi).
      by apply Forall_cons in Hq. }
    destruct Hx as [Hx Hrest].
    set (g0 := set_intervals (<[i:=rest]> (intervals g)) g).
    assert (H0 : quarter_inv g0).
    { split; [done|]. split; [done|]. subst g0. cbn [set_intervals intervals].
      by apply Forall_insert. }
    destruct x as [p ms t| |[name p|p loc|loc|state|k|]]; cbn [play call].
    + split; [done|]. split; [|apply H0]. cbn [set_hpr hpr].
      apply quarter_turn_insert; [|done]. right. exact Hx.
    + done.
    + cbn [turn_ok] in Hx. subst name. unfold rotate_without_anim.
      split; [done|]. split; [|apply H0]. cbn [set_hpr hpr].
      apply quarter_turn_insert; [|done]. right.
      change (direction g0) with (direction g). destruct Hd as [-> | ->]; auto.
    + unfold reparent_cubes. destruct H0 as (H1 & H2 & H3).
      split; [|split];
        [loop_frame; exact H1|intros s'; loop_frame; apply H2|loop_frame; exact H3].
    + unfold reset.
      cbn [set_heap set_trace set_collided_cubes set_intervals randomizing].
      destruct (randomizing g0); exact H0.
    + unfold turn_on_off_anmiate. destruct state; exact H0.
    + by apply quarter_inv_force_collisions.
    + exact H0.
Qed.

(** X9.  Pivots never accumulate turns.  In every state the machine reaches
    from the start, between two steps, the direction is 1 or -1 and every
    side's pivot is at rest or exactly one quarter turn of that side away
    from rest, one way or the other: [rotate_side] clears the pivot before
    each turn, and both the animated turn and [rotate_without_anim] set the
    side's own rotation times the direction. *)
Theorem pivots_stay_at_quarter_turns population pos0 tape evs :
  let g := exec evs (init population pos0 tape) in
  (direction g = 1 \/ direction g = -1) /\
  forall s, quarter_turn s (hpr g s).
Proof.
  cbv zeta.
  assert (H : quarter_inv (exec evs (init population pos0 tape))).
  { assert (H0 : quarter_inv (init population pos0 tape)).
    { split; [by right|]. split; [by left|constructor]. }
    revert H0. generalize (init population pos0 tape).
    induction evs as [|e evs IH]; intros g H0; [done|].
    rewrite exec_cons. by apply IH, quarter_inv_step. }
  destruct H as (H1 & H2 & _). by split.
Qed.

(** * The label of the last key *)

Lemma pressed_button_force_collisions k g :
  pressed_button (force_collisions k g)
  = if str_in k ascii_letters then k else pressed_button g.
Proof.
  rewrite force_collisions_unfold. unfold print_key_on_screen.
  destruct (str_in k ascii_letters); [done|].
  rewrite (perturb_preserve pressed_button) by done.
  rewrite (force_traverse_frame pressed_button) by done.
  rewrite (perturb_preserve pressed_button) by done.
  by rewrite (force_traverse_frame pressed_button).
Qed.

Lemma shuffle_keys_letters k :
  k ∈ shuffle_keys -> str_in k ascii_letters = true.
Proof.
  intros Hk. rewrite shuffle_keys_eq in Hk.
  repeat (apply elem_of_cons in Hk as [->|Hk]; [reflexivity|]).
  by apply elem_of_nil in Hk.
Qed.

(** X10.  The label of the last key is written by [force_collisions] alone
    and shows every key that occurs in [ascii_letters], bound to a side or
    not: a keystroke taken by the hook or a move played from a shuffle
    sequence sets it to the key when the key is such a text, and leaves it
    otherwise (digits, space); a keystroke dropped by the hook, a collision
    report and every other step of a sequence leave it as it is.  All the
    keys a shuffle draws from are shown. *)
Theorem label_shows_last_letter_key g e :
  pressed_button (step e g)
  = match e with
    | Keystroke k =>
        if armed g && str_in k ascii_letters then k else pressed_button g
    | CollisionIn _ _ => pressed_button g
    | Play i =>
        match intervals g !! i with
        | Some (Func (force_collisions_cb k) :: _) =>
            if str_in k ascii_letters then k else pressed_button g
        | _ => pressed_button g
        end
    end /\
  Forall (fun k => str_in k ascii_letters = true) shuffle_keys.
Proof.
  split.
  - destruct e as [k|s c|i].
    + cbn [step]. destruct (armed g); [|done].
      by rewrite pressed_button_force_collisions.
    + cbn [step]. rewrite collide_unfold. cbv zeta.
      destruct (_ <=? _)%nat; [|done].
      unfold rotate_side, start. cbn. by loop_frame.
    + cbn [step]. destruct (intervals g !! i) as [[|x rest]|]; [done| |done].
      destruct x as [p ms t| |[name p|p loc|loc|state|k|]]; cbn [play call].
      * done.
      * done.
      * done.
      * unfold reparent_cubes. by loop_frame.
      * unfold reset.
        cbn [set_heap set_trace set_collided_cubes set_intervals randomizing].
        by destruct (randomizing g).
      * unfold turn_on_off_anmiate. by destruct state.
      * by rewrite pressed_button_force_collisions.
      * done.
  - rewrite list.Forall_forall. intros k Hk. by apply shuffle_keys_letters.
Qed.

(** * What moves the camera *)

Lemma shuffle_moves_keys g : Forall (fun k => k ∈ shuffle_keys) (shuffle_moves g).
Proof.
  rewrite Forall_lookup. intros j k Hj.
  assert (Hlt : (j < length (shuffle_moves g))%nat) by (by eapply lookup_lt_Some).
  rewrite (shuffle_moves_lookup g j Hlt) in Hj.
  by eapply list_elem_of_lookup_2.
Qed.

Lemma move_ok_random_seq g : Forall move_ok (random_seq_of (shuffle_moves g)).
Proof.
  unfold random_seq_of. apply Forall_app. split; [by repeat constructor|].
  apply Forall_app. split; [|by repeat constructor].
  apply Forall_flat_map. eapply Forall_impl; [apply shuffle_moves_keys|].
  intros k Hk. constructor; [exact Hk|]. constructor; [done|constructor].
Qed.

Lemma randomize_moves_ok g : moves_ok g -> moves_ok (randomize g).
Proof.
  intros H. destruct (randomizing g) eqn:Hr.
  - by rewrite (randomize_running g Hr).
  - rewrite (randomize_fresh g Hr). unfold moves_ok, start.
    cbn [set_intervals set_rand_pos set_randomizing intervals].
    apply Forall_app. split; [done|]. constructor; [|constructor].
    apply move_ok_random_seq.
Qed.

Lemma force_traverse_moves_ok k g : moves_ok g -> moves_ok (force_traverse k g).
Proof.
  intros H. destruct (side_of_key k) as [s|] eqn:Hk.
  - by rewrite (force_traverse_face k s g Hk).
  - rewrite (force_traverse_unbound k g Hk). cbv zeta.
    destruct (String.eqb k " ").
    + by apply (randomize_moves_ok (set_direction _ g)).
    + destruct (key_in k digit_keys); [|done].
      unfold moves_ok. cbn [accept_once set_armed intervals].
      destruct (look_at_cube_side_cube_state k
                  (set_direction (if isupper k then -1 else 1) g)) as (Hc & _).
      injection Hc as _ _ _ _ Hi _ _. by rewrite Hi.
Qed.

Lemma force_collisions_moves_ok k g : moves_ok g -> moves_ok (force_collisions k g).
Proof.
  intros H. unfold moves_ok. rewrite force_collisions_unfold.
  rewrite (print_key_on_screen_frame intervals) by (intros; reflexivity).
  rewrite (perturb_preserve intervals) by done.
  apply force_traverse_moves_ok. unfold moves_ok.
  rewrite (perturb_preserve intervals) by done.
  by apply force_traverse_moves_ok.
Qed.

Lemma moves_ok_step e g : moves_ok g -> moves_ok (step e g).
Proof.
  intros H. destruct e as [k|s c|i].
  - cbn [step]. destruct (armed g); [|done]. by apply force_collisions_moves_ok.
  - cbn [step]. rewrite collide_unfold. cbv zeta.
    destruct (_ <=? _)%nat; [|done]. unfold moves_ok.
    rewrite rotate_side_intervals. apply Forall_app. split; [done|].
    constructor; [|constructor]. unfold rotation_seq.
    apply Forall_app. split; [|by repeat constructor].
    by destruct (animate _); repeat constructor.
  - cbn [step]. destruct (intervals g !! i) as [[|x rest]|] eqn:Hi; [done| |done].
    assert (Hx : move_ok x /\ Forall move_ok rest).
    { unfold moves_ok in H. rewrite Forall_lookup in H. specialize (H _ _ Hi).
      by apply Forall_cons in H. }
    destruct Hx as [Hx Hrest].
    set (g0 := set_intervals (<[i:=rest]> (intervals g)) g).
    assert (H0 : moves_ok g0).
    { subst g0. unfold moves_ok. cbn [set_intervals intervals].
      by apply Forall_insert. }
    destruct x as [p ms t| |[name p|p loc|loc|state|k|]]; cbn [play call].
    + exact H0.
    + exact H0.
    + exact H0.
    + unfold reparent_cubes, moves_ok. loop_frame. exact H0.
    + unfold reset.
      cbn [set_heap set_trace set_collided_cubes set_intervals randomizing].
      destruct (randomizing g0); exact H0.
    + unfold turn_on_off_anmiate. destruct state; exact H0.
    + by apply force_collisions_moves_ok.
    + exact H0.
Qed.

Lemma shuffle_keys_no_digit k : k ∈ shuffle_keys -> key_in k digit_keys = false.
Proof.
  intros Hk. rewrite shuffle_keys_eq in Hk.
  repeat (apply elem_of_cons in Hk as [->|Hk]; [reflexivity|]).
  by apply elem_of_nil in Hk.
Qed.

(** Without a digit key [force_traverse] does not reach the camera. *)
Lemma force_traverse_camera k g :
  key_in k digit_keys = false -> camera (force_traverse k g) = camera g.
Proof.
  intros Hd. destruct (side_of_key k) as [s|] eqn:Hk.
  - by rewrite (force_traverse_face k s g Hk).
  - rewrite (force_traverse_unbound k g Hk). cbv zeta. rewrite Hd.
    destruct (String.eqb k " "); [|done].
    destruct (randomizing (set_direction (if isupper k then -1 else 1) g)) eqn:Hrz.
    + by rewrite (randomize_running _ Hrz).
    + by rewrite (randomize_fresh _ Hrz).
Qed.

Lemma force_collisions_camera k g :
  key_in k digit_keys = false -> camera (force_collisions k g) = camera g.
Proof.
  intros Hd. rewrite force_collisions_unfold.
  rewrite (print_key_on_screen_frame camera) by (intros; reflexivity).
  rewrite (perturb_preserve camera), (force_traverse_camera _ _ Hd) by done.
  by rewrite (perturb_preserve camera), (force_traverse_camera _ _ Hd) by done.
Qed.

Lemma look_at_cube_side_text k g1 g2 :
  info_on_screen (look_at_cube_side k g1) = info_on_screen (look_at_cube_side k g2).
Proof.
  unfold look_at_cube_side.
  repeat match goal with |- context [String.eqb ?a ?b] => destruct (String.eqb a b) end;
    reflexivity.
Qed.

Lemma force_collisions_camera_digit k g :
  key_in k digit_keys = true ->
  camera (force_collisions k g)
  = camera (look_at_cube_side k (look_at_cube_side k g)).
Proof.
  intros Hd. unfold camera. f_equal; [by apply tb_hpr_force_collisions_digit|].
  rewrite force_collisions_unfold.
  rewrite (print_key_on_screen_frame info_on_screen) by (intros; reflexivity).
  rewrite (perturb_preserve info_on_screen) by done.
  rewrite (force_traverse_digit k _ Hd). cbn [accept_once set_armed info_on_screen].
  apply look_at_cube_side_text.
Qed.

(** X11.  Only a digit key taken by the hook moves the camera.  In every
    state the machine reaches from the start, the next input changes the
    trackball's angles and the information text only if it is a keystroke
    '1'..'7' arriving while the hook is armed, and then to what two calls of
    [look_at_cube_side] give; a digit key arriving while the hook is used up,
    any other key, a collision report and every step of a rotation or of a
    shuffle leave both as they are. *)
Theorem camera_moves_on_digit_keys_only population pos0 tape evs e :
  let g := exec evs (init population pos0 tape) in
  camera (step e g)
  = match e with
    | Keystroke k =>
        if armed g && key_in k digit_keys
        then camera (look_at_cube_side k (look_at_cube_side k g))
        else camera g
    | _ => camera g
    end.
Proof.
  cbv zeta.
  assert (Hok : moves_ok (exec evs (init population pos0 tape))).
  { assert (H0 : moves_ok (init population pos0 tape)) by constructor.
    revert H0. generalize (init population pos0 tape).
    induction evs as [|e' evs IH]; intros g H0; [done|].
    rewrite exec_cons. by apply IH, moves_ok_step. }
  remember (exec evs (init population pos0 tape)) as g eqn:Hg. clear Hg.
  destruct e as [k|s c|i].
  - cbn [step]. destruct (armed g); [|done]. cbn [andb].
    destruct (key_in k digit_keys) eqn:Hd.
    + rewrite (force_collisions_camera_digit k _ Hd).
      unfold camera. f_equal.
      * by do 2 apply look_at_cube_side_reads_camera.
      * apply look_at_cube_side_text.
    + by rewrite (force_collisions_camera k _ Hd).
  - cbn [step]. rewrite collide_unfold. cbv zeta.
    destruct (_ <=? _)%nat; [|done].
    unfold camera, rotate_side, start. cbn. by loop_frame.
  - cbn [step]. destruct (intervals g !! i) as [[|x rest]|] eqn:Hi; [done| |done].
    assert (Hx : move_ok x).
    { unfold moves_ok in Hok. rewrite Forall_lookup in Hok. specialize (Hok _ _ Hi).
      by apply Forall_cons in Hok as [? _]. }
    destruct x as [p ms t| |[name p|p loc|loc|state|k|]]; cbn [play call].
    + done.
    + done.
    + done.
    + unfold reparent_cubes, camera. by loop_frame.
    + unfold reset.
      cbn [set_heap set_trace set_collided_cubes set_intervals randomizing].
      by destruct (randomizing g).
    + unfold turn_on_off_anmiate. by destruct state.
    + by rewrite (force_collisions_camera k _ (shuffle_keys_no_digit k Hx)).
    + done.
Qed.

(** * One rotation per quorum, and every report after it *)

(** An attempt is a call of [force_collisions] on a state with the same
    collision set, trace and number of started sequences. *)
Lemma attempts_step e k g :
  attempts e k g ->
  exists g', step e g = force_collisions k g' /\
    collided_cubes g' = collided_cubes g /\ trace g' = trace g /\
    length (intervals g') = length (intervals g).
Proof.
  intros [[-> Ha]|(i & rest & -> & Hi)].
  - exists (set_armed false g). by rewrite (step_keystroke_armed k g Ha).
  - exists (set_intervals (<[i:=rest]> (intervals g)) g).
    rewrite (step_play _ _ _ _ Hi). cbn [play call set_intervals intervals].
    by rewrite length_insert.
Qed.

(** A step that is not a [reset] neither shrinks the collision set nor
    clears it. *)
Lemma step_keeps_quorum n e g :
  plays_reset e g = false ->
  (n <= size (collided_cubes g))%nat ->
  (n <= size (collided_cubes (step e g)))%nat /\ clears (step e g) = clears g.
Proof.
  intros Hnr Hn. destruct e as [k|s c|i].
  - cbn [step]. destruct (armed g); [|done].
    rewrite (force_collisions_frame collided_cubes) by done.
    unfold clears. by rewrite force_collisions_count.
  - cbn [step]. rewrite collide_unfold. cbv zeta. cbn [from_cube].
    assert (Hn' : (n <= size ({[c]} ∪ collided_cubes g))%nat).
    { etrans; [exact Hn|]. apply subseteq_size. set_solver. }
    destruct (_ <=? _)%nat; [|done].
    by rewrite rotate_side_collided, clears_rotate_side.
  - cbn [step plays_reset] in *.
    destruct (intervals g !! i) as [[|x rest]|] eqn:Hi; [done| |done].
    destruct x as [p ms t| |[name p|p loc|loc|state|k|]]; try done;
      cbn [play call].
    + unfold reparent_cubes, clears, count_calls. by loop_frame.
    + unfold turn_on_off_anmiate. by destruct state.
    + rewrite (force_collisions_frame collided_cubes) by done.
      unfold clears. by rewrite force_collisions_count.
Qed.

Lemma exec_keeps_quorum n evs : forall g,
  no_reset_played evs g = true ->
  (n <= size (collided_cubes g))%nat ->
  (n <= size (collided_cubes (exec evs g)))%nat /\ clears (exec evs g) = clears g.
Proof.
  induction evs as [|e evs IH]; intros g Hq Hn; [done|].
  cbn [no_reset_played] in Hq. apply andb_true_iff in Hq as [Hnr Hq].
  apply negb_true_iff in Hnr.
  destruct (step_keeps_quorum n e g Hnr Hn) as [Hn' Hc].
  rewrite exec_cons. destruct (IH _ Hq Hn') as [Hn'' Hc'].
  split; [done|congruence].
Qed.

(** C1, as the code has it.  An attempt with a key of side [s] (a keystroke
    the hook takes or a move played from a shuffle sequence), from an empty
    collision set, whose reports are exactly [num] distinct cubies, enters
    [rotate_side] once, on the last report; playing the three steps of the
    sequence it started clears the collision set once.  Nothing guards the
    time in between: after the quorum report, whatever inputs follow
    (keystrokes, further reports, steps of any sequence) as long as no
    [reset] step is played, every report for the side enters [rotate_side]
    again, and nothing has been cleared. *)
Theorem exact_quorum_rotates_once g e k s rs :
  attempts e k g ->
  collided_cubes g = ∅ ->
  side_of_key k = Some s ->
  NoDup rs ->
  length rs = num (mapping_sides s) ->
  let g1 := exec (e :: map (CollisionIn s) rs) g in
  let i := length (intervals g) in
  let g2 := exec [Play i; Play i; Play i] g1 in
  (rotations g1 = S (rotations g) /\ clears g1 = clears g) /\
  (rotations g2 = S (rotations g) /\ clears g2 = S (clears g) /\
   collided_cubes g2 = ∅) /\
  (forall evs c,
     no_reset_played evs g1 = true ->
     let g' := exec evs g1 in
     rotations (step (CollisionIn s c) g') = S (rotations g') /\
     clears (step (CollisionIn s c) g') = clears g).
Proof.
  intros Hatt Hempty Hk Hnd Hlen g1 i g2.
  subst g1 g2. rewrite exec_cons.
  destruct (attempts_step e k g Hatt) as (gg & -> & Hcolg & Htrg & Hleng).
  set (g0 := force_collisions k gg).
  destruct (force_collisions_face_fields k s gg Hk)
    as (_ & _ & _ & Hcol0 & _ & Hint0 & _).
  fold g0 in Hcol0, Hint0.
  assert (Hrot0 : rotations g0 = rotations g).
  { unfold rotations. subst g0.
    rewrite (count_calls_force_collisions_face _ k s) by done.
    unfold count_calls. by rewrite Htrg. }
  assert (Hclr0 : clears g0 = clears g).
  { unfold clears. subst g0.
    rewrite (count_calls_force_collisions_face _ k s) by done.
    unfold count_calls. by rewrite Htrg. }
  destruct (exec_reports_exact s rs g0) as (c & G & -> & HtrG & HintG & HszG);
    [congruence|done|done|].
  assert (HrotG : rotations G = rotations g0)
    by (unfold rotations, count_calls; by rewrite HtrG).
  assert (HclrG : clears G = clears g0)
    by (unfold clears, count_calls; by rewrite HtrG).
  set (g1 := rotate_side (mkEntry c s) G).
  assert (Hrot1 : rotations g1 = S (rotations g)).
  { subst g1. rewrite rotations_rotate_side. congruence. }
  assert (Hclr1 : clears g1 = clears g).
  { subst g1. rewrite clears_rotate_side. congruence. }
  split; [done|]. split.
  - assert (Hi : intervals g1 !! i
              = Some (rotation_seq s (animate G) (direction G) (length (heap G)))).
    { subst g1 i. rewrite rotate_side_intervals, <- Hleng, <- Hint0, <- HintG.
      by apply list_lookup_middle. }
    destruct (play_rotation_seq g1 i s _ _ _ Hi) as (Htr2 & Hcol2 & _).
    split; [|split; [|done]].
    + rewrite <- Hrot1. unfold rotations.
      rewrite (count_calls_app _ g1 _ _ Htr2).
      cbn [List.filter is_rotate length]. lia.
    + rewrite <- Hclr1. unfold clears.
      rewrite (count_calls_app _ g1 _ _ Htr2).
      cbn [List.filter is_clear length]. lia.
  - intros evs c' Hquiet g'. subst g'.
    assert (Hq1 : (num (mapping_sides s) <= size (collided_cubes g1))%nat).
    { subst g1. by rewrite rotate_side_collided, HszG. }
    destruct (exec_keeps_quorum _ evs g1 Hquiet Hq1) as [Hq' Hc'].
    assert (Hq : (num (mapping_sides s)
                  <= size ({[c']} ∪ collided_cubes (exec evs g1)))%nat).
    { etrans; [exact Hq'|]. apply subseteq_size. set_solver. }
    rewrite (step_collision_quorum s c' _ Hq).
    rewrite rotations_rotate_side, clears_rotate_side.
    split; [done|].
    change (clears (set_collided_cubes ?X ?h)) with (clears h). congruence.
Qed.

Lemma exact_quorum_rotates_once_witness :
  let g1 := exec (Keystroke "t" :: map (CollisionIn TOP_SIDE) (seq 0 9)) cube26 in
  let g2 := exec [Play 0; Play 0; Play 0] g1 in
  (rotations g1 = 1 /\ clears g1 = 0)%nat /\
  (rotations g2 = 1%nat /\ clears g2 = 1%nat /\ collided_cubes g2 = ∅) /\
  (forall evs c,
     no_reset_played evs g1 = true ->
     let g' := exec evs g1 in
     rotations (step (CollisionIn TOP_SIDE c) g') = S (rotations g') /\
     clears (step (CollisionIn TOP_SIDE c) g') = 0%nat).
Proof.
  apply (exact_quorum_rotates_once cube26 (Keystroke "t") "t" TOP_SIDE (seq 0 9)).
  - left. split; reflexivity.
  - reflexivity.
  - reflexivity.
  - apply NoDup_seq.
  - reflexivity.
Defined.

(** * Direction of a rotation *)

(** The first step of the sequence [rotate_side] has just started, played
    next: the pivot ends at the side's rotation times the direction. *)
Lemma play_first_rotation_step e g :
  hpr (step (Play (length (intervals g))) (rotate_side e g)) (into_side e)
  = vmul (rotation (mapping_sides (into_side e))) (direction g).
Proof.
  assert (Hlook : intervals (rotate_side e g) !! length (intervals g)
                  = Some (rotation_seq (into_side e) (animate g) (direction g)
                            (length (heap g)))).
  { rewrite rotate_side_intervals. by apply list_lookup_middle. }
  destruct (rotate_side_flags e g) as (_ & _ & _ & Hdir).
  unfold rotation_seq in Hlook. destruct (animate g).
  - rewrite (step_play _ _ _ _ Hlook). cbn [play set_hpr set_intervals hpr].
    by rewrite fn_lookup_insert.
  - rewrite (step_play _ _ _ _ Hlook).
    cbn [play call rotate_without_anim set_hpr set_intervals hpr direction].
    rewrite fn_lookup_insert. by rewrite Hdir.
Qed.

(** An attempt nothing interferes with.  For every side and every attempt
    with one of its keys (a keystroke the hook takes, in an idle game or
    not, or a move played from a shuffle sequence), from an empty collision
    set: the reports of exactly the side's quorum of distinct cubies and the
    first step of the rotation they start turn the pivot by the side's
    rotation times +1 for the lowercase key and times -1 for the uppercase
    key, equal size and opposite sign, with animation on or off. *)
Theorem case_decides_sign_of_undisturbed_attempt g s rs :
  collided_cubes g = ∅ ->
  NoDup rs ->
  length rs = num (mapping_sides s) ->
  let run e :=
    exec (e :: map (CollisionIn s) rs ++ [Play (length (intervals g))]) g in
  (forall e k, attempts e k g -> side_of_key k = Some s ->
     hpr (run e) s
     = vmul (rotation (mapping_sides s)) (if isupper k then -1 else 1)) /\
  (forall e E,
     attempts e (key (mapping_sides s)) g ->
     attempts E (upper (key (mapping_sides s))) g ->
     hpr (run e) s = vmul (rotation (mapping_sides s)) 1 /\
     hpr (run E) s = vmul (rotation (mapping_sides s)) (-1) /\
     hpr (run E) s = vneg (hpr (run e) s)).
Proof.
  intros Hempty Hnd Hlen run.
  assert (Hrun : forall e k, attempts e k g -> side_of_key k = Some s ->
            hpr (run e) s
            = vmul (rotation (mapping_sides s)) (if isupper k then -1 else 1)).
  { intros e k Hatt Hk. subst run. cbn beta. rewrite exec_cons, exec_app.
    destruct (attempts_step e k g Hatt) as (gg & -> & Hcolg & _ & Hleng).
    destruct (force_collisions_face_fields k s gg Hk)
      as (Hdir & _ & _ & Hcol & _ & Hint & _).
    cbv zeta in Hdir, Hcol, Hint.
    remember (force_collisions k gg) as g0 eqn:Hg0.
    destruct (exec_reports_exact_set s rs g0) as (c & X & -> & _);
      [congruence|done|done|].
    pose proof (play_first_rotation_step (mkEntry c s) (set_collided_cubes X g0))
      as Hturn.
    cbn [into_side set_collided_cubes intervals direction] in Hturn.
    rewrite Hint, Hleng, Hdir in Hturn. exact Hturn. }
  split; [exact Hrun|].
  intros e E He HE. destruct (isupper_key s) as [Hlo Hup].
  rewrite (Hrun e _ He (side_of_key_lower s)), (Hrun E _ HE (side_of_key_upper s)).
  rewrite Hlo, Hup. split; [done|]. split; [done|].
  unfold vmul, vneg. cbn [v0 v1 v2]. f_equal; lia.
Qed.

Lemma case_decides_sign_of_undisturbed_attempt_witness :
  let run e := exec (e :: map (CollisionIn TOP_SIDE) (seq 0 9) ++ [Play 0]) cube26 in
  hpr (run (Keystroke "t")) TOP_SIDE = mkVec3 (-90) 0 0 /\
  hpr (run (Keystroke "T")) TOP_SIDE = mkVec3 90 0 0 /\
  hpr (run (Keystroke "T")) TOP_SIDE = vneg (hpr (run (Keystroke "t")) TOP_SIDE).
Proof.
  assert (Ht : attempts (Keystroke "t") (key (mapping_sides TOP_SIDE)) cube26)
    by (left; split; reflexivity).
  assert (HT : attempts (Keystroke "T") (upper (key (mapping_sides TOP_SIDE))) cube26)
    by (left; split; reflexivity).
  exact (proj2 (case_decides_sign_of_undisturbed_attempt cube26 TOP_SIDE (seq 0 9)
                  (reflexivity _) (NoDup_seq 0 9) (reflexivity _))
           (Keystroke "t") (Keystroke "T") Ht HT).
Defined.

(** C7.  The sign of a rotation is to follow the case of the key of its
    attempt; with animation off the code reads [direction] only when the
    turn is played, and during a shuffle the hook is armed, so a keystroke
    taken in between decides the sign.  Two shuffles that differ in their
    first move only, 't' for one and 'T' for the other: after the move and
    its nine reports the rotation is in flight without animation and the
    hook is armed.  Played at once, the turns are -90 and +90.  With a
    keystroke 'T' taken first, both turns are +90: the attempt with the
    lowercase key is turned by the rotation times -1, as the uppercase one. *)
Lemma lowercase_move_turned_as_uppercase :
  let shuffle tape :=
    exec [Keystroke " "; Play 0; Play 0]
      (init (list_to_set (seq 0 26)) (fun _ => mkVec3 0 0 0) tape) in
  let lower := shuffle (fun _ => 0%nat) in
  let upper_ := shuffle (fun n => match n with O => 0 | S _ => 1 end)%nat in
  let attempt g := exec (Play 0 :: map (CollisionIn TOP_SIDE) (seq 0 9)) g in
  (head (default [] (intervals lower !! 0%nat)) = Some (Func (force_collisions_cb "t")) /\
   head (default [] (intervals upper_ !! 0%nat)) = Some (Func (force_collisions_cb "T")) /\
   animate lower = false /\ animate upper_ = false /\
   hpr lower = hpr upper_ /\ collided_cubes lower = collided_cubes upper_) /\
  (in_flight (attempt lower) = true /\ armed (attempt lower) = true /\
   intervals (attempt lower) !! 1%nat
   = Some (rotation_seq TOP_SIDE false 1 0)) /\
  (hpr (exec [Play 1] (attempt lower)) TOP_SIDE = mkVec3 (-90) 0 0 /\
   hpr (exec [Play 1] (attempt upper_)) TOP_SIDE = mkVec3 90 0 0) /\
  (hpr (exec [Keystroke "T"; Play 1] (attempt lower)) TOP_SIDE = mkVec3 90 0 0 /\
   hpr (exec [Keystroke "T"; Play 1] (attempt upper_)) TOP_SIDE = mkVec3 90 0 0 /\
   vmul (rotation (mapping_sides TOP_SIDE)) (-1) = mkVec3 90 0 0).
Proof. vm_compute. repeat split; reflexivity. Qed.
